(** * vLGP: variational latent Gaussian process inference

    A shallow embedding of [src/vb.py] (the single-trial routine
    [variational]: its trust-region parameter blocks, the covariance update
    and the outer loop, from the initialised variables on) and of
    [src/vlgp/core.py] (the variational EM engine: [infer_single_trial],
    [estep], [mstep], [hstep], [infer], [vem], [constrain_latent],
    [constrain_loading], [update_w], [update_v]).

    Arrays are row-major lists.  Every definition is generic in the scalar
    type through the class [Scalar]: the instance [Scalar_float] is IEEE
    binary64, the number type of numpy, and lets the model run on concrete
    inputs; the instance [Scalar_R] is exact arithmetic, in which the
    algebraic properties are proved.

    Calls into numpy/scipy whose result is not a closed arithmetic formula
    ([solve], [svd], [exp], [slogdet], the vector norm of a given order)
    and [trunc_exp] of the package's [math] module are the fields of the
    class [Extern]; a property that depends on what such a call returns
    states it as a hypothesis on that call. *)

From Stdlib Require Import PrimFloat String.
From Stdlib Require Import List Bool Arith Lia.
From Stdlib Require Import Reals Lra.
Import ListNotations.

Set Implicit Arguments.

(** ** Scalars *)

Class Scalar (A : Type) : Type := {
  s0 : A;
  s1 : A;
  shalf : A;                      (* the literal 0.5 *)
  sadd : A -> A -> A;
  ssub : A -> A -> A;
  smul : A -> A -> A;
  sdiv : A -> A -> A;
  sopp : A -> A;
  ssqrt : A -> A;
  sabs : A -> A;
  sltb : A -> A -> bool;          (* x < y, false when either is NaN *)
  sisnan : A -> bool;
  smax : A -> A -> A;             (* np.maximum *)
  smin : A -> A -> A;             (* np.minimum *)
  of_nat : nat -> A;              (* an int used in float arithmetic *)
  finfo_eps : A;                  (* np.finfo(float).eps *)
  nan_to_num : A -> A             (* np.nan_to_num *)
}.

Declare Scope scalar_scope.
Delimit Scope scalar_scope with S.
Infix "+" := sadd : scalar_scope.
Infix "-" := ssub : scalar_scope.
Infix "*" := smul : scalar_scope.
Infix "/" := sdiv : scalar_scope.
Notation "- x" := (sopp x) : scalar_scope.
Infix "<?" := sltb : scalar_scope.

(** Exact arithmetic. *)
#[export] Instance Scalar_R : Scalar R := {|
  s0 := 0%R;
  s1 := 1%R;
  shalf := (1 / 2)%R;
  sadd := Rplus;
  ssub := Rminus;
  smul := Rmult;
  sdiv := Rdiv;
  sopp := Ropp;
  ssqrt := sqrt;
  sabs := Rabs;
  sltb := fun x y => if Rlt_dec x y then true else false;
  sisnan := fun _ => false;
  smax := Rmax;
  smin := Rmin;
  of_nat := INR;
  finfo_eps := (/ 2 ^ 52)%R;
  nan_to_num := fun x => x
|}.

(** [n] as a binary64 number, by repeated addition of 1 (exact below 2^53). *)
Fixpoint float_of_nat (n : nat) : float :=
  match n with
  | O => 0%float
  | S k => (float_of_nat k + 1)%float
  end.

(** [np.maximum] and [np.minimum] propagate NaN. *)
Definition float_max (x y : float) : float :=
  if PrimFloat.is_nan x then x
  else if PrimFloat.is_nan y then y
  else if PrimFloat.ltb x y then y else x.

Definition float_min (x y : float) : float :=
  if PrimFloat.is_nan x then x
  else if PrimFloat.is_nan y then y
  else if PrimFloat.ltb y x then y else x.

(** [np.nan_to_num]: NaN becomes 0, an infinity the largest finite number
    of its sign. *)
Definition float_nan_to_num (x : float) : float :=
  if PrimFloat.is_nan x then 0%float
  else if PrimFloat.eqb x infinity then 0x1.fffffffffffffp+1023%float
  else if PrimFloat.eqb x neg_infinity then (- 0x1.fffffffffffffp+1023)%float
  else x.

(** IEEE binary64, the [float64] of numpy. *)
#[export] Instance Scalar_float : Scalar float := {|
  s0 := 0%float;
  s1 := 1%float;
  shalf := 0.5%float;
  sadd := PrimFloat.add;
  ssub := PrimFloat.sub;
  smul := PrimFloat.mul;
  sdiv := PrimFloat.div;
  sopp := PrimFloat.opp;
  ssqrt := PrimFloat.sqrt;
  sabs := PrimFloat.abs;
  sltb := PrimFloat.ltb;
  sisnan := PrimFloat.is_nan;
  smax := float_max;
  smin := float_min;
  of_nat := float_of_nat;
  finfo_eps := 0x1p-52%float;
  nan_to_num := float_nan_to_num
|}.

(** ** Exceptions and results *)

(** The exception classes the code raises or catches.  [NotImplementedError]
    is a subclass of [RuntimeError]; every class is a subclass of
    [Exception]. *)
Inductive exn : Type :=
| LinAlgError
| RuntimeError
| NotImplementedError
| ValueError
| KeyError
| IndexError
| OtherException (name : string).

(** [isinstance(e, RuntimeError)], the test of [except RuntimeError]. *)
Definition is_RuntimeError (e : exn) : bool :=
  match e with
  | RuntimeError | NotImplementedError => true
  | _ => false
  end.

(** The outcome of a statement on a store [S]: it completes, or it raises;
    either way the store is the one its in-place updates left behind. *)
Inductive result (S : Type) : Type :=
| Ok (s : S)
| Raise (e : exn) (s : S).

Arguments Ok {S} s.
Arguments Raise {S} e s.

Definition store_of {S : Type} (r : result S) : S :=
  match r with
  | Ok s => s
  | Raise _ s => s
  end.

Definition raised {S : Type} (r : result S) : option exn :=
  match r with
  | Ok _ => None
  | Raise e _ => Some e
  end.

(** What a library call does: it returns a value or raises. *)
Inductive call (X : Type) : Type :=
| Returns (x : X)
| Raises (e : exn).

Arguments Returns {X} x.
Arguments Raises {X} e.

(** ** Arrays

    A vector is a list, a matrix a list of rows, a 3-d array a list of
    matrices.  Operations on two arrays pair the elements up to the shorter
    length; numpy raises [ValueError] on shapes that do not match, so the
    model agrees with numpy on arrays of matching shapes only.  Likewise, where
    a definition does not return the [IndexError] itself, an indexed read
    out of range gives 0 and an indexed write out of range does nothing:
    there the model agrees with numpy on indices in range.  A matrix with no row does not record its
    number of columns. *)

Definition vec (A : Type) : Type := list A.
Definition matrix (A : Type) : Type := list (list A).
Definition array3 (A : Type) : Type := list (list (list A)).

Arguments vec A : clear implicits.
Arguments matrix A : clear implicits.
Arguments array3 A : clear implicits.

Section Arrays.
Context {A : Type} `{Scalar A}.

Local Open Scope scalar_scope.

#[local] Abbreviation vec := (vec A).
#[local] Abbreviation matrix := (matrix A).
#[local] Abbreviation array3 := (array3 A).

Fixpoint map2 {X Y Z : Type} (f : X -> Y -> Z) (u : list X) (v : list Y)
  : list Z :=
  match u, v with
  | x :: u', y :: v' => f x y :: map2 f u' v'
  | _, _ => []
  end.

Definition zeros (n : nat) : vec := repeat s0 n.
Definition zeros2 (t n : nat) : matrix := repeat (zeros n) t.

Definition vadd (u v : vec) : vec := map2 sadd u v.
Definition vsub (u v : vec) : vec := map2 ssub u v.
Definition vmul (u v : vec) : vec := map2 smul u v.
Definition vdiv (u v : vec) : vec := map2 sdiv u v.
Definition vscale (c : A) (v : vec) : vec := map (smul c) v.
Definition vopp (v : vec) : vec := map sopp v.

(** [np.sum] of a vector. *)
Definition vsum (v : vec) : A := fold_right sadd s0 v.

(** [np.dot] / [np.inner] of two vectors. *)
Definition dot (u v : vec) : A := vsum (vmul u v).

Definition madd (M N : matrix) : matrix := map2 vadd M N.
Definition msub (M N : matrix) : matrix := map2 vsub M N.
Definition mscale (c : A) (M : matrix) : matrix := map (vscale c) M.
Definition msquare (M : matrix) : matrix := map (fun r => vmul r r) M.

Definition nrows (M : matrix) : nat := length M.
Definition ncols (M : matrix) : nat :=
  match M with
  | [] => 0
  | r :: _ => length r
  end.

(** [M @ v] for a matrix and a vector. *)
Definition matvec (M : matrix) (v : vec) : vec := map (fun r => dot r v) M.

(** The sum over axis 0 of rows of length [n]. *)
Definition colsum (n : nat) (M : matrix) : vec := fold_right vadd (zeros n) M.

(** The combination of the rows of [M], of length [n], with the
    coefficients [v]. *)
Definition lin (n : nat) (v : vec) (M : matrix) : vec :=
  colsum n (map2 vscale v M).

(** [v @ M] for a vector and a matrix. *)
Definition vecmat (v : vec) (M : matrix) : vec := lin (ncols M) v M.

(** [M @ N] for two matrices. *)
Definition matmul (M N : matrix) : matrix := map (fun r => vecmat r N) M.

(** [M.T] for a matrix of [n] columns. *)
Fixpoint transpose_n (n : nat) (M : matrix) : matrix :=
  match M with
  | [] => repeat [] n
  | r :: M' => map2 cons r (transpose_n n M')
  end.

Definition transpose (M : matrix) : matrix := transpose_n (ncols M) M.

(** [M[:, j]]. *)
Definition col (j : nat) (M : matrix) : vec := map (fun r => nth j r s0) M.

(** [v[j] = x], nothing out of range. *)
Fixpoint set_nth {X : Type} (j : nat) (x : X) (v : list X) : list X :=
  match v, j with
  | [], _ => []
  | _ :: v', O => x :: v'
  | y :: v', S j' => y :: set_nth j' x v'
  end.

(** [M[:, j] = c]. *)
Definition set_col (j : nat) (c : vec) (M : matrix) : matrix :=
  map2 (fun r x => set_nth j x r) M c.

(** [M[i, :]] and [M[i, :] = r]. *)
Definition row (i : nat) (M : matrix) : vec := nth i M [].
Definition set_row (i : nat) (r : vec) (M : matrix) : matrix := set_nth i r M.

(** [np.identity n]. *)
Definition unit_vec (n i : nat) : vec :=
  map (fun j => if Nat.eqb i j then s1 else s0) (seq 0 n).
Definition identity (n : nat) : matrix := map (unit_vec n) (seq 0 n).

(** [np.diag v] for a vector [v]. *)
Definition diag (v : vec) : matrix :=
  map2 (fun i x => set_nth i x (zeros (length v))) (seq 0 (length v)) v.

(** [M.diagonal()]. *)
Definition diagonal (M : matrix) : vec :=
  map2 (fun i r => nth i r s0) (seq 0 (length M)) M.

(** [M[np.diag_indices_from(M)] += d]. *)
Definition add_diag (d : vec) (M : matrix) : matrix :=
  map2 (fun i rd => set_nth i (nth i (fst rd) s0 + snd rd) (fst rd))
       (seq 0 (length M)) (combine M d).

(** [w[:, [l]] * G]: row [t] of [G] times [w[t]]. *)
Definition rowscale (w : vec) (G : matrix) : matrix := map2 vscale w G.

(** [np.trace]. *)
Definition trace (M : matrix) : A := vsum (diagonal M).

(** [np.sum] of a matrix. *)
Definition msum (M : matrix) : A := vsum (map vsum M).

(** [np.einsum("ijk, jk -> ik", x, b)]. *)
Definition einsum_ijk_jk (x : array3) (b : matrix) : matrix :=
  map (fun xi => colsum (ncols b) (map2 vmul xi b)) x.

(** [x[..., n]]. *)
Definition slice_last (n : nat) (x : array3) : matrix := map (col n) x.

(** [scipy.linalg.norm] / [np.linalg.norm] with the default order: the
    2-norm of a vector, the Frobenius norm of a matrix. *)
Definition vnorm (v : vec) : A := ssqrt (vsum (vmul v v)).
Definition norm (M : matrix) : A := ssqrt (msum (msquare M)).

(** [np.linalg.norm(v, ord=np.inf)]. *)
Definition norm_inf (v : vec) : A := fold_right (fun x m => smax (sabs x) m) s0 v.

(** [mean], [var] and [std] over axis 0, with [ddof=0]. *)
Definition mean0 (M : matrix) : vec :=
  map (fun s => s / of_nat (length M)) (colsum (ncols M) M).

Definition var0 (M : matrix) : vec :=
  let m := mean0 M in
  mean0 (map (fun r => let d := vsub r m in vmul d d) M).

Definition std0 (M : matrix) : vec := map ssqrt (var0 M).

End Arrays.

(** ** Library calls *)

(** The order of a vector norm, the [ord] argument of [norm]. *)
Inductive norm_order : Type :=
| OrdInf
| OrdNat (p : nat)
| OrdName (s : string).

Class Extern (A : Type) : Type := {
  (* np.exp *)
  exp_ : A -> A;
  (* vlgp.math.trunc_exp *)
  trunc_exp : A -> A;
  (* the content of an entry of np.empty_like(...) that was never written *)
  np_empty : A;
  (* np.linalg.solve(M, v) *)
  np_solve : matrix A -> vec A -> call (vec A);
  (* scipy.linalg.solve(M, v, assume_a='pos'), v a vector *)
  solve : matrix A -> vec A -> call (vec A);
  (* scipy.linalg.solve(M, N, assume_a='pos'), N a matrix *)
  solve_m : matrix A -> matrix A -> call (matrix A);
  (* np.linalg.slogdet(M)[1] *)
  slogdet : matrix A -> A;
  (* scipy.linalg.svd(M, full_matrices=False) *)
  svd : matrix A -> call (matrix A * vec A * matrix A);
  (* scipy.linalg.norm(M, ord=o, axis=1, keepdims=True), as a vector *)
  row_norms : norm_order -> matrix A -> call (vec A)
}.

(** * [src/vb.py] *)

Module VB.
Section Variational.
Context {A : Type} `{Scalar A} `{Extern A}.
Local Open Scope scalar_scope.

#[local] Abbreviation vec := (vec A).
#[local] Abbreviation matrix := (matrix A).
#[local] Abbreviation array3 := (array3 A).

(** The arguments of [variational] that the loop only reads: the spike
    trains [y] (T x N), their history [Y = history(y, p, intercept)], the
    prior mean [mu] (T x L), the inverse prior covariances [omega]
    (L x T x T) and [anorm]. *)
Record data : Type := {
  y : matrix;
  Y : matrix;
  mu : matrix;
  omega : array3;
  anorm : A;
  constrain_a : string;
  constrain_m : string
}.

(** The variables the loop updates. *)
Record state : Type := {
  b : matrix;            (* (1 + p*N) x N *)
  a : matrix;            (* L x N *)
  m : matrix;            (* T x L *)
  V : array3;            (* L x T x T *)
  rate : matrix;         (* T x N *)
  rb : vec;
  ra : vec;
  rm : vec;
  lam_a : vec;
  lam_m : vec;
  last_b : matrix;
  last_a : matrix;
  last_m : matrix;
  last_rate : matrix;
  lam_last_a : vec;
  lam_last_m : vec
}.

Definition dec : A := shalf.                       (* 0.5 *)
Definition inc : A := of_nat 3 / of_nat 2.         (* 1.5 *)
Definition thld : A := of_nat 3 / of_nat 4.        (* 0.75 *)
Definition eps : A := of_nat 2 * finfo_eps.

(** [V[:, t, t]]. *)
Definition V_tt (t : nat) (V : array3) : vec :=
  map (fun Vl => nth t (nth t Vl []) s0) V.

Definition saferate (t n : nat) (d : data) (m : matrix) (V : array3)
  (b a : matrix) : A :=
  let an := col n a in
  let lograte :=
    dot (row t (Y d)) (col n b) + dot (row t m) an
    + shalf * vsum (vmul (vmul an an) (V_tt t V)) in
  let rate := nan_to_num (exp_ lograte) in
  if s0 <? rate then rate else finfo_eps.

(** [rate[t, n] = x]. *)
Definition set_entry (t n : nat) (x : A) (M : matrix) : matrix :=
  set_nth t (set_nth n x (nth t M [])) M.

(** The closure [updaterate(t, n)]: [rate[t, n]] is recomputed for every
    pair of [itertools.product(t, n)], from the current [m], [V], [b], [a]. *)
Definition updaterate (d : data) (ts ns : list nat) (st : state) : matrix :=
  fold_left (fun r tn =>
               set_entry (fst tn) (snd tn)
                 (saferate (fst tn) (snd tn) d (m st) (V st) (b st) (a st)) r)
            (list_prod ts ns) (rate st).

Definition lowerbound (d : data) (b a : matrix) (m : matrix) (V : array3)
  (rate : matrix) : A :=
  let lin := madd (matmul (Y d) b) (matmul m a) in
  let lbound := msum (msub (map2 vmul (y d) lin) rate) in
  fold_left
    (fun lb l =>
       let dm := vsub (col l m) (col l (mu d)) in
       let om := nth l (omega d) [] in
       let Vl := nth l V [] in
       lb + ((- shalf) * dot dm (matvec om dm)
             + (- shalf) * trace (matmul om Vl)
             + shalf * slogdet Vl))
    (seq 0 (ncols (mu d))) lbound.

Definition lb_of (d : data) (st : state) : A :=
  lowerbound d (b st) (a st) (m st) (V st) (rate st).

(** What one pass of a [for] body does to the loop. *)
Inductive flow : Type :=
| Next (st : state)              (* the body ran to its end, or hit [continue] *)
| Break (st : state)             (* the body hit [break] *)
| Abort (e : exn) (st : state).  (* an exception left the body *)

Definition flow_state (f : flow) : state :=
  match f with
  | Next st => st
  | Break st => st
  | Abort _ st => st
  end.

Fixpoint for_loop (body : nat -> state -> flow) (idx : list nat) (st : state)
  : result state :=
  match idx with
  | [] => Ok st
  | i :: idx' =>
      match body i st with
      | Next st' => for_loop body idx' st'
      | Break st' => Ok st'
      | Abort e st' => Raise e st'
      end
  end.

Definition predict_of (grad : vec) (hess : matrix) (delta : vec) : A :=
  dot grad delta + shalf * dot delta (matvec hess delta).

Definition with_b (st : state) (x : matrix) : state :=
  {| b := x; a := a st; m := m st; V := V st; rate := rate st;
     rb := rb st; ra := ra st; rm := rm st;
     lam_a := lam_a st; lam_m := lam_m st;
     last_b := last_b st; last_a := last_a st; last_m := last_m st;
     last_rate := last_rate st;
     lam_last_a := lam_last_a st; lam_last_m := lam_last_m st |}.

Definition with_a (st : state) (x : matrix) : state :=
  {| b := b st; a := x; m := m st; V := V st; rate := rate st;
     rb := rb st; ra := ra st; rm := rm st;
     lam_a := lam_a st; lam_m := lam_m st;
     last_b := last_b st; last_a := last_a st; last_m := last_m st;
     last_rate := last_rate st;
     lam_last_a := lam_last_a st; lam_last_m := lam_last_m st |}.

Definition with_m (st : state) (x : matrix) : state :=
  {| b := b st; a := a st; m := x; V := V st; rate := rate st;
     rb := rb st; ra := ra st; rm := rm st;
     lam_a := lam_a st; lam_m := lam_m st;
     last_b := last_b st; last_a := last_a st; last_m := last_m st;
     last_rate := last_rate st;
     lam_last_a := lam_last_a st; lam_last_m := lam_last_m st |}.

Definition with_rate (st : state) (x : matrix) : state :=
  {| b := b st; a := a st; m := m st; V := V st; rate := x;
     rb := rb st; ra := ra st; rm := rm st;
     lam_a := lam_a st; lam_m := lam_m st;
     last_b := last_b st; last_a := last_a st; last_m := last_m st;
     last_rate := last_rate st;
     lam_last_a := lam_last_a st; lam_last_m := lam_last_m st |}.

Definition with_rb (st : state) (x : vec) : state :=
  {| b := b st; a := a st; m := m st; V := V st; rate := rate st;
     rb := x; ra := ra st; rm := rm st;
     lam_a := lam_a st; lam_m := lam_m st;
     last_b := last_b st; last_a := last_a st; last_m := last_m st;
     last_rate := last_rate st;
     lam_last_a := lam_last_a st; lam_last_m := lam_last_m st |}.

Definition with_ra (st : state) (x : vec) : state :=
  {| b := b st; a := a st; m := m st; V := V st; rate := rate st;
     rb := rb st; ra := x; rm := rm st;
     lam_a := lam_a st; lam_m := lam_m st;
     last_b := last_b st; last_a := last_a st; last_m := last_m st;
     last_rate := last_rate st;
     lam_last_a := lam_last_a st; lam_last_m := lam_last_m st |}.

Definition with_rm (st : state) (x : vec) : state :=
  {| b := b st; a := a st; m := m st; V := V st; rate := rate st;
     rb := rb st; ra := ra st; rm := x;
     lam_a := lam_a st; lam_m := lam_m st;
     last_b := last_b st; last_a := last_a st; last_m := last_m st;
     last_rate := last_rate st;
     lam_last_a := lam_last_a st; lam_last_m := lam_last_m st |}.

Definition with_lam_a (st : state) (x : vec) : state :=
  {| b := b st; a := a st; m := m st; V := V st; rate := rate st;
     rb := rb st; ra := ra st; rm := rm st;
     lam_a := x; lam_m := lam_m st;
     last_b := last_b st; last_a := last_a st; last_m := last_m st;
     last_rate := last_rate st;
     lam_last_a := lam_last_a st; lam_last_m := lam_last_m st |}.

Definition with_lam_m (st : state) (x : vec) : state :=
  {| b := b st; a := a st; m := m st; V := V st; rate := rate st;
     rb := rb st; ra := ra st; rm := rm st;
     lam_a := lam_a st; lam_m := x;
     last_b := last_b st; last_a := last_a st; last_m := last_m st;
     last_rate := last_rate st;
     lam_last_a := lam_last_a st; lam_last_m := lam_last_m st |}.

(** The snapshots taken before a step: [last_b], [last_a], [last_m],
    [last_rate], [lam_last_a], [lam_last_m]. *)
Definition with_last (st : state) (lb la lm lr : matrix) (lla llm : vec)
  : state :=
  {| b := b st; a := a st; m := m st; V := V st; rate := rate st;
     rb := rb st; ra := ra st; rm := rm st;
     lam_a := lam_a st; lam_m := lam_m st;
     last_b := lb; last_a := la; last_m := lm; last_rate := lr;
     lam_last_a := lla; lam_last_m := llm |}.

(** *** The [b] block, for channel [n] (the body of [for n in range(N)]) *)

Definition grad_b (d : data) (st : state) (n : nat) : vec :=
  matvec (transpose (Y d)) (vsub (col n (y d)) (col n (rate st))).

Definition hess_b (d : data) (st : state) (n : nat) : matrix :=
  matmul (transpose (Y d))
    (transpose (map (fun r => vmul r (vopp (col n (rate st))))
                    (transpose (Y d)))).

(** The state after the snapshot, the step [delta_b] and [updaterate]. *)
Definition b_step (d : data) (n : nat) (delta_b : vec) (st : state) : state :=
  let st1 :=
    with_last st (set_col n (col n (b st)) (last_b st)) (last_a st)
      (last_m st) (set_col n (col n (rate st)) (last_rate st))
      (lam_last_a st) (lam_last_m st) in
  let st2 := with_b st1 (set_col n (vadd (col n (b st1)) delta_b) (b st1)) in
  with_rate st2 (updaterate d (seq 0 (nrows (y d))) [n] st2).

Definition b_block (d : data) (lbound_prev : A) (n : nat) (st : state)
  : flow :=
  let g := grad_b d st n in
  let h := hess_b d st n in
  if norm_inf g <? eps then Break st
  else
    match np_solve h g with
    | Raises LinAlgError => Next st
    | Raises e => Abort e st
    | Returns x =>
        let delta_b := vscale (- nth n (rb st) s0) x in
        let predict := predict_of g h delta_b in
        let st3 := b_step d n delta_b st in
        let lb := lb_of d st3 in
        if sisnan lb || (lb <? lbound_prev) then
          let st4 :=
            with_rb st3 (set_nth n (dec * nth n (rb st3) s0 + eps) (rb st3)) in
          let st5 := with_b st4 (set_col n (col n (last_b st4)) (b st4)) in
          Next (with_rate st5 (set_col n (col n (last_rate st5)) (rate st5)))
        else if thld * predict <? lb - lbound_prev then
          Next (with_rb st3 (set_nth n (nth n (rb st3) s0 * inc) (rb st3)))
        else Next st3
    end.

(** *** The [a] block, for latent dimension [l] *)

Definition grad_a (d : data) (st : state) (l : nat) : vec :=
  let Vd := diagonal (nth l (V st) []) in
  vsub (matvec (transpose (msub (y d) (rate st))) (col l (m st)))
       (vmul (matvec (transpose (rate st)) Vd) (row l (a st))).

Definition hess_a (d : data) (st : state) (l : nat) : matrix :=
  let Vd := diagonal (nth l (V st) []) in
  let ml := col l (m st) in
  let al := row l (a st) in
  let rT := transpose (rate st) in
  map vopp
    (diag (vadd (vadd (vadd (matvec rT (vmul ml ml))
                            (vmul (vscale (of_nat 2) (matvec rT (vmul ml Vd))) al))
                      (vmul (matvec rT (vmul Vd Vd)) (vmul al al)))
                (matvec rT Vd))).

Definition grad_a_lag (d : data) (st : state) (l : nat) : vec :=
  let al := row l (a st) in
  vadd (grad_a d st l) (vscale (of_nat 2 * nth l (lam_a st) s0) al)
  ++ [dot al al - anorm d * anorm d].

Definition hess_a_lag (d : data) (st : state) (l : nat) : matrix :=
  let al := row l (a st) in
  let N := ncols (y d) in
  let two_a := vscale (of_nat 2) al in
  map2 (fun r x => r ++ [x])
       (madd (hess_a d st l)
             (mscale (of_nat 2 * nth l (lam_a st) s0) (identity N)))
       two_a
  ++ [two_a ++ [s0]].

Definition a_lag_step (d : data) (l : nat) (delta : vec) (st : state)
  : state :=
  let N := ncols (y d) in
  let st1 :=
    with_last st (last_b st) (set_row l (row l (a st)) (last_a st))
      (last_m st) (rate st)
      (set_nth l (nth l (lam_a st) s0) (lam_last_a st)) (lam_last_m st) in
  let st2 :=
    with_a st1 (set_row l (vadd (row l (a st1)) (firstn N delta)) (a st1)) in
  let st2' :=
    with_lam_a st2
      (set_nth l (nth l (lam_a st2) s0 + nth N delta s0) (lam_a st2)) in
  with_rate st2' (updaterate d (seq 0 (nrows (y d))) (seq 0 N) st2').

Definition a_block_lag (d : data) (lbound_prev : A) (l : nat) (st : state)
  : flow :=
  let g := grad_a_lag d st l in
  let h := hess_a_lag d st l in
  if norm_inf g <? eps then Break st
  else
    match np_solve h g with
    | Raises LinAlgError => Next st
    | Raises e => Abort e st
    | Returns x =>
        let delta := vscale (- nth l (ra st) s0) x in
        let predict := predict_of g h delta in
        let st3 := a_lag_step d l delta st in
        let lb := lb_of d st3 in
        if sisnan lb || (lb - lbound_prev <? s0) then
          let st4 :=
            with_ra st3 (set_nth l (nth l (ra st3) s0 * dec + eps) (ra st3)) in
          let st5 := with_a st4 (set_row l (row l (last_a st4)) (a st4)) in
          let st6 := with_rate st5 (last_rate st5) in
          Next (with_lam_a st6
                  (set_nth l (nth l (lam_last_a st6) s0) (lam_a st6)))
        else if thld * predict <? lb - lbound_prev then
          Next (with_ra st3 (set_nth l (nth l (ra st3) s0 * inc) (ra st3)))
        else Next st3
    end.

Definition a_free_step (d : data) (l : nat) (delta : vec) (st : state)
  : state :=
  let N := ncols (y d) in
  let st1 :=
    with_last st (last_b st) (set_row l (row l (a st)) (last_a st))
      (last_m st) (rate st) (lam_last_a st) (lam_last_m st) in
  let st2 := with_a st1 (set_row l (vadd (row l (a st1)) delta) (a st1)) in
  with_rate st2 (updaterate d (seq 0 (nrows (y d))) (seq 0 N) st2).

Definition a_block_free (d : data) (lbound_prev : A) (l : nat) (st : state)
  : flow :=
  let g := grad_a d st l in
  let h := hess_a d st l in
  if norm_inf g <? eps then Break st
  else
    match np_solve h g with
    | Raises LinAlgError => Next st
    | Raises e => Abort e st
    | Returns x =>
        let delta := vscale (- nth l (ra st) s0) x in
        let predict := predict_of g h delta in
        let st3 := a_free_step d l delta st in
        let lb := lb_of d st3 in
        let st7 :=
          if sisnan lb || (lb - lbound_prev <? s0) then
            let st4 :=
              with_ra st3 (set_nth l (nth l (ra st3) s0 * dec + eps) (ra st3)) in
            let st5 := with_a st4 (set_row l (row l (last_a st4)) (a st4)) in
            with_rate st5 (last_rate st5)
          else if thld * predict <? lb - lbound_prev then
            with_ra st3 (set_nth l (nth l (ra st3) s0 * inc) (ra st3))
          else st3 in
        let al := row l (a st7) in
        if s0 <? vnorm al then
          Next (with_a st7
                  (set_row l (map (fun x => x / (vnorm al / anorm d)) al)
                     (a st7)))
        else Next st7
    end.

Definition a_block (d : data) (lbound_prev : A) (l : nat) (st : state)
  : flow :=
  if String.eqb (constrain_a d) "lag" then a_block_lag d lbound_prev l st
  else a_block_free d lbound_prev l st.

(** *** The [m] block, for latent dimension [l] *)

Definition grad_m (d : data) (st : state) (l : nat) : vec :=
  vsub (matvec (msub (y d) (rate st)) (row l (a st)))
       (matvec (nth l (omega d) [])
               (vsub (col l (m st)) (col l (mu d)))).

Definition hess_m (d : data) (st : state) (l : nat) : matrix :=
  let al := row l (a st) in
  msub (diag (matvec (map vopp (rate st)) (vmul al al)))
       (nth l (omega d) []).

Definition grad_m_lag (d : data) (st : state) (l : nat) : vec :=
  map (fun x => x + nth l (lam_m st) s0) (grad_m d st l)
  ++ [vsum (col l (m st))].

Definition hess_m_lag (d : data) (st : state) (l : nat) : matrix :=
  let T := nrows (y d) in
  map (fun r => r ++ [s1]) (hess_m d st l)
  ++ [repeat s1 T ++ [s0]].

Definition m_lag_step (d : data) (l : nat) (delta : vec) (st : state)
  : state :=
  let T := nrows (y d) in
  let N := ncols (y d) in
  let st1 :=
    with_last st (last_b st) (last_a st)
      (set_col l (col l (m st)) (last_m st)) (rate st)
      (lam_last_a st) (set_nth l (nth l (lam_m st) s0) (lam_last_m st)) in
  let st2 :=
    with_m st1 (set_col l (vadd (col l (m st1)) (firstn T delta)) (m st1)) in
  let st2' :=
    with_lam_m st2
      (set_nth l (nth l (lam_m st2) s0 + nth T delta s0) (lam_m st2)) in
  with_rate st2' (updaterate d (seq 0 T) (seq 0 N) st2').

Definition m_block_lag (d : data) (lbound_prev : A) (l : nat) (st : state)
  : flow :=
  let g := grad_m_lag d st l in
  let h := hess_m_lag d st l in
  if norm_inf g <? eps then Break st
  else
    match np_solve h g with
    | Raises LinAlgError => Next st
    | Raises e => Abort e st
    | Returns x =>
        let delta := vscale (- nth l (rm st) s0) x in
        let predict := predict_of g h delta in
        let st3 := m_lag_step d l delta st in
        let lb := lb_of d st3 in
        if sisnan lb || (lb <? lbound_prev) then
          let st4 :=
            with_rm st3 (set_nth l (nth l (rm st3) s0 * dec + eps) (rm st3)) in
          let st5 := with_m st4 (set_col l (col l (last_m st4)) (m st4)) in
          let st6 := with_rate st5 (last_rate st5) in
          Next (with_lam_m st6
                  (set_nth l (nth l (lam_last_m st6) s0) (lam_m st6)))
        else if thld * predict <? lb - lbound_prev then
          Next (with_rm st3 (set_nth l (nth l (rm st3) s0 * inc) (rm st3)))
        else Next st3
    end.

Definition m_free_step (d : data) (l : nat) (delta : vec) (st : state)
  : state :=
  let T := nrows (y d) in
  let N := ncols (y d) in
  let st1 :=
    with_last st (last_b st) (last_a st)
      (set_col l (col l (m st)) (last_m st)) (rate st)
      (lam_last_a st) (lam_last_m st) in
  let st2 := with_m st1 (set_col l (vadd (col l (m st1)) delta) (m st1)) in
  with_rate st2 (updaterate d (seq 0 T) (seq 0 N) st2).

Definition m_block_free (d : data) (lbound_prev : A) (l : nat) (st : state)
  : flow :=
  let g := grad_m d st l in
  let h := hess_m d st l in
  if norm_inf g <? eps then Break st
  else
    match np_solve h g with
    | Raises LinAlgError => Next st
    | Raises e => Abort e st
    | Returns x =>
        let delta := vscale (- nth l (rm st) s0) x in
        let predict := predict_of g h delta in
        let st3 := m_free_step d l delta st in
        let lb := lb_of d st3 in
        let st7 :=
          if sisnan lb || (lb <? lbound_prev) then
            let st4 :=
              with_rm st3 (set_nth l (nth l (rm st3) s0 * dec + eps) (rm st3)) in
            let st5 := with_m st4 (set_col l (col l (last_m st4)) (m st4)) in
            with_rate st5 (last_rate st5)
          else if thld * predict <? lb - lbound_prev then
            with_rm st3 (set_nth l (nth l (rm st3) s0 * inc) (rm st3))
          else st3 in
        let ml := col l (m st7) in
        let mean := vsum ml / of_nat (length ml) in
        Next (with_m st7 (set_col l (map (fun x => x - mean) ml) (m st7)))
    end.

Definition m_block (d : data) (lbound_prev : A) (l : nat) (st : state)
  : flow :=
  if String.eqb (constrain_m d) "lag" then m_block_lag d lbound_prev l st
  else m_block_free d lbound_prev l st.

(** *** The three parameter loops of one outer iteration *)

(** [for n in range(N)], [for l in range(L)] (twice), with [T, N = y.shape]
    and [_, L = mu.shape]. *)
Definition b_loop (d : data) (lbound_prev : A) (st : state) : result state :=
  for_loop (b_block d lbound_prev) (seq 0 (ncols (y d))) st.

Definition a_loop (d : data) (lbound_prev : A) (st : state) : result state :=
  for_loop (a_block d lbound_prev) (seq 0 (ncols (mu d))) st.

Definition m_loop (d : data) (lbound_prev : A) (st : state) : result state :=
  for_loop (m_block d lbound_prev) (seq 0 (ncols (mu d))) st.

(** *** The posterior covariance (the block under [if not fixV]) *)

Definition with_V (st : state) (x : array3) : state :=
  {| b := b st; a := a st; m := m st; V := x; rate := rate st;
     rb := rb st; ra := ra st; rm := rm st;
     lam_a := lam_a st; lam_m := lam_m st;
     last_b := last_b st; last_a := last_a st; last_m := last_m st;
     last_rate := last_rate st;
     lam_last_a := lam_last_a st; lam_last_m := lam_last_m st |}.

(** [V[l, t, u]] and [V[l, t, u] = x]. *)
Definition entry3 (l t u : nat) (V : array3) : A :=
  nth u (nth t (nth l V []) []) s0.

Definition set_entry3 (l t u : nat) (x : A) (V : array3) : array3 :=
  set_nth l (set_entry t u x (nth l V [])) V.

(** [for _ in range(inneriter)]: the fixed point iterations for
    [V[l, t, t]], each followed by [updaterate([t], range(N))]. *)
Fixpoint V_fixed_point (d : data) (l t : nat) (k_ : A) (n : nat) (st : state)
  : state :=
  match n with
  | O => st
  | S n' =>
      let al := row l (a st) in
      let vtt :=
        s1 / (entry3 l t t (omega d) - k_
              + vsum (vmul (vmul (row t (rate st)) al) al)) in
      let st1 := with_V st (set_entry3 l t t vtt (V st)) in
      V_fixed_point d l t k_ n'
        (with_rate st1 (updaterate d [t] (seq 0 (ncols (y d))) st1))
  end.

(** The two assignments after the fixed point, on the matrix [Vl = V[l]]
    whose entry [(t, t)] went from [old] to [vtt]: the entries outside row
    and column [t] get [+ (vtt - old) * outer(...) / (old * old)], then row
    [t] and column [t] get [vtt * V[l, t, not_t] / old]. *)
Definition V_spread (t : nat) (vtt old : A) (Vl : matrix) : matrix :=
  let rt := row t Vl in
  map2 (fun i ri =>
          map2 (fun j e =>
                  if Nat.eqb i t then
                    if Nat.eqb j t then e else vtt * nth j rt s0 / old
                  else if Nat.eqb j t then vtt * nth i rt s0 / old
                  else e + (vtt - old) * (nth i rt s0 * nth j rt s0)
                           / (old * old))
               (seq 0 (length ri)) ri)
       (seq 0 (length Vl)) Vl.

(** The body of [for t in range(T)] under [for l in range(L)], on the state
    and [K]; the copy [last_V], which nothing reads, is left out. *)
Definition V_step (d : data) (inneriter : nat) (l t : nat)
  (sK : state * array3) : state * array3 :=
  let '(st, K) := sK in
  let st0 :=
    with_last st (last_b st) (last_a st) (last_m st)
      (set_row t (row t (rate st)) (last_rate st))
      (lam_last_a st) (lam_last_m st) in
  let k_ := entry3 l t t K - s1 / entry3 l t t (V st0) in
  let old_vtt := entry3 l t t (V st0) in
  let st1 := V_fixed_point d l t k_ inneriter st0 in
  let st2 :=
    with_V st1
      (set_nth l (V_spread t (entry3 l t t (V st1)) old_vtt (nth l (V st1) []))
         (V st1)) in
  (st2, set_entry3 l t t (k_ + s1 / entry3 l t t (V st2)) K).

Definition V_update (d : data) (inneriter : nat) (sK : state * array3)
  : state * array3 :=
  fold_left (fun acc lt => V_step d inneriter (fst lt) (snd lt) acc)
    (list_prod (seq 0 (ncols (mu d))) (seq 0 (nrows (y d)))) sK.

(** *** The outer loop *)

(** The arguments [fixa], [fixb], [fixm], [fixV] and [p], and the entries of
    [control] the loop reads. *)
Record flags : Type := {
  fixa : bool;
  fixb : bool;
  fixm : bool;
  fixV : bool;
  p : nat
}.

Record control : Type := {
  maxiter : nat;
  inneriter : nat;
  tol : A
}.

(** The variables of the [while] loop: the state of the blocks, [K], the
    copies [old_a], [old_b], [old_m], [old_V], the array [lbound] (of
    [maxiter] entries), [it] (1 before the first pass) and [convergent]. *)
Record outer : Type := {
  o_st : state;
  o_K : array3;
  old_a : matrix;
  old_b : matrix;
  old_m : matrix;
  old_V : array3;
  lbound : vec;
  it : nat;
  convergent : bool
}.

(** [np.max(np.abs(M - N))] for arrays with an entry. *)
Definition max_abs_diff (M N : matrix) : A := norm_inf (concat (msub M N)).

Definition max_abs_diff3 (M N : array3) : A :=
  norm_inf (concat (concat (map2 msub M N))).

(** One step of the builtin [max]: the item replaces the running maximum
    when it is greater. *)
Definition py_max (x y : A) : A := if x <? y then y else x.

Definition with_st (o : outer) (s : state) : outer :=
  {| o_st := s; o_K := o_K o; old_a := old_a o; old_b := old_b o;
     old_m := old_m o; old_V := old_V o; lbound := lbound o; it := it o;
     convergent := convergent o |}.

(** One pass of the [while] loop. *)
Definition outer_body (d : data) (f : flags) (c : control) (o : outer)
  : result outer :=
  let last := nth (it o - 1) (lbound o) s0 in
  match (if fixb f then Ok (o_st o) else b_loop d last (o_st o)) with
  | Raise e s => Raise e (with_st o s)
  | Ok s1 =>
  match (if fixa f then Ok s1 else a_loop d last s1) with
  | Raise e s => Raise e (with_st o s)
  | Ok s2 =>
  match (if fixm f then Ok s2 else m_loop d last s2) with
  | Raise e s => Raise e (with_st o s)
  | Ok s3 =>
      let '(s4, K4) :=
        if fixV f then (s3, o_K o)
        else V_update d (inneriter c) (s3, o_K o) in
      let lb := lb_of d s4 in
      let del_a := if fixa f then s0 else max_abs_diff (old_a o) (a s4) in
      let del_b :=
        if fixb f || Nat.eqb (p f) 0 then s0
        else max_abs_diff (old_b o) (b s4) in
      let del_m := if fixm f then s0 else max_abs_diff (old_m o) (m s4) in
      let del_V := if fixV f then s0 else max_abs_diff3 (old_V o) (V s4) in
      let delta := py_max (py_max (py_max del_a del_b) del_m) del_V in
      Ok {| o_st := s4; o_K := K4;
            old_a := a s4; old_b := b s4; old_m := m s4; old_V := V s4;
            lbound := set_nth (it o) lb (lbound o);
            it := S (it o);
            convergent := if delta <? tol c then true else convergent o |}
  end end end.

(** [while not convergent and it < maxiter], with [fuel] passes at most. *)
Fixpoint outer_loop (fuel : nat) (d : data) (f : flags) (c : control)
  (o : outer) : result outer :=
  if negb (convergent o) && Nat.ltb (it o) (maxiter c) then
    match fuel with
    | O => Ok o
    | S fuel' =>
        match outer_body d f c o with
        | Ok o' => outer_loop fuel' d f c o'
        | Raise e o' => Raise e o'
        end
    end
  else Ok o.

(** The loop of [variational], from the variables as the initialisation
    left them: it takes at most [maxiter - it] passes. *)
Definition variational_loop (d : data) (f : flags) (c : control) (o : outer)
  : result outer :=
  outer_loop (maxiter c - it o) d f c o.

(** What [variational] returns after the loop ([a0], [b0] and the elapsed
    time apart), and whether it warned ['not convergent']. *)
Record output : Type := {
  out_m : matrix;
  out_V : array3;
  out_a : matrix;
  out_b : matrix;
  out_lbound : vec;             (* lbound[:it] *)
  out_convergent : bool;
  out_warned : bool
}.

Definition finish (c : control) (o : outer) : output :=
  {| out_m := m (o_st o); out_V := V (o_st o); out_a := a (o_st o);
     out_b := b (o_st o);
     out_lbound := firstn (it o) (lbound o);
     out_convergent := convergent o;
     out_warned := Nat.eqb (it o) (maxiter c) |}.

End Variational.

Arguments data A : clear implicits.
Arguments state A : clear implicits.
Arguments flow A : clear implicits.
Arguments control A : clear implicits.
Arguments outer A : clear implicits.
Arguments output A : clear implicits.

End VB.

(** * [src/vlgp/core.py] *)

Module Core.

(** The observation family of a channel, an entry of [params["likelihood"]]. *)
Inductive family : Type :=
| poisson
| gaussian
| other_family (name : string).

(** A value of [config["constrain_latent"]] or [config["constrain_loading"]]:
    a falsy value ([None], [False], the empty string), a string, or a number
    used as the order of a norm. *)
Inductive constraint : Type :=
| CFalsy
| CStr (s : string)
| COrd (o : norm_order).

(** What [logger.exception] and [logger.error] record. *)
Inductive log_entry : Type :=
| LogException (where_ : string)
| LogError (msg : string).

Section Model.
Context {A : Type} `{Scalar A} `{Extern A}.
Local Open Scope scalar_scope.

#[local] Abbreviation vec := (vec A).
#[local] Abbreviation matrix := (matrix A).
#[local] Abbreviation array3 := (array3 A).

(** One trial, a dict: [y] (T x N), [x] (T x xdim x N) and [mu] (T x L) are
    there from the start; [w], [v] and [dmu] (T x L) are entries that may be
    missing. *)
Record Trial : Type := {
  y : matrix;
  x : array3;
  mu : matrix;
  w : option matrix;
  v : option matrix;
  dmu : option matrix
}.

(** The dict [params]; [cholesky] maps a trial length to the low-rank prior
    factors, one T x rank matrix per latent dimension. *)
Record Params : Type := {
  zdim : nat;
  ydim : nat;
  xdim : nat;
  rank : nat;
  likelihood : list family;
  a : matrix;
  b : matrix;
  noise : vec;
  da : matrix;
  db : matrix;
  cholesky : list (nat * list matrix)
}.

(** The dict [config], without [config["callbacks"]], which [vem] takes
    beside it (a callback is a function of the config). *)
Record Config : Type := {
  Eniter : Z;
  Mniter : Z;
  max_iter : Z;
  min_iter : Z;
  tol : A;
  method : string;
  use_hessian : bool;
  dmu_bound : A;
  da_bound : A;
  db_bound : A;
  eps : A;
  learning_rate : A;
  constrain_latent_mode : constraint;
  constrain_loading_mode : constraint;
  Hstep : bool;
  runtime_it : option nat      (* config["runtime"]["it"] *)
}.

(** Modelled from the spec: [clip] of the package's [util] module, which is
    not among the sources.  The spec has the step clipped element-wise to the
    configured bound; the callers drop the return value, so the clipping is
    in place, to the interval from [-bound] to [bound]. *)
Definition clip (v : vec) (bound : A) : vec :=
  map (fun e => smin (smax e (- bound)) bound) v.

(** [params["cholesky"][T]]. *)
Fixpoint lookup (T : nat) (c : list (nat * list matrix)) : option (list matrix) :=
  match c with
  | [] => None
  | (k, p) :: c' => if Nat.eqb k T then Some p else lookup T c'
  end.

(** [trunc_exp] of an array. *)
Definition trunc_exp_m (M : matrix) : matrix := map (map trunc_exp) M.

(** [mu @ a + xb] and [trunc_exp(eta + 0.5 * v @ (a ** 2))]. *)
Definition eta_of (mu a xb : matrix) : matrix := madd (matmul mu a) xb.

Definition rate_of (eta v a : matrix) : matrix :=
  trunc_exp_m (madd eta (mscale shalf (matmul v (msquare a)))).

(** One row of the working residuals: [y - r] on a Poisson channel,
    [(y - eta) / noise] on a Gaussian channel. *)
Definition residual_row (lik : list family) (noise yt etat rt : vec) : vec :=
  map (fun n =>
         match nth n lik (other_family "") with
         | poisson => nth n yt s0 - nth n rt s0
         | gaussian => (nth n yt s0 - nth n etat s0) / nth n noise s0
         | other_family _ => np_empty
         end)
      (seq 0 (length yt)).

Fixpoint map3 {X Y Z W : Type} (f : X -> Y -> Z -> W)
  (u : list X) (v : list Y) (t : list Z) : list W :=
  match u, v, t with
  | x :: u', y :: v', z :: t' => f x y z :: map3 f u' v' t'
  | _, _, _ => []
  end.

Definition residual_of (lik : list family) (noise : vec) (y eta r : matrix)
  : matrix :=
  map3 (residual_row lik noise) y eta r.

(** [U]: the rate on a Poisson channel, [1 / noise] on a Gaussian one. *)
Definition U_row (lik : list family) (noise rt : vec) : vec :=
  map (fun n =>
         match nth n lik (other_family "") with
         | poisson => nth n rt s0
         | gaussian => s1 / nth n noise s0
         | other_family _ => np_empty
         end)
      (seq 0 (length rt)).

Definition U_of (lik : list family) (noise : vec) (r : matrix) : matrix :=
  map (U_row lik noise) r.

(** [U @ (a.T ** 2)]. *)
Definition w_of (U a : matrix) : matrix := matmul U (msquare (transpose a)).

(** The [try] block of the mean update for one latent dimension: the step
    [delta_mu], or [None] when [solve] raises; [ra] is [residual @ a[l, :]],
    [wl] is [w[:, l]] and [mul] is [mu[:, l]]. *)
Definition u_of (G : matrix) (ra mul : vec) : vec :=
  vsub (matvec G (matvec (transpose G) ra)) mul.

Definition delta_mu_of (rank : nat) (bound : A) (G : matrix) (wl ra mul : vec)
  : option vec :=
  let wG := rowscale wl G in
  let GtWG := matmul (transpose G) wG in
  let u := u_of G ra mul in
  match solve (madd (identity rank) GtWG) (matvec (transpose wG) u) with
  | Returns M =>
      Some (clip (vadd (vsub u (matvec G (matvec (transpose wG) u)))
                       (matvec G (matvec GtWG M)))
                 bound)
  | Raises _ => None
  end.

(** The arrays [infer_single_trial] works on: [mu], [v] and [dmu] are the
    trial's own arrays, updated in place; [w] is a local name, rebound at
    the end of each iteration. *)
Record work : Type := {
  wk_mu : matrix;
  wk_w : matrix;
  wk_v : matrix;
  wk_dmu : matrix;
  wk_log : list log_entry
}.

(** The body of [for l in range(zdim)] in the mean update; [None] is the
    [IndexError] of [prior[l]]. *)
Definition mean_update (p : Params) (c : Config) (prior : list matrix)
  (residual : matrix) (l : nat) (k : work) : option work :=
  match nth_error prior l with
  | None => None
  | Some G =>
      let ra := matvec residual (row l (a p)) in
      let mul := col l (wk_mu k) in
      match delta_mu_of (rank p) (dmu_bound c) G (col l (wk_w k)) ra mul with
      | Some delta =>
          Some {| wk_mu := set_col l (vadd mul delta) (wk_mu k);
                  wk_w := wk_w k;
                  wk_v := wk_v k;
                  wk_dmu := set_col l delta (wk_dmu k);
                  wk_log := wk_log k |}
      | None =>
          Some {| wk_mu := set_col l (map (fun e => e + s0) mul) (wk_mu k);
                  wk_w := wk_w k;
                  wk_v := wk_v k;
                  wk_dmu := set_col l (map (fun _ => s0) (col l (wk_dmu k)))
                              (wk_dmu k);
                  wk_log := wk_log k ++ [LogException "infer_single_trial"] |}
      end
  end.

(** The [try] block of the variance update for one latent dimension. *)
Definition v_col_of (rank : nat) (G : matrix) (wl : vec) : call vec :=
  let GtWG := matmul (transpose G) (rowscale wl G) in
  match solve_m (madd (identity rank) GtWG) GtWG with
  | Returns M =>
      Returns (map vsum
                 (map2 vmul G
                    (madd (msub G (matmul G GtWG)) (matmul G (matmul GtWG M)))))
  | Raises e => Raises e
  end.

Definition var_update (p : Params) (prior : list matrix) (l : nat) (k : work)
  : option work :=
  match nth_error prior l with
  | None => None
  | Some G =>
      match v_col_of (rank p) G (col l (wk_w k)) with
      | Returns vl =>
          Some {| wk_mu := wk_mu k; wk_w := wk_w k;
                  wk_v := set_col l vl (wk_v k);
                  wk_dmu := wk_dmu k; wk_log := wk_log k |}
      | Raises _ =>
          Some {| wk_mu := wk_mu k; wk_w := wk_w k; wk_v := wk_v k;
                  wk_dmu := wk_dmu k;
                  wk_log := wk_log k ++ [LogException "infer_single_trial"] |}
      end
  end.

(** A [for l in ...] loop whose body may raise [IndexError]: the work arrays
    as the loop left them, and whether it raised. *)
Fixpoint for_dims (body : nat -> work -> option work) (ls : list nat)
  (k : work) : work * bool :=
  match ls with
  | [] => (k, false)
  | l :: ls' =>
      match body l k with
      | Some k' => for_dims body ls' k'
      | None => (k, true)
      end
  end.

(** One pass of [for i in range(max_iter)]. *)
Definition infer_iteration (p : Params) (c : Config) (prior : list matrix)
  (y xb : matrix) (k : work) : work * bool :=
  let eta := eta_of (wk_mu k) (a p) xb in
  let r := rate_of eta (wk_v k) (a p) in
  let residual := residual_of (likelihood p) (noise p) y eta r in
  let '(k1, failed) :=
    for_dims (mean_update p c prior residual) (seq 0 (zdim p)) k in
  if failed then (k1, true)
  else
    let eta' := eta_of (wk_mu k1) (a p) xb in
    let r' := rate_of eta' (wk_v k1) (a p) in
    let k2 :=
      {| wk_mu := wk_mu k1;
         wk_w := w_of (U_of (likelihood p) (noise p) r') (a p);
         wk_v := wk_v k1; wk_dmu := wk_dmu k1; wk_log := wk_log k1 |} in
    if String.eqb (method c) "VB"
    then for_dims (var_update p prior) (seq 0 (zdim p)) k2
    else (k2, false).

Fixpoint infer_loop (n : nat) (p : Params) (c : Config) (prior : list matrix)
  (y xb : matrix) (k : work) : work * bool :=
  match n with
  | O => (k, false)
  | S n' =>
      let '(k', failed) := infer_iteration p c prior y xb k in
      if failed then (k', true) else infer_loop n' p c prior y xb k'
  end.

Definition trial_log : Type := Trial * list log_entry.

(** [infer_single_trial(trial, params, config)]: the trial and the log it
    leaves. *)
Definition infer_single_trial (t : Trial) (p : Params) (c : Config)
  (lg : list log_entry) : result trial_log :=
  if (Eniter c <? 1)%Z then Ok (t, lg)
  else
    match w t, v t, dmu t with
    | Some w0, Some v0, Some dmu0 =>
        match lookup (length (y t)) (cholesky p) with
        | None => Raise KeyError (t, lg)
        | Some prior =>
            let xb := einsum_ijk_jk (x t) (b p) in
            let k0 := {| wk_mu := mu t; wk_w := w0; wk_v := v0;
                         wk_dmu := dmu0; wk_log := lg |} in
            let '(k, failed) :=
              infer_loop (Z.to_nat (Eniter c)) p c prior (y t) xb k0 in
            if failed then
              Raise IndexError
                ({| y := y t; x := x t; mu := wk_mu k; w := Some w0;
                    v := Some (wk_v k); dmu := Some (wk_dmu k) |}, wk_log k)
            else
              Ok ({| y := y t; x := x t; mu := wk_mu k; w := Some (wk_w k);
                     v := Some (wk_v k); dmu := Some (wk_dmu k) |}, wk_log k)
        end
    | _, _, _ => Raise KeyError (t, lg)
    end.

(** [estep]: the trials are inferred in order; an exception leaves the
    trials before it updated. *)
Fixpoint estep (ts : list Trial) (p : Params) (c : Config)
  (lg : list log_entry) : result (list Trial * list log_entry) :=
  match ts with
  | [] => Ok ([], lg)
  | t :: ts' =>
      match infer_single_trial t p c lg with
      | Ok (t', lg') =>
          match estep ts' p c lg' with
          | Ok (ts'', lg'') => Ok (t' :: ts'', lg'')
          | Raise e (ts'', lg'') => Raise e (t' :: ts'', lg'')
          end
      | Raise e (t', lg') => Raise e (t' :: ts', lg')
      end
  end.

(** [np.concatenate([trial[key] for trial in trials], axis=0)]; [None] is
    the [ValueError] of an empty list. *)
Definition concatenate {X : Type} (parts : list (list X)) : option (list X) :=
  match parts with
  | [] => None
  | _ => Some (concat parts)
  end.

(** [[trial["v"] for trial in trials]]; [None] is the [KeyError] of a trial
    without the entry. *)
Fixpoint entries {X : Type} (get : Trial -> option X) (ts : list Trial)
  : option (list X) :=
  match ts with
  | [] => Some []
  | t :: ts' =>
      match get t, entries get ts' with
      | Some e, Some es => Some (e :: es)
      | _, _ => None
      end
  end.

(** *** The M step *)

(** The arrays [mstep] updates: [a], [b], [da] and [db] are the arrays of
    [params], updated in place. *)
Record mwork : Type := {
  mw_a : matrix;
  mw_b : matrix;
  mw_da : matrix;
  mw_db : matrix;
  mw_log : list log_entry
}.

(** [np.diag(np.full_like(grad, fill_value=eps))]. *)
Definition jitter_of (eps : A) (grad : vec) : matrix :=
  diag (map (fun _ => eps) grad).

(** [mu + v * a[:, n]], [grad_a] and [nhess_a] of a Poisson channel. *)
Definition mu_plus_v_times_a (mu v : matrix) (an : vec) : matrix :=
  madd mu (map (fun vt => vmul vt an) v).

Definition grad_a_of (mu v : matrix) (yn rn an : vec) : vec :=
  vsub (matvec (transpose mu) yn)
       (matvec (transpose (mu_plus_v_times_a mu v an)) rn).

Definition nhess_a_of (mu v : matrix) (rn an : vec) : matrix :=
  let mpv := mu_plus_v_times_a mu v an in
  add_diag (vecmat rn v) (matmul (transpose mpv) (rowscale rn mpv)).

(** The loading update of a Poisson channel [n]: [delta_a] after [clip], and
    whether the solve raised. *)
Definition delta_a_of (c : Config) (mu v : matrix) (yn rn an : vec)
  : vec * bool :=
  let grad_a := grad_a_of mu v yn rn an in
  let '(delta, failed) :=
    if use_hessian c then
      match solve (madd (nhess_a_of mu v rn an) (jitter_of (eps c) grad_a))
                  grad_a with
      | Returns d => (d, false)
      | Raises _ => (vscale (learning_rate c) grad_a, true)
      end
    else (vscale (learning_rate c) grad_a, false) in
  (clip delta (da_bound c), failed).

(** [grad_b] and [nhess_b] of a Poisson channel; [xn] is [x[..., n]]. *)
Definition grad_b_of (xn : matrix) (yn rn : vec) : vec :=
  matvec (transpose xn) (vsub yn rn).

Definition nhess_b_of (xn : matrix) (rn : vec) : matrix :=
  matmul (transpose xn) (rowscale rn xn).

(** The regression update of a Poisson channel [n]. *)
Definition delta_b_of (c : Config) (xn : matrix) (yn rn : vec) : vec * bool :=
  let grad_b := grad_b_of xn yn rn in
  let '(delta, failed) :=
    if use_hessian c then
      match solve (madd (nhess_b_of xn rn) (jitter_of (eps c) grad_b))
                  grad_b with
      | Returns d => (d, false)
      | Raises _ => (vscale (learning_rate c) grad_b, true)
      end
    else (vscale (learning_rate c) grad_b, false) in
  (clip delta (db_bound c), failed).

Definition log_if (failed : bool) (lg : list log_entry) : list log_entry :=
  if failed then lg ++ [LogException "mstep"] else lg.

(** [b[1:, n] = 0]. *)
Definition zero_tail (bn : vec) : vec :=
  match bn with
  | [] => []
  | b0 :: rest => b0 :: map (fun _ => s0) rest
  end.

(** The body of [for n in range(ydim)]; [r] is the rate of the start of the
    inner iteration. *)
Definition channel_update (lik : list family) (c : Config)
  (y : matrix) (x : array3) (mu v r : matrix) (n : nat) (k : mwork)
  : result mwork :=
  match nth_error lik n with
  | None => Raise IndexError k
  | Some poisson =>
      let yn := col n y in
      let rn := col n r in
      let xn := slice_last n x in
      let '(delta_a, fa) := delta_a_of c mu v yn rn (col n (mw_a k)) in
      let a1 := set_col n (vadd (col n (mw_a k)) delta_a) (mw_a k) in
      let da1 := set_col n delta_a (mw_da k) in
      let '(delta_b, fb) := delta_b_of c xn yn rn in
      Ok {| mw_a := a1;
            mw_b := set_col n (vadd (col n (mw_b k)) delta_b) (mw_b k);
            mw_da := da1;
            mw_db := set_col n delta_b (mw_db k);
            mw_log := log_if fb (log_if fa (mw_log k)) |}
  | Some gaussian =>
      let yn := col n y in
      let xn := slice_last n x in
      let M := add_diag (colsum (ncols v) v) (matmul (transpose mu) mu) in
      match solve M (matvec (transpose mu)
                            (vsub yn (matvec xn (col n (mw_b k))))) with
      | Raises e => Raise e k
      | Returns an =>
          let a1 := set_col n an (mw_a k) in
          let k1 := {| mw_a := a1; mw_b := mw_b k; mw_da := mw_da k;
                       mw_db := mw_db k; mw_log := mw_log k |} in
          match solve (matmul (transpose xn) xn)
                      (matvec (transpose xn)
                              (vsub yn (matvec mu (col n a1)))) with
          | Raises e => Raise e k1
          | Returns bn =>
              Ok {| mw_a := a1;
                    mw_b := set_col n (zero_tail bn) (mw_b k);
                    mw_da := mw_da k; mw_db := mw_db k;
                    mw_log := mw_log k |}
          end
      end
  | Some (other_family _) => Ok k
  end.

Fixpoint for_channels (body : nat -> mwork -> result mwork) (ns : list nat)
  (k : mwork) : result mwork :=
  match ns with
  | [] => Ok k
  | n :: ns' =>
      match body n k with
      | Ok k' => for_channels body ns' k'
      | Raise e k' => Raise e k'
      end
  end.

Definition params_log : Type := Params * list log_entry.

(** [params] with the arrays of [k] and the noise [nz]. *)
Definition store_params (p : Params) (k : mwork) (nz : vec) : Params :=
  {| zdim := zdim p; ydim := ydim p; xdim := xdim p; rank := rank p;
     likelihood := likelihood p;
     a := mw_a k; b := mw_b k; noise := nz; da := mw_da k; db := mw_db k;
     cholesky := cholesky p |}.

(** [niter] passes of [for i in range(niter)]; [nz] is [params["noise"]]. *)
Fixpoint mstep_loop (niter : nat) (p : Params) (c : Config)
  (y : matrix) (x : array3) (mu v : matrix) (nz : vec) (k : mwork)
  : result params_log :=
  match niter with
  | O => Ok (store_params p k nz, mw_log k)
  | S niter' =>
      let eta := eta_of mu (mw_a k) (einsum_ijk_jk x (mw_b k)) in
      let r := rate_of eta v (mw_a k) in
      let noise := var0 (msub y eta) in
      match for_channels (channel_update (likelihood p) c y x mu v r)
                         (seq 0 (ydim p)) k with
      | Raise e k' => Raise e (store_params p k' nz, mw_log k')
      | Ok k' => mstep_loop niter' p c y x mu v noise k'
      end
  end.

Definition mstep (ts : list Trial) (p : Params) (c : Config)
  (lg : list log_entry) : result params_log :=
  if (Mniter c <? 1)%Z then Ok (p, lg)
  else
    match concatenate (map y ts), concatenate (map x ts),
          concatenate (map mu ts) with
    | Some y, Some x, Some mu =>
        match entries v ts with
        | None => Raise KeyError (p, lg)
        | Some vs =>
            mstep_loop (Z.to_nat (Mniter c)) p c y x mu (concat vs) (noise p)
              {| mw_a := a p; mw_b := b p; mw_da := da p; mw_db := db p;
                 mw_log := lg |}
        end
    | _, _, _ => Raise ValueError (p, lg)
    end.

(** *** Constraints *)

Definition with_mu (t : Trial) (m : matrix) : Trial :=
  {| y := y t; x := x t; mu := m; w := w t; v := v t; dmu := dmu t |}.

Definition with_a (p : Params) (m : matrix) : Params :=
  {| zdim := zdim p; ydim := ydim p; xdim := xdim p; rank := rank p;
     likelihood := likelihood p;
     a := m; b := b p; noise := noise p; da := da p; db := db p;
     cholesky := cholesky p |}.

Definition with_b (p : Params) (m : matrix) : Params :=
  {| zdim := zdim p; ydim := ydim p; xdim := xdim p; rank := rank p;
     likelihood := likelihood p;
     a := a p; b := m; noise := noise p; da := da p; db := db p;
     cholesky := cholesky p |}.

(** [not constraint or constraint == "none"]. *)
Definition disabled (k : constraint) : bool :=
  match k with
  | CFalsy => true
  | CStr s => String.eqb s "none"
  | COrd _ => false
  end.

(** [constraint in (s1, s2)]. *)
Definition is_in (k : constraint) (n1 n2 : string) : bool :=
  match k with
  | CStr s => String.eqb s n1 || String.eqb s n2
  | _ => false
  end.

Definition trials_params : Type := list Trial * Params.

(** The [location] part of [constrain_latent]; [b[0, :]] of a [b] without
    rows is an [IndexError], raised after the trials were centred. *)
Definition center (mean : vec) (ts : list Trial) (p : Params)
  : result trials_params :=
  let ts' := map (fun t => with_mu t (map (fun r => vsub r mean) (mu t))) ts in
  match b p with
  | [] => Raise IndexError (ts', p)
  | b0 :: rest => Ok (ts', with_b p (vadd b0 (vecmat mean (a p)) :: rest))
  end.

(** The [scale] part of [constrain_latent]. *)
Definition rescale (std : vec) (ts : list Trial) (p : Params) : trials_params :=
  (map (fun t => with_mu t (map (fun r => vdiv r std) (mu t))) ts,
   with_a p (map2 (fun r sl => map (fun e => e * sl) r) (a p) std)).

Definition constrain_latent (ts : list Trial) (p : Params) (c : Config)
  : result trials_params :=
  let k := constrain_latent_mode c in
  if disabled k then Ok (ts, p)
  else
    match concatenate (map mu ts) with
    | None => Raise ValueError (ts, p)
    | Some m =>
        let mean_over_trials := mean0 m in
        let std_over_trials := std0 m in
        let r1 :=
          if is_in k "location" "both" then center mean_over_trials ts p
          else Ok (ts, p) in
        match r1 with
        | Raise e s => Raise e s
        | Ok (ts1, p1) =>
            if is_in k "scale" "both"
            then Ok (rescale std_over_trials ts1 p1)
            else Ok (ts1, p1)
        end
    end.

(** The norm-based branch of [constrain_loading] with the divisor [s]: every
    entry of [a] is divided, every entry of [mu] multiplied. *)
Definition normalize_fro (s : A) (ts : list Trial) (p : Params) : trials_params :=
  (map (fun t => with_mu t (map (map (fun e => e * s)) (mu t))) ts,
   with_a p (map (map (fun e => e / s)) (a p))).

(** The same with one divisor per row of [a] ([s] of shape L x 1): row [l] of
    [a] is divided by [s[l]], column [l] of [mu] multiplied by it. *)
Definition normalize_rows (s : vec) (ts : list Trial) (p : Params) : trials_params :=
  (map (fun t => with_mu t (map (fun r => vmul r s) (mu t))) ts,
   with_a p (map2 (fun r sl => map (fun e => e / sl) r) (a p) s)).

(** [constraint == name]. *)
Definition is_str (k : constraint) (name : string) : bool :=
  match k with
  | CStr s => String.eqb s name
  | _ => false
  end.

(** The [constraint] passed as [ord] to [norm]. *)
Definition order_of (k : constraint) : norm_order :=
  match k with
  | COrd o => o
  | CStr s => OrdName s
  | CFalsy => OrdName ""
  end.

Definition constrain_loading (ts : list Trial) (p : Params) (c : Config)
  : result trials_params :=
  let k := constrain_loading_mode c in
  if disabled k then Ok (ts, p)
  else if is_str k "svd" then
    match svd (a p) with
    | Raises e => Raise e (ts, p)
    | Returns (_, _, vt) =>
        let us := matmul (a p) (transpose vt) in
        Ok (map (fun t => with_mu t (matmul (mu t) us)) ts, with_a p vt)
    end
  else if is_str k "fro" then
    Ok (normalize_fro (norm (a p) + eps c) ts p)
  else
    match row_norms (order_of k) (a p) with
    | Raises e => Raise e (ts, p)
    | Returns nr => Ok (normalize_rows (map (fun e => e + eps c) nr) ts p)
    end.

(** *** [update_w] and [update_v] *)

(** [np.zeros_like(mu)]. *)
Definition zeros_like (mu : matrix) : matrix := map (map (fun _ => s0)) mu.

(** [trial.setdefault(key, np.zeros_like(mu))]: the entry that is there, or
    the new one. *)
Definition setdefault (e : option matrix) (mu : matrix) : matrix :=
  match e with
  | Some m => m
  | None => zeros_like mu
  end.

Definition update_w_trial (p : Params) (t : Trial) : Trial :=
  let w0 := setdefault (w t) (mu t) in
  let v0 := setdefault (v t) (mu t) in
  let eta := eta_of (mu t) (a p) (einsum_ijk_jk (x t) (b p)) in
  let r := rate_of eta v0 (a p) in
  {| y := y t; x := x t; mu := mu t;
     w := Some (w_of (U_of (likelihood p) (noise p) r) (a p));
     v := Some v0; dmu := dmu t |}.

Definition update_w (ts : list Trial) (p : Params) (c : Config) : list Trial :=
  map (update_w_trial p) ts.

(** The body of [for l in range(zdim)] of [update_v] on the array [v]: a
    [LinAlgError] is logged, another exception leaves the function. *)
Definition update_v_dim (rk : nat) (prior : list matrix) (w0 : matrix)
  (l : nat) (vl : matrix * list log_entry)
  : result (matrix * list log_entry) :=
  match nth_error prior l with
  | None => Raise IndexError vl
  | Some G =>
      match v_col_of rk G (col l w0) with
      | Returns c => Ok (set_col l c (fst vl), snd vl)
      | Raises LinAlgError => Ok (fst vl, snd vl ++ [LogError "Singular I + G'WG"])
      | Raises e => Raise e vl
      end
  end.

Fixpoint update_v_dims (rk : nat) (prior : list matrix) (w0 : matrix)
  (ls : list nat) (vl : matrix * list log_entry)
  : result (matrix * list log_entry) :=
  match ls with
  | [] => Ok vl
  | l :: ls' =>
      match update_v_dim rk prior w0 l vl with
      | Ok vl' => update_v_dims rk prior w0 ls' vl'
      | Raise e vl' => Raise e vl'
      end
  end.

Definition update_v_trial (p : Params) (t : Trial) (lg : list log_entry)
  : result trial_log :=
  let w0 := setdefault (w t) (mu t) in
  let v0 := setdefault (v t) (mu t) in
  let t0 := {| y := y t; x := x t; mu := mu t; w := Some w0; v := Some v0;
               dmu := dmu t |} in
  match lookup (length (mu t)) (cholesky p) with
  | None => Raise KeyError (t0, lg)
  | Some prior =>
      match prior with
      | [] => Raise IndexError (t0, lg)
      | G0 :: _ =>
          match update_v_dims (ncols G0) prior w0 (seq 0 (zdim p)) (v0, lg) with
          | Ok (v1, lg1) =>
              Ok ({| y := y t; x := x t; mu := mu t; w := Some w0;
                     v := Some v1; dmu := dmu t |}, lg1)
          | Raise e (v1, lg1) =>
              Raise e ({| y := y t; x := x t; mu := mu t; w := Some w0;
                          v := Some v1; dmu := dmu t |}, lg1)
          end
      end
  end.

Fixpoint update_v_trials (ts : list Trial) (p : Params) (lg : list log_entry)
  : result (list Trial * list log_entry) :=
  match ts with
  | [] => Ok ([], lg)
  | t :: ts' =>
      match update_v_trial p t lg with
      | Ok (t', lg') =>
          match update_v_trials ts' p lg' with
          | Ok (ts'', lg'') => Ok (t' :: ts'', lg'')
          | Raise e (ts'', lg'') => Raise e (t' :: ts'', lg'')
          end
      | Raise e (t', lg') => Raise e (t' :: ts', lg')
      end
  end.

Definition update_v (ts : list Trial) (p : Params) (c : Config)
  (lg : list log_entry) : result (list Trial * list log_entry) :=
  if negb (String.eqb (method c) "VB") then Ok (ts, lg)
  else update_v_trials ts p lg.

End Model.

Arguments Trial A : clear implicits.
Arguments Params A : clear implicits.
Arguments Config A : clear implicits.
Arguments work A : clear implicits.
Arguments mwork A : clear implicits.

(** What a function of [(trials, params, config)] works on. *)
Definition env (A : Type) : Type := (list (Trial A) * Params A * Config A)%type.

(** [gp.optimize(trials, params, config)] of the package's [gp] module. *)
Class Hyper (A : Type) : Type := {
  gp_optimize : env A -> result (env A)
}.

(** An entry of [config["callbacks"]], with the text [format] prints for it. *)
Record callback (A : Type) : Type := {
  cb_name : string;
  cb_run : env A -> result (env A)
}.

Section Driver.
Context {A : Type} `{Scalar A} `{Extern A} `{Hyper A}.
Local Open Scope scalar_scope.

#[local] Abbreviation env := (env A).

Definition hstep (e : env) : result env :=
  let '(_, _, c) := e in
  if negb (Hstep c) then Ok e else gp_optimize e.

Definition env_log : Type := env * list log_entry.

(** [for callback in callbacks: try: ... except RuntimeError: ...]. *)
Fixpoint run_callbacks (cbs : list (callback A)) (e : env)
  (lg : list log_entry) : result env_log :=
  match cbs with
  | [] => Ok (e, lg)
  | cb :: cbs' =>
      match cb_run cb e with
      | Ok e' => run_callbacks cbs' e' lg
      | Raise ex e' =>
          if is_RuntimeError ex
          then run_callbacks cbs' e'
                 (lg ++ [LogError ("Callback " ++ cb_name cb ++ " failed")])
          else Raise ex (e', lg)
      end
  end.

Definition with_runtime (c : Config A) (it : nat) : Config A :=
  {| Eniter := Eniter c; Mniter := Mniter c; max_iter := max_iter c;
     min_iter := min_iter c; tol := tol c; method := method c;
     use_hessian := use_hessian c; dmu_bound := dmu_bound c;
     da_bound := da_bound c; db_bound := db_bound c; eps := eps c;
     learning_rate := learning_rate c;
     constrain_latent_mode := constrain_latent_mode c;
     constrain_loading_mode := constrain_loading_mode c;
     Hstep := Hstep c; runtime_it := Some it |}.

(** [runtime["it"] += 1]: once [config["runtime"]] is the dict [runtime], the
    config shows the new count.  A config that comes with a [runtime] entry
    of an earlier run is treated the same way from the first pass on; in
    the code that entry is another dict until the end of the first pass. *)
Definition tick (c : Config A) (it : nat) : Config A :=
  match runtime_it c with
  | Some _ => with_runtime c it
  | None => c
  end.

(** The convergence test of one iteration. *)
Definition converged (tol norm_mu norm_a norm_b : A) (dmu da db : matrix A)
  : bool :=
  (norm dmu <? tol * norm_mu) && (norm da <? tol * norm_a)
  && (norm db <? tol * norm_b).

(** The body of [for it in range(niter)], for the 0-based [it]: the store it
    leaves and [should_stop]. *)
Definition vem_body (tol0 : A) (cbs : list (callback A)) (it : nat)
  (s : env_log) : result (env_log * bool) :=
  let '((ts, p, c0), lg) := s in
  let c := tick c0 (S it) in
  match concatenate (map (@mu A) ts) with
  | None => Raise ValueError ((ts, p, c), lg, false)
  | Some m =>
      let norm_mu := norm m in
      let norm_a := norm (a p) in
      let norm_b := norm (b p) in
      match constrain_loading ts p c with
      | Raise e (ts1, p1) => Raise e ((ts1, p1, c), lg, false)
      | Ok (ts1, p1) =>
      match estep ts1 p1 c lg with
      | Raise e (ts2, lg2) => Raise e ((ts2, p1, c), lg2, false)
      | Ok (ts2, lg2) =>
      match constrain_latent ts2 p1 c with
      | Raise e (ts3, p3) => Raise e ((ts3, p3, c), lg2, false)
      | Ok (ts3, p3) =>
      match mstep ts3 p3 c lg2 with
      | Raise e (p4, lg4) => Raise e ((ts3, p4, c), lg4, false)
      | Ok (p4, lg4) =>
      match hstep (ts3, p4, c) with
      | Raise e e5 => Raise e (e5, lg4, false)
      | Ok (ts5, p5, c5) =>
      match run_callbacks cbs (ts5, p5, with_runtime c5 (S it)) lg4 with
      | Raise e (e6, lg6) => Raise e (e6, lg6, false)
      | Ok ((ts6, p6, c6), lg6) =>
      match entries (@dmu A) ts6 with
      | None => Raise KeyError ((ts6, p6, c6), lg6, false)
      | Some dmus =>
          let conv :=
            converged tol0 norm_mu norm_a norm_b (concat dmus) (da p6) (db p6) in
          Ok ((ts6, p6, c6), lg6,
              conv && (min_iter c6 <=? Z.of_nat (S it))%Z)
      end end end end end end end
  end.

(** [for it in range(niter)] from [it] on, [n] passes at most: the store
    and the local count [runtime["it"]]. *)
Fixpoint vem_loop (tol0 : A) (cbs : list (callback A)) (n it : nat)
  (s : env_log) : result (env_log * nat) :=
  match n with
  | O => Ok (s, it)
  | S n' =>
      match vem_body tol0 cbs it s with
      | Raise e (s', _) => Raise e (s', S it)
      | Ok (s', stop) =>
          if stop then Ok (s', S it) else vem_loop tol0 cbs n' (S it) s'
      end
  end.

(** [vem(trials, params, config)] with [callbacks = config["callbacks"]]. *)
Definition vem (cbs : list (callback A)) (e : env) (lg : list log_entry)
  : result (env_log * nat) :=
  let '(_, _, c) := e in
  vem_loop (tol c) cbs (Z.to_nat (max_iter c)) 0 (e, lg).

(** [infer(trials, params, config)]: the E step with [Eniter] set to
    [max_iter], then set back. *)
Definition with_Eniter (c : Config A) (n : Z) : Config A :=
  {| Eniter := n; Mniter := Mniter c; max_iter := max_iter c;
     min_iter := min_iter c; tol := tol c; method := method c;
     use_hessian := use_hessian c; dmu_bound := dmu_bound c;
     da_bound := da_bound c; db_bound := db_bound c; eps := eps c;
     learning_rate := learning_rate c;
     constrain_latent_mode := constrain_latent_mode c;
     constrain_loading_mode := constrain_loading_mode c;
     Hstep := Hstep c; runtime_it := runtime_it c |}.

Definition infer (e : env) (lg : list log_entry) : result env_log :=
  let '(ts, p, c) := e in
  let niter := Eniter c in
  match estep ts p (with_Eniter c (max_iter c)) lg with
  | Ok (ts', lg') => Ok ((ts', p, with_Eniter c niter), lg')
  | Raise ex (ts', lg') => Raise ex ((ts', p, with_Eniter c (max_iter c)), lg')
  end.

End Driver.
End Core.

(** * Properties *)

(** ** Lists and arrays, for any scalar type *)

Section ListFacts.
Context {X : Type}.

Lemma length_set_nth (j : nat) (x : X) (v : list X) :
  length (set_nth j x v) = length v.
Proof.
  revert j; induction v as [|e v IH]; intros [|j]; simpl; auto.
Qed.

Lemma nth_set_nth_same (j : nat) (x d : X) (v : list X) :
  j < length v -> nth j (set_nth j x v) d = x.
Proof.
  revert j; induction v as [|e v IH]; intros [|j] Hj; simpl in *;
    try lia; auto.
  apply IH; lia.
Qed.

Lemma nth_set_nth_other (i j : nat) (x d : X) (v : list X) :
  i <> j -> nth i (set_nth j x v) d = nth i v d.
Proof.
  revert i j; induction v as [|e v IH]; intros [|i] [|j] Hij; simpl;
    try congruence; auto.
Qed.


Lemma set_nth_same (j : nat) (d : X) (v : list X) :
  set_nth j (nth j v d) v = v.
Proof.
  revert j; induction v as [|e v IH]; intros [|j]; simpl; auto.
  now rewrite IH.
Qed.

Lemma set_nth_beyond (j : nat) (x : X) (v : list X) :
  length v <= j -> set_nth j x v = v.
Proof.
  revert j; induction v as [|e v IH]; intros [|j] Hj; simpl in *; auto;
    try lia.
  rewrite IH; auto; lia.
Qed.

End ListFacts.

Lemma length_map2 {X Y Z : Type} (f : X -> Y -> Z) (u : list X) (v : list Y) :
  length (map2 f u v) = Nat.min (length u) (length v).
Proof.
  revert v; induction u as [|x u IH]; intros [|y v]; simpl; auto.
Qed.

Lemma map2_ext {X Y Z : Type} (f g : X -> Y -> Z) (u : list X) (v : list Y) :
  (forall x y, In x u -> In y v -> f x y = g x y) ->
  map2 f u v = map2 g u v.
Proof.
  revert v; induction u as [|x u IH]; intros [|y v] Hfg; simpl; auto.
  f_equal.
  - apply Hfg; simpl; auto.
  - apply IH; intros; apply Hfg; simpl; auto.
Qed.

Section ColumnFacts.
Context {A : Type} `{Scalar A}.

Lemma length_col (j : nat) (M : matrix A) : length (col j M) = length M.
Proof. apply length_map. Qed.

Lemma length_set_col (j : nat) (c : vec A) (M : matrix A) :
  length c = length M -> length (set_col j c M) = length M.
Proof.
  intros Hc; unfold set_col; rewrite length_map2; lia.
Qed.

(** Reading back the column that was just written. *)
Lemma col_set_col (j : nat) (c : vec A) (M : matrix A) :
  length c = length M ->
  Forall (fun r => j < length r) M ->
  col j (set_col j c M) = c.
Proof.
  unfold set_col, col.
  revert c; induction M as [|r M IH]; intros [|e c] Hc HM; simpl in *;
    try discriminate; auto.
  inversion HM; subst.
  f_equal.
  - now apply nth_set_nth_same.
  - apply IH; auto.
Qed.


(** Writing back the column that is there changes nothing. *)
Lemma set_col_same (j : nat) (M : matrix A) : set_col j (col j M) M = M.
Proof.
  unfold set_col, col.
  induction M as [|r M IH]; simpl; auto.
  f_equal; auto.
  apply set_nth_same.
Qed.



Lemma row_set_row (i : nat) (r : vec A) (M : matrix A) :
  i < length M -> row i (set_row i r M) = r.
Proof. intros Hi; unfold row, set_row; now apply nth_set_nth_same. Qed.

End ColumnFacts.

(** ** [vb.py]: the trust-region blocks *)

Section TrustRegion.
Context {A : Type} `{Scalar A} `{Extern A}.
Local Open Scope scalar_scope.
Import VB.

#[local] Abbreviation data := (VB.data A).
#[local] Abbreviation state := (VB.state A).











End TrustRegion.

(** ** Small library stand-ins, to run the model on concrete inputs *)

Module Demo.

(** A linear solver for systems of one or two unknowns (Cramer's rule);
    larger systems are reported singular. *)
Definition solve1_float (M : matrix float) (v : vec float) : call (vec float) :=
  match M, v with
  | [[m]], [e] =>
      if PrimFloat.eqb m 0 then Raises LinAlgError
      else Returns [PrimFloat.div e m]
  | [[p; q]; [r; s]], [e; f] =>
      let det := (p * s - q * r)%float in
      if PrimFloat.eqb det 0 then Raises LinAlgError
      else Returns [((e * s - q * f) / det)%float;
                    ((p * f - e * r) / det)%float]
  | _, _ => Raises LinAlgError
  end.

Definition solve1m_float (M N : matrix float) : call (matrix float) :=
  match M, N with
  | [[m]], [[e]] =>
      if PrimFloat.eqb m 0 then Raises LinAlgError
      else Returns [[PrimFloat.div e m]]
  | _, _ => Raises LinAlgError
  end.

(** The first two terms of the exponential series stand for [exp]. *)
Definition exp_float (e : float) : float := PrimFloat.add 1 e.

#[export] Instance Extern_float : Extern float := {|
  exp_ := exp_float;
  trunc_exp := exp_float;
  np_empty := 0%float;
  np_solve := solve1_float;
  solve := solve1_float;
  solve_m := solve1m_float;
  slogdet := fun _ => 0%float;
  svd := fun _ => Raises LinAlgError;
  row_norms := fun _ M => Returns (map (fun r => vnorm r) M)
|}.

Definition solve1_R (M : matrix R) (v : vec R) : call (vec R) :=
  match M, v with
  | [[m]], [e] =>
      if Req_dec_T m 0 then Raises LinAlgError else Returns [(e / m)%R]
  | [[p; q]; [r; s]], [e; f] =>
      let det := (p * s - q * r)%R in
      if Req_dec_T det 0 then Raises LinAlgError
      else Returns [((e * s - q * f) / det)%R; ((p * f - e * r) / det)%R]
  | _, _ => Raises LinAlgError
  end.

Definition solve1m_R (M N : matrix R) : call (matrix R) :=
  match M, N with
  | [[m]], [[e]] =>
      if Req_dec_T m 0 then Raises LinAlgError else Returns [[(e / m)%R]]
  | _, _ => Raises LinAlgError
  end.

#[export] Instance Extern_R : Extern R := {|
  exp_ := exp;
  trunc_exp := exp;
  np_empty := 0%R;
  np_solve := solve1_R;
  solve := solve1_R;
  solve_m := solve1m_R;
  slogdet := fun _ => 0%R;
  svd := fun _ => Raises LinAlgError;
  row_norms := fun _ M => Returns (map (fun r => vnorm r) M)
|}.

(** One time step, one channel, one latent dimension, no history. *)
Definition vb_data : VB.data float :=
  {| VB.y := [[1]]; VB.Y := [[1]]; VB.mu := [[0]]; VB.omega := [[[1]]];
     VB.anorm := 1; VB.constrain_a := "lag"; VB.constrain_m := "lag" |}%float.

Definition vb_state : VB.state float :=
  {| VB.b := [[0]]; VB.a := [[1]]; VB.m := [[0.5]]; VB.V := [[[1]]];
     VB.rate := [[0.5]];
     VB.rb := [1]; VB.ra := [1]; VB.rm := [1];
     VB.lam_a := [0]; VB.lam_m := [0];
     VB.last_b := [[0]]; VB.last_a := [[1]]; VB.last_m := [[0.5]];
     VB.last_rate := [[0.5]];
     VB.lam_last_a := [0]; VB.lam_last_m := [0] |}%float.

End Demo.

(** ** [vb.py]: the blocks on a concrete input *)

Section TrustRegionRuns.
Import Demo.
Local Open Scope float_scope.




End TrustRegionRuns.

(** ** [core.py]: the outer loop *)

Section OuterLoop.
Context {A : Type} `{Scalar A} `{Extern A} `{Core.Hyper A}.
Import Core.

#[local] Abbreviation env := (Core.env A).
#[local] Abbreviation env_log := (Core.env_log (A := A)).







(** With a cap below 1 the loop body never runs. *)
Lemma vem_no_pass (cbs : list (callback A)) (e : env) (lg : list log_entry) :
  (max_iter (snd e) <= 0)%Z -> vem cbs e lg = Ok ((e, lg), 0).
Proof.
  destruct e as [[ts p] c]; simpl; intros Hmax; unfold vem.
  replace (Z.to_nat (max_iter c)) with 0 by lia; reflexivity.
Qed.

End OuterLoop.

(** ** [core.py]: callbacks *)

Section Callbacks.
Context {A : Type} `{Scalar A} `{Extern A} `{Core.Hyper A}.
Import Core.

#[local] Abbreviation env := (Core.env A).






End Callbacks.

(** ** [core.py] on concrete inputs *)

Module DemoCore.
Import Core Demo.

(** The hyperparameter step leaves everything as it is. *)
#[export] Instance Hyper_float : Hyper float := {|
  gp_optimize := fun e => Ok e
|}.

#[export] Instance Hyper_R : Hyper R := {|
  gp_optimize := fun e => Ok e
|}.

(** Two time steps, one Poisson channel with an intercept, one latent
    dimension with a prior factor of rank 1. *)
Definition trial0 : Trial float :=
  {| y := [[1]; [2]]; x := [[[1]]; [[1]]]; mu := [[0.5]; [-0.5]];
     w := Some [[1]; [1]]; v := Some [[1]; [1]];
     dmu := Some [[0]; [0]] |}%float.

Definition params0 : Params float :=
  {| zdim := 1; ydim := 1; xdim := 1; rank := 1;
     likelihood := [poisson];
     a := [[1%float]]; b := [[0%float]]; noise := [1%float];
     da := [[0%float]]; db := [[0%float]];
     cholesky := [(2, [[[1%float]; [0.5%float]]])] |}.

Definition config0 : Config float :=
  {| Eniter := 1; Mniter := 1; max_iter := 3; min_iter := 1;
     tol := 10%float; method := "VB"; use_hessian := true;
     dmu_bound := 1%float; da_bound := 1%float; db_bound := 1%float;
     eps := 0x1p-20%float; learning_rate := 0.5%float;
     constrain_latent_mode := CFalsy; constrain_loading_mode := CFalsy;
     Hstep := false; runtime_it := None |}.




End DemoCore.

Section OuterLoopRuns.
Import Core Demo DemoCore.




End OuterLoopRuns.

(** ** [core.py]: the M step *)

Section MStep.
Context {A : Type} `{Scalar A} `{Extern A}.
Import Core.

#[local] Abbreviation Params := (Core.Params A).
#[local] Abbreviation Config := (Core.Config A).
#[local] Abbreviation Trial := (Core.Trial A).
#[local] Abbreviation mwork := (Core.mwork A).



Lemma mstep_loop_noise (n : nat) (p : Params) (c : Config) (y : matrix A)
  (x : array3 A) (mu v : matrix A) (nz : vec A) (k : mwork)
  (p' : Params) (lg' : list log_entry) :
  mstep_loop (S n) p c y x mu v nz k = Ok (p', lg') ->
  exists k0 k1,
    let eta := eta_of mu (mw_a k0) (einsum_ijk_jk x (mw_b k0)) in
    for_channels
      (channel_update (likelihood p) c y x mu v (rate_of eta v (mw_a k0)))
      (seq 0 (ydim p)) k0 = Ok k1
    /\ a p' = mw_a k1 /\ b p' = mw_b k1
    /\ noise p' = var0 (msub y eta).
Proof.
  revert nz k; induction n as [|n IH]; intros nz k Hrun.
  - simpl in Hrun.
    destruct (for_channels _ (seq 0 (ydim p)) k) as [k1|e k1] eqn:Hch;
      [|discriminate].
    inversion Hrun; subst.
    exists k, k1; simpl; auto.
  - change (mstep_loop (S (S n)) p c y x mu v nz k)
      with (let eta := eta_of mu (mw_a k) (einsum_ijk_jk x (mw_b k)) in
            match for_channels
                    (channel_update (likelihood p) c y x mu v
                       (rate_of eta v (mw_a k)))
                    (seq 0 (ydim p)) k with
            | Raise e k' => Raise e (store_params p k' nz, mw_log k')
            | Ok k' => mstep_loop (S n) p c y x mu v (var0 (msub y eta)) k'
            end) in Hrun.
    cbv zeta in Hrun.
    destruct (for_channels _ (seq 0 (ydim p)) k) as [k1|e k1];
      [|discriminate].
    eapply IH; eauto.
Qed.

(** C9 (as amended).  When [mstep] returns, [params["noise"]] is the
    empirical variance ([ddof = 0]) of [y - eta] per channel, where [eta] is
    the linear predictor computed at the start of the last inner iteration,
    from the [a] and [b] that entered that iteration's channel loop ([k0]);
    [params["a"]] and [params["b"]] are the arrays that loop produced
    ([k1]). *)
Theorem mstep_noise (ts : list Trial) (p : Params) (c : Config)
  (lg : list log_entry) (p' : Params) (lg' : list log_entry) :
  (1 <= Mniter c)%Z ->
  mstep ts p c lg = Ok (p', lg') ->
  exists vs k0 k1,
    entries (@v A) ts = Some vs
    /\ let y := concat (map (@y A) ts) in
       let x := concat (map (@x A) ts) in
       let mu := concat (map (@mu A) ts) in
       let eta := eta_of mu (mw_a k0) (einsum_ijk_jk x (mw_b k0)) in
       for_channels
         (channel_update (likelihood p) c y x mu (concat vs)
            (rate_of eta (concat vs) (mw_a k0)))
         (seq 0 (ydim p)) k0 = Ok k1
       /\ a p' = mw_a k1 /\ b p' = mw_b k1
       /\ noise p' = var0 (msub y eta).
Proof.
  intros Hn Hrun; unfold mstep in Hrun.
  destruct (Z.ltb_spec (Mniter c) 1) as [Hlt|_]; [lia|].
  unfold concatenate in Hrun.
  destruct (map (@y A) ts) as [|y0 ys] eqn:Hy; [discriminate|].
  destruct (map (@x A) ts) as [|x0 xs] eqn:Hx; [discriminate|].
  destruct (map (@mu A) ts) as [|m0 ms] eqn:Hm; [discriminate|].
  destruct (entries (@v A) ts) as [vs|] eqn:Hv; [|discriminate].
  destruct (Z.to_nat (Mniter c)) as [|n] eqn:Hniter; [lia|].
  apply mstep_loop_noise in Hrun.
  destruct Hrun as (k0 & k1 & Hrun).
  exists vs, k0, k1; split; [reflexivity|exact Hrun].
Qed.

End MStep.

Module DemoMStep.
Import Core Demo DemoCore.

(** One time step, one channel, two latent dimensions whose means are equal:
    the loading system [mu'(r mu) + eps I] is singular for [eps = 0]. *)
Definition trial_s : Trial float :=
  {| y := [[3]]; x := [[[1]]]; mu := [[1; 1]];
     w := Some [[0; 0]]; v := Some [[0; 0]]; dmu := Some [[0; 0]] |}%float.

Definition params_s (f : family) : Params float :=
  {| zdim := 2; ydim := 1; xdim := 1; rank := 1;
     likelihood := [f];
     a := [[0%float]; [0%float]]; b := [[0%float]]; noise := [1%float];
     da := [[0%float]; [0%float]]; db := [[0%float]];
     cholesky := [] |}.

Definition config_s : Config float :=
  {| Eniter := 1; Mniter := 1; max_iter := 1; min_iter := 1;
     tol := 0x1p-7%float; method := "VB"; use_hessian := true;
     dmu_bound := 10%float; da_bound := 10%float; db_bound := 10%float;
     eps := 0%float; learning_rate := 0.5%float;
     constrain_latent_mode := CFalsy; constrain_loading_mode := CFalsy;
     Hstep := false; runtime_it := None |}.

(** Two time steps, one Gaussian channel with an intercept, one latent
    dimension. *)
Definition trial_g : Trial float :=
  {| y := [[3]; [1]]; x := [[[1]]; [[1]]]; mu := [[1]; [-1]];
     w := Some [[0]; [0]]; v := Some [[0]; [0]];
     dmu := Some [[0]; [0]] |}%float.

Definition params_g : Params float :=
  {| zdim := 1; ydim := 1; xdim := 1; rank := 1;
     likelihood := [gaussian];
     a := [[0%float]]; b := [[0%float]]; noise := [1%float];
     da := [[0%float]]; db := [[0%float]];
     cholesky := [] |}.

End DemoMStep.

Section MStepRuns.
Import Core Demo DemoCore DemoMStep.
Local Open Scope float_scope.



(** The noise after one inner iteration on [trial_g]. *)
Lemma mstep_noise_witness :
  exists p' lg',
    mstep [trial_g] params_g config_s [] = Ok (p', lg')
    /\ exists k0, noise p'
                  = var0 (msub [[3]; [1]]%float
                            (eta_of [[1]; [-1]]%float (mw_a k0)
                               (einsum_ijk_jk [[[1]]; [[1]]]%float (mw_b k0)))).
Proof.
  eexists; eexists; split; [vm_compute; reflexivity|].
  edestruct (@mstep_noise float _ _ [trial_g] params_g config_s [])
    as (vs & k0 & k1 & Hvs & _ & _ & _ & Hnz);
    [reflexivity|vm_compute; reflexivity|].
  exists k0; exact Hnz.
Defined.

(** C9, counterexample.  One inner iteration on [trial_g] fits the data
    exactly ([a = 1], [b = 2], so [eta = y]): the variance of [y - eta] under
    the just-updated fit is [0], and [params["noise"]] is [1], the variance
    of [y - eta] under the [a = 0], [b = 0] the iteration started from. *)
Lemma mstep_noise_is_stale :
  exists p' lg',
    mstep [trial_g] params_g config_s [] = Ok (p', lg')
    /\ a p' = [[1]]%float /\ b p' = [[2]]%float
    /\ noise p' = [1]%float
    /\ var0 (msub (y trial_g)
               (eta_of (mu trial_g) (a p')
                  (einsum_ijk_jk (x trial_g) (b p'))))
       = [0]%float.
Proof.
  eexists; eexists; split; [vm_compute; reflexivity|].
  repeat split; vm_compute; reflexivity.
Qed.

End MStepRuns.

(** ** [core.py]: [update_w] and [update_v] *)

Section UpdateWV.
Context {A : Type} `{Scalar A} `{Extern A}.
Import Core.

#[local] Abbreviation Params := (Core.Params A).
#[local] Abbreviation Config := (Core.Config A).
#[local] Abbreviation Trial := (Core.Trial A).











End UpdateWV.

Section UpdateWVRuns.
Import Core Demo DemoCore.
Local Open Scope float_scope.




End UpdateWVRuns.

(** ** Arrays over the reals *)

Abbreviation vecR := (vec R).
Abbreviation matR := (matrix R).

Section RealArrays.
Local Open Scope R_scope.

(** [M] has rows of length [n]. *)
Definition rows_of (n : nat) (M : matR) : Prop :=
  Forall (fun r => length r = n) M.

Lemma length_vadd (u v : vecR) :
  length (vadd u v) = Nat.min (length u) (length v).
Proof. apply length_map2. Qed.

Lemma length_vsub (u v : vecR) :
  length (vsub u v) = Nat.min (length u) (length v).
Proof. apply length_map2. Qed.

Lemma length_vscale (c : R) (v : vecR) : length (vscale c v) = length v.
Proof. apply length_map. Qed.

Lemma length_zeros (n : nat) : length (zeros n : vecR) = n.
Proof. apply repeat_length. Qed.

Lemma vadd_comm (u v : vecR) : vadd u v = vadd v u.
Proof.
  revert v; induction u as [|a u IH]; intros [|b v]; simpl; auto.
  unfold vadd in *; simpl; f_equal; [apply Rplus_comm|apply IH].
Qed.

Lemma vadd_assoc (u v t : vecR) : vadd (vadd u v) t = vadd u (vadd v t).
Proof.
  revert v t; induction u as [|a u IH]; intros [|b v] [|c t]; simpl; auto.
  unfold vadd in *; simpl; f_equal; [apply Rplus_assoc|apply IH].
Qed.

Lemma vadd_zeros_r (u : vecR) : vadd u (zeros (length u)) = u.
Proof.
  induction u as [|a u IH]; simpl; auto.
  unfold vadd, zeros in *; simpl; f_equal; [apply Rplus_0_r|apply IH].
Qed.

Lemma vadd_zeros_l (u : vecR) : vadd (zeros (length u)) u = u.
Proof. rewrite vadd_comm; apply vadd_zeros_r. Qed.

Lemma vadd_zeros_r_len (n : nat) (u : vecR) :
  length u = n -> vadd u (zeros n) = u.
Proof. intros <-; apply vadd_zeros_r. Qed.

Lemma vadd_zeros_l_len (n : nat) (u : vecR) :
  length u = n -> vadd (zeros n) u = u.
Proof. intros <-; apply vadd_zeros_l. Qed.

Lemma vsub_zeros_r (u : vecR) : vsub u (zeros (length u)) = u.
Proof.
  induction u as [|a u IH]; simpl; auto.
  unfold vsub, zeros in *; simpl; f_equal; [apply Rminus_0_r|apply IH].
Qed.

Lemma vscale_zeros (c : R) (n : nat) : vscale c (zeros n) = zeros n.
Proof.
  induction n as [|n IH]; simpl; auto.
  unfold vscale, zeros in *; simpl; f_equal; [apply Rmult_0_r|apply IH].
Qed.

Lemma vscale_0 (v : vecR) : vscale 0 v = zeros (length v).
Proof.
  induction v as [|a v IH]; simpl; auto.
  unfold vscale, zeros in *; simpl; f_equal; [apply Rmult_0_l|apply IH].
Qed.

Lemma vscale_vadd (c : R) (u v : vecR) :
  vscale c (vadd u v) = vadd (vscale c u) (vscale c v).
Proof.
  revert v; induction u as [|a u IH]; intros [|b v]; simpl; auto.
  unfold vscale, vadd in *; simpl; f_equal; [apply Rmult_plus_distr_l|apply IH].
Qed.

Lemma vscale_vscale (c d : R) (v : vecR) :
  vscale c (vscale d v) = vscale (c * d) v.
Proof.
  unfold vscale; rewrite map_map; apply map_ext; intros a; simpl; ring.
Qed.

Lemma vscale_add (c d : R) (v : vecR) :
  vscale (c + d) v = vadd (vscale c v) (vscale d v).
Proof.
  induction v as [|a v IH]; simpl; auto.
  unfold vscale, vadd in *; simpl; f_equal; [ring|apply IH].
Qed.

(** *** Sums of rows *)

Lemma length_colsum (n : nat) (M : matR) :
  rows_of n M -> length (colsum n M) = n.
Proof.
  induction 1 as [|r M Hr HM IH]; simpl.
  - apply length_zeros.
  - rewrite length_vadd, IH, Hr; lia.
Qed.

Lemma rows_of_map2_vscale (n : nat) (v : vecR) (M : matR) :
  rows_of n M -> rows_of n (map2 vscale v M).
Proof.
  intros HM; revert v; induction HM as [|r M Hr HM IH]; intros [|c v];
    simpl; try constructor.
  - now rewrite length_vscale.
  - apply IH.
Qed.

Lemma length_lin (n : nat) (v : vecR) (M : matR) :
  rows_of n M -> length (lin n v M) = n.
Proof.
  intros HM; unfold lin; apply length_colsum.
  now apply rows_of_map2_vscale.
Qed.

Lemma lin_nil_l (n : nat) (M : matR) : lin n [] M = zeros n.
Proof. reflexivity. Qed.

Lemma lin_nil_r (n : nat) (v : vecR) : lin n v [] = zeros n.
Proof. destruct v; reflexivity. Qed.

Lemma lin_cons (n : nat) (c : R) (v r : vecR) (M : matR) :
  lin n (c :: v) (r :: M) = vadd (vscale c r) (lin n v M).
Proof. reflexivity. Qed.

Lemma lin_zeros (n k : nat) (M : matR) :
  rows_of n M -> lin n (zeros k) M = zeros n.
Proof.
  intros HM; revert k; induction HM as [|r M Hr HM IH]; intros [|k];
    try reflexivity.
  change (zeros (S k) : vecR) with (0 :: zeros k).
  rewrite lin_cons, IH, vscale_0, Hr.
  apply vadd_zeros_r_len, length_zeros.
Qed.

Lemma lin_vadd (n : nat) (u v : vecR) (M : matR) :
  rows_of n M -> length u = length v ->
  lin n (vadd u v) M = vadd (lin n u M) (lin n v M).
Proof.
  intros HM; revert u v; induction HM as [|r M Hr HM IH];
    intros [|a u] [|b v] Hl; try discriminate.
  - simpl; rewrite !lin_nil_l.
    symmetry; apply vadd_zeros_r_len, length_zeros.
  - rewrite !lin_nil_r.
    symmetry; apply vadd_zeros_r_len, length_zeros.
  - simpl; rewrite !lin_nil_l.
    symmetry; apply vadd_zeros_r_len, length_zeros.
  - change (vadd (a :: u) (b :: v)) with ((a + b) :: vadd u v).
    rewrite !lin_cons, IH by (simpl in Hl; lia).
    rewrite vscale_add.
    rewrite !vadd_assoc; f_equal.
    rewrite <- !vadd_assoc; f_equal.
    apply vadd_comm.
Qed.

Lemma lin_vscale (n : nat) (c : R) (v : vecR) (M : matR) :
  rows_of n M -> lin n (vscale c v) M = vscale c (lin n v M).
Proof.
  intros HM; revert v; induction HM as [|r M Hr HM IH]; intros [|a v].
  - simpl; rewrite lin_nil_l; now rewrite vscale_zeros.
  - rewrite !lin_nil_r; now rewrite vscale_zeros.
  - simpl; rewrite !lin_nil_l; now rewrite vscale_zeros.
  - change (vscale c (a :: v)) with ((c * a) :: vscale c v).
    rewrite !lin_cons, IH, vscale_vadd, vscale_vscale; reflexivity.
Qed.

(** Associativity: combining with [v] the rows of [B], then with the result
    the rows of [C], combines with [v] the rows of [B @ C]. *)
Lemma lin_lin (n k : nat) (v : vecR) (B C : matR) :
  rows_of k B -> rows_of n C ->
  lin n (lin k v B) C = lin n v (map (fun r => lin n r C) B).
Proof.
  intros HB HC; revert v; induction HB as [|r B Hr HB IH]; intros [|a v].
  - simpl; rewrite !lin_nil_l; now apply lin_zeros.
  - rewrite !lin_nil_r; now apply lin_zeros.
  - simpl; rewrite !lin_nil_l; now apply lin_zeros.
  - simpl map; rewrite !lin_cons.
    rewrite lin_vadd, lin_vscale, IH; auto.
    rewrite length_vscale, length_lin; auto.
Qed.

(** *** Dot products and products with a vector *)

Lemma dot_nil_l (v : vecR) : dot [] v = 0.
Proof. reflexivity. Qed.

Lemma dot_cons (a b : R) (u v : vecR) :
  dot (a :: u) (b :: v) = a * b + dot u v.
Proof. reflexivity. Qed.

Lemma dot_zeros_l (n : nat) (v : vecR) : dot (zeros n) v = 0.
Proof.
  revert v; induction n as [|n IH]; intros [|b v]; try reflexivity.
  change (zeros (S n) : vecR) with (0 :: zeros n).
  rewrite dot_cons, IH; ring.
Qed.




Lemma ncols_rows_of (k : nat) (B : matR) :
  rows_of k B -> B <> [] -> ncols B = k.
Proof.
  intros HB Hne; destruct B as [|r B]; [congruence|].
  inversion HB; auto.
Qed.


Lemma rows_of_matmul (k : nat) (A B : matR) :
  rows_of k B -> B <> [] -> rows_of k (matmul A B).
Proof.
  intros HB Hne; unfold matmul; apply Forall_forall; intros r Hr.
  apply in_map_iff in Hr; destruct Hr as (r0 & <- & _).
  unfold vecmat; rewrite (ncols_rows_of HB Hne); now apply length_lin.
Qed.

(** [(A @ B) @ C = A @ (B @ C)]. *)
Lemma matmul_assoc (k n : nat) (A B C : matR) :
  rows_of k B -> rows_of n C -> B <> [] -> C <> [] ->
  matmul (matmul A B) C = matmul A (matmul B C).
Proof.
  intros HB HC HBne HCne.
  change (matmul (matmul A B) C)
    with (map (fun r => vecmat r C) (map (fun r => vecmat r B) A)).
  change (matmul A (matmul B C))
    with (map (fun r => vecmat r (matmul B C)) A).
  rewrite map_map.
  apply map_ext; intros r; unfold vecmat.
  rewrite (ncols_rows_of HB HBne), (ncols_rows_of HC HCne).
  assert (Hn : ncols (matmul B C) = n).
  { apply ncols_rows_of; [now apply rows_of_matmul|].
    destruct B; [congruence|discriminate]. }
  rewrite Hn, lin_lin by assumption.
  f_equal; unfold matmul; apply map_ext; intros b.
  unfold vecmat; now rewrite (ncols_rows_of HC HCne).
Qed.

(** *** The identity matrix *)

Lemma length_unit_vec (n i : nat) : length (unit_vec n i : vecR) = n.
Proof. unfold unit_vec; now rewrite length_map, length_seq. Qed.

Lemma rows_of_identity (n : nat) : rows_of n (identity n).
Proof.
  unfold identity; apply Forall_forall; intros r Hr.
  apply in_map_iff in Hr; destruct Hr as (i & <- & _).
  apply length_unit_vec.
Qed.

Lemma length_identity (n : nat) : length (identity n : matR) = n.
Proof. unfold identity; now rewrite length_map, length_seq. Qed.

Lemma zeros_app (i j : nat) : (zeros (i + j) : vecR) = zeros i ++ zeros j.
Proof. unfold zeros; apply repeat_app. Qed.

Lemma vadd_app (u1 u2 v1 v2 : vecR) :
  length u1 = length v1 ->
  vadd (u1 ++ u2) (v1 ++ v2) = vadd u1 v1 ++ vadd u2 v2.
Proof.
  revert v1; induction u1 as [|a u1 IH]; intros [|b v1] Hl;
    try discriminate; auto.
  simpl; unfold vadd in *; simpl; f_equal; apply IH; simpl in Hl; lia.
Qed.

Lemma vscale_app (c : R) (u v : vecR) :
  vscale c (u ++ v) = vscale c u ++ vscale c v.
Proof. unfold vscale; apply map_app. Qed.


Lemma map_zeros {X : Type} (f : X -> R) (l : list X) :
  (forall j, In j l -> f j = 0) -> map f l = zeros (length l).
Proof.
  induction l as [|j l IH]; intros Hf; simpl; auto.
  unfold zeros in *; simpl; f_equal.
  - apply Hf; now left.
  - apply IH; intros; apply Hf; now right.
Qed.

Lemma unit_vec_split (n i : nat) :
  (i < n)%nat -> (unit_vec n i : vecR) = zeros i ++ 1 :: zeros (n - i - 1).
Proof.
  intros Hi; unfold unit_vec.
  replace n with (i + S (n - i - 1))%nat at 1 by lia.
  rewrite seq_app, map_app; simpl; rewrite Nat.eqb_refl.
  f_equal; [|f_equal].
  - rewrite map_zeros; [now rewrite length_seq|].
    intros j Hj; apply in_seq in Hj.
    destruct (Nat.eqb_spec i j); [lia|reflexivity].
  - rewrite map_zeros; [now rewrite length_seq|].
    intros j Hj; apply in_seq in Hj.
    destruct (Nat.eqb_spec i j); [lia|reflexivity].
Qed.



Lemma rows_of_app (k : nat) (M1 M2 : matR) :
  rows_of k M1 -> rows_of k M2 -> rows_of k (M1 ++ M2).
Proof. intros H1 H2; apply Forall_app; auto. Qed.


Lemma zeros_S_r (s : nat) : (zeros (S s) : vecR) = zeros s ++ [0].
Proof.
  induction s as [|s IH]; simpl; auto.
  unfold zeros in *; simpl in *; now rewrite <- IH.
Qed.

(** [A @ I = A]. *)
Lemma lin_identity (n : nat) (r : vecR) (s : nat) :
  (s + length r <= n)%nat ->
  lin n r (map (unit_vec n) (seq s (length r)))
  = zeros s ++ r ++ zeros (n - s - length r).
Proof.
  revert s; induction r as [|a r IH]; intros s Hs.
  - simpl; rewrite lin_nil_l, Nat.sub_0_r.
    replace n with (s + (n - s))%nat at 1 by lia; apply zeros_app.
  - simpl length; simpl seq; simpl map; rewrite lin_cons.
    rewrite IH by (simpl in Hs; lia).
    rewrite unit_vec_split by (simpl in Hs; lia).
    rewrite vscale_app, vscale_zeros, zeros_S_r, <- app_assoc.
    rewrite vadd_app by reflexivity.
    f_equal.
    + apply vadd_zeros_l_len, length_zeros.
    + replace (n - S s - length r)%nat with (n - s - S (length r))%nat by lia.
      change (vscale a (1 :: zeros (n - s - 1)))
        with ((a * 1) :: vscale a (zeros (n - s - 1))).
      rewrite vscale_zeros.
      change ([0] ++ r ++ zeros (n - s - S (length r)))
        with (0 :: (r ++ zeros (n - s - S (length r)))).
      change (vadd (a * 1 :: zeros (n - s - 1))
                   (0 :: r ++ zeros (n - s - S (length r))))
        with ((a * 1 + 0)
              :: vadd (zeros (n - s - 1)) (r ++ zeros (n - s - S (length r)))).
      simpl app; f_equal; [ring|].
      apply vadd_zeros_l_len.
      rewrite length_app, length_zeros; simpl in Hs; lia.
Qed.

Lemma matmul_identity_r (n : nat) (M : matR) :
  rows_of n M -> matmul M (identity n) = M.
Proof.
  intros HM; unfold matmul.
  rewrite <- (map_id M) at 2; apply map_ext_in; intros r Hr.
  pose proof (proj1 (Forall_forall _ _) HM r Hr) as Hlen; simpl in Hlen.
  unfold vecmat.
  destruct n as [|n].
  - destruct r; [reflexivity|discriminate].
  - rewrite (ncols_rows_of (rows_of_identity (S n)))
      by (unfold identity; simpl; discriminate).
    rewrite <- Hlen; unfold identity.
    rewrite lin_identity by lia.
    simpl; rewrite Nat.sub_0_r, Nat.sub_diag; simpl; apply app_nil_r.
Qed.

(** *** Transposes *)

Lemma rows_of_transpose_n (n : nat) (M : matR) :
  rows_of n M -> rows_of (length M) (transpose_n n M).
Proof.
  induction 1 as [|r M Hr HM IH]; simpl.
  - apply Forall_forall; intros x Hx; apply repeat_spec in Hx; now subst.
  - clear Hr; revert IH; generalize (transpose_n n M) as Tm.
    induction r as [|a r IHr]; intros [|t Tm] IH; simpl; constructor.
    + inversion IH; subst; simpl; congruence.
    + apply IHr; now inversion IH.
Qed.

Lemma rows_of_transpose (k : nat) (M : matR) :
  rows_of k M -> rows_of (length M) (transpose M).
Proof.
  intros HM; unfold transpose; destruct M as [|r M].
  - constructor.
  - rewrite (ncols_rows_of HM) by discriminate.
    now apply rows_of_transpose_n.
Qed.

Lemma transpose_n_zeros2 (t n : nat) :
  transpose_n n (zeros2 t n : matR) = zeros2 n t.
Proof.
  induction t as [|t IH]; simpl.
  - reflexivity.
  - unfold zeros2 in *; simpl; rewrite IH.
    clear IH; unfold zeros; induction n as [|n IHn]; [reflexivity|].
    exact (f_equal (cons (repeat s0 (S t))) IHn).
Qed.

Lemma transpose_zeros2 (t n : nat) :
  (0 < t)%nat -> transpose (zeros2 t n : matR) = zeros2 n t.
Proof.
  intros Ht; unfold transpose.
  destruct t as [|t]; [lia|].
  replace (ncols (zeros2 (S t) n : matR)) with n
    by (simpl; now rewrite length_zeros).
  apply transpose_n_zeros2.
Qed.

Lemma matvec_zeros2 (t n : nat) (z : vecR) : matvec (zeros2 t n) z = zeros t.
Proof.
  unfold matvec, zeros2; induction t as [|t IH]; simpl; auto.
  rewrite dot_zeros_l; unfold zeros in *; simpl; f_equal; apply IH.
Qed.

Lemma rows_of_zeros2 (t n : nat) : rows_of n (zeros2 t n).
Proof.
  apply Forall_forall; intros r Hr; apply repeat_spec in Hr; subst.
  apply length_zeros.
Qed.

Lemma rowscale_zeros2 (wl : vecR) (t n : nat) :
  length wl = t -> rowscale wl (zeros2 t n) = zeros2 t n.
Proof.
  revert wl; induction t as [|t IH]; intros [|e wl] Hl; try discriminate;
    auto.
  unfold rowscale, zeros2 in *; simpl; f_equal.
  - apply vscale_zeros.
  - apply IH; simpl in Hl; lia.
Qed.

Lemma matmul_zeros2_l (t k n : nat) (B : matR) :
  rows_of n B -> B <> [] -> matmul (zeros2 t k) B = zeros2 t n.
Proof.
  intros HB Hne; unfold matmul, zeros2.
  rewrite map_repeat; f_equal.
  unfold vecmat; rewrite (ncols_rows_of HB Hne).
  now apply lin_zeros.
Qed.

Lemma madd_zeros2_r (n : nat) (M : matR) :
  rows_of n M -> madd M (zeros2 (length M) n) = M.
Proof.
  induction 1 as [|r M Hr HM IH]; simpl; auto.
  unfold madd, zeros2 in *; simpl; f_equal; auto.
  now apply vadd_zeros_r_len.
Qed.

End RealArrays.

(** ** [core.py]: the mean update of the E step, in exact arithmetic *)

Section EStepReal.
Context `{Extern R}.
Import Core.
Local Open Scope R_scope.

#[local] Abbreviation ParamsR := (Core.Params R).
#[local] Abbreviation ConfigR := (Core.Config R).
#[local] Abbreviation workR := (Core.work R).










Lemma vsub_zeros_r_len (n : nat) (u : vecR) :
  length u = n -> vsub u (zeros n) = u.
Proof. intros <-; apply vsub_zeros_r. Qed.

Lemma vsub_zeros_l (n : nat) (u : vecR) :
  length u = n -> vsub (zeros n) u = vopp u.
Proof.
  intros <-; induction u as [|e u IH]; simpl; auto.
  unfold vsub, vopp, zeros in *; simpl; f_equal; [ring|apply IH].
Qed.

Lemma length_vopp (u : vecR) : length (vopp u) = length u.
Proof. apply length_map. Qed.

Lemma delta_mu_zero_factor (rk t : nat) (bound : R) (wl ra mul M : vecR) :
  (0 < t)%nat -> length wl = t -> length mul = t ->
  solve (identity rk) (zeros rk) = Returns M ->
  delta_mu_of rk bound (zeros2 t rk) wl ra mul
  = Some (clip (vopp mul) bound).
Proof.
  intros Ht Hw Hm Hsolve; unfold delta_mu_of, u_of.
  rewrite (@rowscale_zeros2 wl t rk Hw), (@transpose_zeros2 t rk Ht).
  rewrite (@matmul_zeros2_l rk t rk (zeros2 t rk))
    by (first [apply rows_of_zeros2|destruct t; [lia|discriminate]]).
  rewrite !matvec_zeros2.
  replace (madd (identity rk) (zeros2 rk rk)) with (identity rk : matR).
  2:{ symmetry; rewrite <- (length_identity rk) at 2.
      apply madd_zeros2_r, rows_of_identity. }
  rewrite Hsolve, (@vsub_zeros_l t mul Hm), !matvec_zeros2.
  rewrite vsub_zeros_r_len, vadd_zeros_r_len; auto;
    now rewrite ?length_vopp.
Qed.

Lemma nth_error_set_nth_other {X : Type} (i j : nat) (e : X) (v : list X) :
  i <> j -> nth_error (set_nth j e v) i = nth_error v i.
Proof.
  revert i j; induction v as [|b v IH]; intros [|i] [|j] Hij; simpl;
    try congruence; auto.
Qed.

Lemma clip_vopp_cancel (bound : R) (mul : vecR) :
  Forall (fun e => Rabs e <= bound) mul ->
  vadd mul (clip (vopp mul) bound) = zeros (length mul).
Proof.
  induction 1 as [|e mul He Hmul IH]; simpl; auto.
  unfold vadd, clip, vopp, zeros in *; simpl; f_equal; [|exact IH].
  assert (Hb : - bound <= e <= bound)
    by (unfold Rabs in He; destruct (Rcase_abs e); lra).
  unfold Rmax, Rmin.
  destruct (Rle_dec (- e) (- bound)); destruct (Rle_dec _ bound); lra.
Qed.

(** C8 (as amended).  When the prior factor of latent dimension [l] is all
    zeros ([t] rows, [t > 0]) and [solve] returns for the identity system it is
    then given, the mean update of [l] does not raise and takes the step
    [clip(-mu[:, l], dmu_bound)]: [mu[:, l]] is moved towards zero, onto
    zero where [|mu[:, l]| <= dmu_bound]; it stays as it is only where it
    is zero already.  The update of every other dimension is the one it
    would be with any other factor in place of the zero one. *)
Theorem e_step_zero_factor (p : ParamsR) (c : ConfigR) (prior : list matR)
  (residual : matR) (l : nat) (wk : workR) (t : nat) (M : vecR) :
  nth_error prior l = Some (zeros2 t (rank p)) ->
  (0 < t)%nat ->
  length (wk_w wk) = t ->
  length (wk_mu wk) = t ->
  solve (identity (rank p)) (zeros (rank p)) = Returns M ->
  let mul := col l (wk_mu wk) in
  let step := clip (vopp mul) (dmu_bound c) in
  exists wk',
    mean_update p c prior residual l wk = Some wk'
    /\ wk_mu wk' = set_col l (vadd mul step) (wk_mu wk)
    /\ wk_dmu wk' = set_col l step (wk_dmu wk)
    /\ (Forall (fun e => Rabs e <= dmu_bound c) mul ->
        vadd mul step = zeros t)
    /\ (forall l' G', l' <> l ->
           mean_update p c (set_nth l G' prior) residual l' wk
           = mean_update p c prior residual l' wk).
Proof.
  intros Hprior Ht Hw Hm Hsolve mul step.
  unfold mean_update at 1; rewrite Hprior.
  rewrite (@delta_mu_zero_factor (rank p) t (dmu_bound c)
             (col l (wk_w wk)) (matvec residual (row l (a p)))
             (col l (wk_mu wk)) M Ht);
    [|now rewrite length_col|now rewrite length_col|exact Hsolve].
  eexists; split; [reflexivity|]; simpl.
  repeat split.
  - intros Hsmall; unfold step.
    rewrite (clip_vopp_cancel Hsmall); unfold mul.
    now rewrite length_col, Hm.
  - intros l' G' Hl; unfold mean_update.
    now rewrite nth_error_set_nth_other.
Qed.

End EStepReal.

Module DemoReal.
Import Core Demo DemoCore.
Local Open Scope R_scope.

(** One time step, one channel, one latent dimension, in exact
    arithmetic. *)
Definition paramsR : Params R :=
  {| zdim := 1; ydim := 1; xdim := 1; rank := 1;
     likelihood := [poisson];
     a := [[1]]; b := [[0]]; noise := [1]; da := [[0]]; db := [[0]];
     cholesky := [] |}.

Definition configR : Config R :=
  {| Eniter := 1; Mniter := 1; max_iter := 1; min_iter := 1;
     tol := 1; method := "VB"; use_hessian := true;
     dmu_bound := 5; da_bound := 5; db_bound := 5;
     eps := 1; learning_rate := 1;
     constrain_latent_mode := CStr "both";
     constrain_loading_mode := CStr "fro";
     Hstep := false; runtime_it := None |}.

Definition workR : work R :=
  {| wk_mu := [[1]]; wk_w := [[1]]; wk_v := [[1]]; wk_dmu := [[0]];
     wk_log := [] |}.

End DemoReal.

Section EStepRuns.
Import Core Demo DemoCore DemoReal.


(** The mean update with an all-zero factor, in exact arithmetic. *)
Lemma e_step_zero_factor_witness :
  exists wk',
    mean_update paramsR configR [zeros2 1 1] [[2%R]] 0 workR = Some wk'
    /\ wk_mu wk'
       = set_col 0 (vadd [1%R] (clip (vopp [1%R]) 5%R)) (wk_mu workR).
Proof.
  edestruct (@e_step_zero_factor Extern_R paramsR configR [zeros2 1 1]
               [[2%R]] 0 workR 1) as (wk' & Hrun & Hmu & _).
  - reflexivity.
  - lia.
  - reflexivity.
  - reflexivity.
  - cbn.
    destruct (Req_dec_T 1 0) as [Heq|_]; [exfalso; lra|reflexivity].
  - exists wk'; split; [exact Hrun|exact Hmu].
Defined.

Local Open Scope float_scope.

(** One time step, two latent dimensions; the prior factor of dimension 0
    is all zeros, the one of dimension 1 is not. *)
Definition trial_z : Trial float :=
  {| y := [[1]]; x := [[[1]]]; mu := [[1; 1]];
     w := Some [[1; 1]]; v := Some [[1; 1]]; dmu := Some [[0; 0]] |}.

Definition params_z : Params float :=
  {| zdim := 2; ydim := 1; xdim := 1; rank := 1;
     likelihood := [poisson];
     a := [[1]; [1]]; b := [[0]]; noise := [1];
     da := [[0]; [0]]; db := [[0]];
     cholesky := [(1%nat, [[[0]]; [[1]]])] |}.

Definition config_z : Config float :=
  {| Eniter := 1; Mniter := 1; max_iter := 1; min_iter := 1;
     tol := 0x1p-7; method := "MAP"; use_hessian := true;
     dmu_bound := 10; da_bound := 10; db_bound := 10;
     eps := 0x1p-20; learning_rate := 0.5;
     constrain_latent_mode := CFalsy; constrain_loading_mode := CFalsy;
     Hstep := false; runtime_it := None |}.

(** C8, counterexample.  The E step on [trial_z] does not raise, and the
    mean of dimension 0, whose factor is all zeros, does not stay at 1: it
    is moved onto 0 (the step is [-1]). *)
Lemma e_step_zero_factor_moves_mean :
  exists t' lg',
    infer_single_trial trial_z params_z config_z [] = Ok (t', lg')
    /\ col 0 (mu t') = [0]
    /\ option_map (col 0) (dmu t') = Some [-1]
    /\ col 0 (mu t') <> col 0 (mu trial_z).
Proof.
  eexists; eexists; split; [vm_compute; reflexivity|].
  repeat split; try (vm_compute; reflexivity).
  intros Heq.
  apply (f_equal (fun c => PrimFloat.eqb (nth 0 c 1) 1)) in Heq.
  vm_compute in Heq; discriminate.
Qed.

End EStepRuns.

(** ** [core.py]: the constraints, in exact arithmetic *)

(** The joint linear predictor [mu @ a + x.b] of a trial. *)
Definition predictor {A : Type} `{Scalar A} (t : Core.Trial A)
  (p : Core.Params A) : matrix A :=
  Core.eta_of (Core.mu t) (Core.a p)
    (einsum_ijk_jk (Core.x t) (Core.b p)).

(** The latent part [mu @ a] of it. *)
Definition latent_part {A : Type} `{Scalar A} (t : Core.Trial A)
  (p : Core.Params A) : matrix A :=
  matmul (Core.mu t) (Core.a p).

Section ConstraintsReal.
Context `{Extern R}.
Import Core.
Local Open Scope R_scope.

#[local] Abbreviation ParamsR := (Core.Params R).
#[local] Abbreviation ConfigR := (Core.Config R).
#[local] Abbreviation TrialR := (Core.Trial R).

Definition ones (n : nat) : vecR := repeat 1 n.

Lemma length_ones (n : nat) : length (ones n) = n.
Proof. apply repeat_length. Qed.

Lemma vmul_ones_l (u : vecR) : vmul (ones (length u)) u = u.
Proof.
  induction u as [|e u IH]; simpl; auto.
  unfold vmul, ones in *; simpl; f_equal; [ring|apply IH].
Qed.

Lemma vmul_ones_len (n : nat) (u : vecR) :
  length u = n -> vmul (ones n) u = u.
Proof. intros <-; apply vmul_ones_l. Qed.

Lemma length_vmul (u v : vecR) :
  length (vmul u v) = Nat.min (length u) (length v).
Proof. apply length_map2. Qed.

Lemma vsub_as_vadd (u v : vecR) : vsub u v = vadd u (vscale (-1) v).
Proof.
  revert v; induction u as [|e u IH]; intros [|f v]; simpl; auto.
  unfold vsub, vadd, vscale in *; simpl; f_equal; [ring|apply IH].
Qed.

Lemma lin_vsub (n : nat) (u v : vecR) (M : matR) :
  rows_of n M -> length u = length v ->
  lin n (vsub u v) M = vsub (lin n u M) (lin n v M).
Proof.
  intros HM Hl.
  rewrite !vsub_as_vadd, lin_vadd, lin_vscale; auto.
  now rewrite length_vscale.
Qed.

(** [(P - d) + ((b0 + d) + S) = P + (b0 + S)] on vectors of one length. *)
Lemma vadd_cancel (P d b0 S : vecR) :
  length d = length P -> length b0 = length P -> length S = length P ->
  vadd (vsub P d) (vadd (vadd b0 d) S) = vadd P (vadd b0 S).
Proof.
  revert d b0 S; induction P as [|e P IH]; intros [|e1 d] [|e2 b0] [|e3 S];
    simpl; intros H1 H2 H3; try discriminate; auto.
  unfold vadd, vsub in *; simpl; f_equal; [ring|].
  apply IH; lia.
Qed.

Lemma rows_of_map2_vmul (n : nat) (X B : matR) :
  rows_of n X -> rows_of n B -> rows_of n (map2 vmul X B).
Proof.
  intros HX; revert B; induction HX as [|r X Hr HX IH]; intros B HB;
    destruct B as [|b B]; simpl; try constructor.
  - inversion HB; subst; rewrite length_vmul; lia.
  - apply IH; now inversion HB.
Qed.

(** The time steps of [x] have the intercept as first regression row and
    rows of length [n]. *)
Definition intercept_first (n : nat) (x : array3 R) : Prop :=
  Forall (fun xi => exists xrest, xi = ones n :: xrest /\ rows_of n xrest) x.

(** Centering: [mu - mean] with [b[0, :] + mean @ a] gives the same
    predictor. *)
Lemma center_predictor (L N : nat) (mean : vecR) (m : matR) (a0 : matR)
  (x0 : array3 R) (b0 : vecR) (rest : matR) :
  rows_of L m -> length mean = L ->
  rows_of N a0 -> a0 <> [] ->
  length b0 = N -> rows_of N rest ->
  intercept_first N x0 ->
  eta_of (map (fun r => vsub r mean) m) a0
         (einsum_ijk_jk x0 (vadd b0 (vecmat mean a0) :: rest))
  = eta_of m a0 (einsum_ijk_jk x0 (b0 :: rest)).
Proof.
  intros Hm Hmean Ha Hane Hb0 Hrest Hx.
  assert (Hnc : ncols a0 = N) by now apply ncols_rows_of.
  assert (Hd : length (vecmat mean a0) = N)
    by (unfold vecmat; rewrite Hnc; now apply length_lin).
  unfold eta_of, madd, matmul, einsum_ijk_jk.
  simpl ncols; rewrite length_vadd, Hb0, Hd, Nat.min_id.
  revert x0 Hx; induction Hm as [|r m Hr Hm IH]; intros x0 Hx;
    [reflexivity|].
  destruct x0 as [|xi x0]; [reflexivity|].
  inversion Hx as [|? ? (xrest & -> & Hxr) Hx0]; subst.
  simpl map; simpl map2; f_equal; [|now apply IH].
  rewrite (@vmul_ones_len (length b0) (vadd b0 (vecmat mean a0)))
    by (rewrite length_vadd, Hd; lia).
  rewrite (@vmul_ones_len (length b0) b0) by reflexivity.
  pose proof Hd as Hd'; unfold vecmat in Hd' |- *; rewrite Hnc in Hd' |- *.
  rewrite lin_vsub by (auto; congruence).
  apply vadd_cancel.
  - rewrite !length_lin; auto.
  - rewrite length_lin; auto.
  - rewrite length_colsum, length_lin; auto.
    now apply rows_of_map2_vmul.
Qed.

(** Scaling: [mu / std] with [a * std.T] gives the same [mu @ a]. *)
Lemma lin_rescale (n : nat) (r std : vecR) (a0 : matR) :
  length r = length a0 -> length std = length a0 ->
  Forall (fun s => s <> 0) std ->
  lin n (vdiv r std) (map2 (fun ar sl => map (fun e => e * sl) ar) a0 std)
  = lin n r a0.
Proof.
  revert r std; induction a0 as [|ar a0 IH]; intros [|e r] [|s std] Hr Hs Hnz;
    try discriminate; try reflexivity.
  inversion Hnz; subst.
  change (vdiv (e :: r) (s :: std)) with ((e / s) :: vdiv r std).
  simpl map2; rewrite !lin_cons, IH by (simpl in *; auto; lia).
  f_equal.
  unfold vscale; rewrite map_map; apply map_ext; intros f; simpl.
  now field.
Qed.

Lemma rescale_matmul (L : nat) (m : matR) (std : vecR) (a0 : matR) :
  rows_of L m -> length a0 = L -> length std = L ->
  Forall (fun s => s <> 0) std ->
  matmul (map (fun r => vdiv r std) m)
         (map2 (fun ar sl => map (fun e => e * sl) ar) a0 std)
  = matmul m a0.
Proof.
  intros Hm Ha Hs Hnz; unfold matmul; rewrite map_map.
  apply map_ext_in; intros r Hr.
  pose proof (proj1 (Forall_forall _ _) Hm r Hr) as Hlen; simpl in Hlen.
  unfold vecmat.
  replace (ncols (map2 (fun ar sl => map (fun e => e * sl) ar) a0 std))
    with (ncols a0).
  - apply lin_rescale; auto; congruence.
  - destruct a0 as [|ar a0]; destruct std as [|s std]; simpl in *;
      try reflexivity; try lia.
    now rewrite length_map.
Qed.

Lemma Forall2_map_r {X Y : Type} (P : X -> Y -> Prop) (f : X -> Y)
  (l : list X) :
  Forall (fun e => P e (f e)) l -> Forall2 P l (map f l).
Proof. induction 1; simpl; constructor; auto. Qed.

Lemma rows_of_concat (n : nat) (Ms : list matR) :
  Forall (rows_of n) Ms -> rows_of n (concat Ms).
Proof.
  induction 1 as [|M Ms HM HMs IH]; simpl; [constructor|].
  now apply rows_of_app.
Qed.

Lemma length_mean0 (n : nat) (M : matR) :
  rows_of n M -> M <> [] -> length (mean0 M) = n.
Proof.
  intros HM Hne; unfold mean0.
  rewrite length_map, (ncols_rows_of HM Hne); now apply length_colsum.
Qed.

Lemma length_std0 (n : nat) (M : matR) :
  rows_of n M -> M <> [] -> length (std0 M) = n.
Proof.
  intros HM Hne; unfold std0, var0; rewrite length_map.
  apply length_mean0.
  - apply Forall_forall; intros r Hr.
    apply in_map_iff in Hr; destruct Hr as (r0 & <- & Hr0).
    pose proof (proj1 (Forall_forall _ _) HM r0 Hr0) as Hlen.
    simpl in Hlen; cbv zeta.
    rewrite length_vmul, length_vsub, (length_mean0 HM Hne); lia.
  - destruct M; [congruence|discriminate].
Qed.

(** The shapes [constrain_latent] works on: [L] latent dimensions, [N]
    channels, at least one time step in all, the intercept as first
    regression row. *)
Definition latent_shapes (L N : nat) (ts : list TrialR) (p : ParamsR) : Prop :=
  concat (map (@mu R) ts) <> []
  /\ Forall (fun t => rows_of L (mu t) /\ intercept_first N (x t)) ts
  /\ length (a p) = L /\ a p <> [] /\ rows_of N (a p)
  /\ exists b0 rest, b p = b0 :: rest /\ length b0 = N /\ rows_of N rest.

(** C4 (as amended).  For trials whose first regression row is the all-ones
    intercept, [constrain_latent] in any mode leaves the joint linear
    predictor [mu @ a + x.b] of every trial as it is, provided that, in the
    modes that scale (["scale"] and ["both"]), the standard deviation over
    trials of every latent dimension is not zero.  Centering subtracts the
    mean over trials from every [mu] and adds [mean @ a] to [b[0, :]];
    scaling divides every [mu] by the standard deviation and multiplies
    the rows of [a] by it. *)
Theorem constrain_latent_predictor (L N : nat) (ts : list TrialR)
  (p : ParamsR) (c : ConfigR) :
  latent_shapes L N ts p ->
  (is_in (constrain_latent_mode c) "scale" "both" = true ->
   Forall (fun s => s <> 0) (std0 (concat (map (@mu R) ts)))) ->
  exists ts' p',
    constrain_latent ts p c = Ok (ts', p')
    /\ Forall2 (fun t t' => predictor t' p' = predictor t p) ts ts'.
Proof.
  intros (Hne & Hts & HaL & Hane & HaN & b0 & rest & Hb & Hb0 & Hrest) Hstd.
  unfold constrain_latent.
  destruct (disabled (constrain_latent_mode c)).
  { exists ts, p; split; [reflexivity|].
    clear; induction ts; constructor; auto. }
  assert (Hts0 : ts <> []) by (intros ->; now apply Hne).
  unfold concatenate.
  destruct (map (@mu R) ts) as [|m0 ms] eqn:Hmap;
    [destruct ts; [congruence|discriminate]|].
  rewrite <- Hmap in *; clear Hmap m0 ms.
  set (m := concat (map (@mu R) ts)) in *.
  assert (Hm : rows_of L m).
  { apply rows_of_concat, Forall_forall; intros M HM.
    apply in_map_iff in HM; destruct HM as (t & <- & Ht).
    now apply (proj1 (Forall_forall _ _) Hts t Ht). }
  assert (Hmean : length (mean0 m) = L) by now apply length_mean0.
  assert (Hstdlen : length (std0 m) = L) by now apply length_std0.
  (* the location part *)
  assert (Hloc : exists ts1 p1,
             (if is_in (constrain_latent_mode c) "location" "both"
              then center (mean0 m) ts p else Ok (ts, p)) = Ok (ts1, p1)
             /\ Forall2 (fun t t' => predictor t' p1 = predictor t p
                                     /\ rows_of L (mu t')) ts ts1
             /\ a p1 = a p).
  { destruct (is_in (constrain_latent_mode c) "location" "both").
    - unfold center; rewrite Hb.
      eexists; eexists; split; [reflexivity|]; split; [|reflexivity].
      apply Forall2_map_r, Forall_forall; intros t Ht.
      destruct (proj1 (Forall_forall _ _) Hts t Ht) as [Hmu Hx].
      split.
      + unfold predictor; simpl; rewrite Hb.
        eapply center_predictor; eauto.
      + simpl; apply Forall_forall; intros r Hr.
        apply in_map_iff in Hr; destruct Hr as (r0 & <- & Hr0).
        pose proof (proj1 (Forall_forall _ _) Hmu r0 Hr0) as Hlen.
        simpl in Hlen; rewrite length_vsub; lia.
    - exists ts, p; split; [reflexivity|]; split; [|reflexivity].
      clear -Hts; induction Hts as [|t ts [Hmu _] _ IH]; constructor; auto. }
  destruct Hloc as (ts1 & p1 & -> & H1 & Ha1).
  destruct (is_in (constrain_latent_mode c) "scale" "both") eqn:Hscale.
  - unfold rescale; eexists; eexists; split; [reflexivity|].
    specialize (Hstd eq_refl).
    generalize dependent (std0 m); intros sd Hsd Hsdlen.
    clear -H1 Ha1 HaL Hsd Hsdlen.
    induction H1 as [|t t1 ts ts1 [Hp Hmu] _ IH]; simpl; constructor; auto.
    rewrite <- Hp; unfold predictor, eta_of; simpl; f_equal.
    rewrite Ha1; eapply rescale_matmul; eauto.
  - exists ts1, p1; split; [reflexivity|].
    clear -H1; induction H1 as [|t t1 ts ts1 [Hp _] _ IH]; constructor; auto.
Qed.

End ConstraintsReal.

Section ConstraintLatentRuns.
Import Core Demo DemoCore DemoReal.

(** Two time steps with means 1 and 3: the mean over trials is 2, the
    standard deviation 1. *)
Definition trialR : Trial R :=
  {| y := [[1]; [2]]; x := [[[1]]; [[1]]]; mu := [[1]; [3]];
     w := None; v := None; dmu := None |}%R.

Lemma constrain_latent_predictor_witness :
  exists ts' p',
    constrain_latent [trialR] paramsR configR = Ok (ts', p')
    /\ Forall2 (fun t t' => predictor t' p' = predictor t paramsR)
         [trialR] ts'.
Proof.
  apply (@constrain_latent_predictor 1 1 [trialR] paramsR configR).
  - split; [discriminate|].
    split.
    { constructor; [|constructor]; split.
      - repeat constructor.
      - repeat (constructor;
                [exists []; split; [reflexivity|constructor]|]).
        constructor. }
    split; [reflexivity|]; split; [discriminate|].
    split; [repeat constructor|].
    exists [0%R], []; repeat split; constructor.
  - intros _; cbn.
    constructor; [|constructor].
    apply Rgt_not_eq, Rlt_gt, sqrt_lt_R0; lra.
Defined.

Local Open Scope float_scope.

(** One trial of one time step: the standard deviation over trials of its
    latent dimension is 0. *)
Definition trial_c : Trial float :=
  {| y := [[1]]; x := [[[1]]]; mu := [[1]];
     w := None; v := None; dmu := None |}.

Definition params_c : Params float :=
  {| zdim := 1; ydim := 1; xdim := 1; rank := 1;
     likelihood := [poisson];
     a := [[1]]; b := [[0]]; noise := [1]; da := [[0]]; db := [[0]];
     cholesky := [] |}.

Definition config_c (latent loading : constraint) : Config float :=
  {| Eniter := 1; Mniter := 1; max_iter := 1; min_iter := 1;
     tol := 0x1p-7; method := "VB"; use_hessian := true;
     dmu_bound := 10; da_bound := 10; db_bound := 10;
     eps := 0; learning_rate := 0.5;
     constrain_latent_mode := latent; constrain_loading_mode := loading;
     Hstep := false; runtime_it := None |}.

(** C4, counterexample.  The first regression column of [trial_c] is the
    intercept and its predictor is [[1]]; in mode ["scale"] the mean is
    divided by the standard deviation 0 and the loading multiplied by it:
    the predictor becomes NaN. *)
Lemma constrain_latent_zero_std :
  predictor trial_c params_c = [[1]]
  /\ exists t' p',
       constrain_latent [trial_c] params_c (config_c (CStr "scale") CFalsy)
       = Ok ([t'], p')
       /\ mu t' = [[infinity]] /\ a p' = [[0]]
       /\ predictor t' p' = [[nan]].
Proof.
  split; [vm_compute; reflexivity|].
  eexists; eexists; split; [vm_compute; reflexivity|].
  repeat split; vm_compute; reflexivity.
Qed.

End ConstraintLatentRuns.

Section ConstraintLoadingReal.
Context `{Extern R}.
Import Core.
Local Open Scope R_scope.

#[local] Abbreviation ParamsR := (Core.Params R).
#[local] Abbreviation ConfigR := (Core.Config R).
#[local] Abbreviation TrialR := (Core.Trial R).

(** [(r * s) @ (a / s) = r @ a] for a divisor [s] that is not zero. *)
Lemma lin_fro (n : nat) (s : R) (r : vecR) (a0 : matR) :
  s <> 0 ->
  lin n (map (fun e => e * s) r) (map (map (fun e => e / s)) a0) = lin n r a0.
Proof.
  intros Hs; revert r; induction a0 as [|ar a0 IH]; intros [|e r];
    try reflexivity.
  simpl map; rewrite !lin_cons, IH; f_equal.
  unfold vscale; rewrite map_map; apply map_ext; intros f; simpl.
  now field.
Qed.

Lemma lin_rows (n : nat) (r s : vecR) (a0 : matR) :
  length r = length a0 -> length s = length a0 ->
  Forall (fun e => e <> 0) s ->
  lin n (vmul r s) (map2 (fun ar sl => map (fun e => e / sl) ar) a0 s)
  = lin n r a0.
Proof.
  revert r s; induction a0 as [|ar a0 IH]; intros [|e r] [|sl s] Hr Hs Hnz;
    try discriminate; try reflexivity.
  inversion Hnz; subst.
  change (vmul (e :: r) (sl :: s)) with ((e * sl) :: vmul r s).
  simpl map2; rewrite !lin_cons, IH by (simpl in *; auto; lia).
  f_equal.
  unfold vscale; rewrite map_map; apply map_ext; intros f; simpl.
  now field.
Qed.

Lemma ncols_map_map (f : R -> R) (M : matR) :
  ncols (map (map f) M) = ncols M.
Proof. destruct M; simpl; auto; apply length_map. Qed.

Lemma norm_nonneg (M : matR) : 0 <= norm M.
Proof. unfold norm; simpl; apply sqrt_pos. Qed.

(** What [svd(a, full_matrices=False)] promises of [(u, s, vt)]:
    [a = (u * s) @ vt], the rows of [vt] are orthonormal, and the shapes
    fit ([vt] is K x N with [N > 0], [u * s] has rows of length K). *)
Definition svd_contract (N : nat) (a0 u : matR) (s : vecR) (vt : matR) : Prop :=
  a0 = matmul (map (fun r => vmul r s) u) vt
  /\ matmul vt (transpose vt) = identity (length vt)
  /\ rows_of N vt /\ (0 < N)%nat /\ vt <> []
  /\ rows_of (length vt) (map (fun r => vmul r s) u).

(** What [constrain_loading] needs of the library in the mode it runs in. *)
Definition loading_ready (N : nat) (p : ParamsR) (c : ConfigR) : Prop :=
  let k := constrain_loading_mode c in
  if disabled k then True
  else if is_str k "svd" then
    exists u s vt, svd (a p) = Returns (u, s, vt)
                   /\ svd_contract N (a p) u s vt
  else if is_str k "fro" then True
  else
    exists nr, row_norms (order_of k) (a p) = Returns nr
               /\ Forall (fun e => 0 <= e) nr
               /\ length nr = length (a p).

Lemma length_transpose_n (N : nat) (M : matR) :
  rows_of N M -> length (transpose_n N M) = N.
Proof.
  induction 1 as [|r M Hr HM IH]; simpl.
  - apply repeat_length.
  - rewrite length_map2, IH, Hr; lia.
Qed.

Lemma ncols_transpose (N : nat) (M : matR) :
  rows_of N M -> M <> [] -> (0 < N)%nat ->
  transpose M <> [] /\ ncols (transpose M) = length M.
Proof.
  intros HM Hne HN.
  pose proof (rows_of_transpose HM) as HT.
  assert (Hlen : length (transpose M) = N).
  { unfold transpose; rewrite (ncols_rows_of HM Hne).
    now apply length_transpose_n. }
  assert (Hne' : transpose M <> [])
    by (intros Heq; rewrite Heq in Hlen; simpl in Hlen; lia).
  split; [exact Hne'|now apply ncols_rows_of].
Qed.

Lemma svd_latent_part (N : nat) (m a0 u : matR) (s : vecR) (vt : matR) :
  svd_contract N a0 u s vt -> a0 <> [] ->
  matmul (matmul m (matmul a0 (transpose vt))) vt = matmul m a0.
Proof.
  intros (Ha & Horth & Hvt & HN & Hne & Hus) Ha0.
  set (us := map (fun r => vmul r s) u) in *.
  destruct (ncols_transpose Hvt Hne HN) as [HTne HTcols].
  pose proof (rows_of_transpose Hvt) as HT.
  assert (Hus_ne : us <> []).
  { intros Heq; rewrite Heq in Ha; apply Ha0; rewrite Ha; reflexivity. }
  assert (Heq : matmul a0 (transpose vt) = us).
  { rewrite Ha.
    rewrite (@matmul_assoc N (length vt) us vt (transpose vt)); auto.
    rewrite Horth; now apply matmul_identity_r. }
  rewrite Heq.
  rewrite (@matmul_assoc (length vt) N m us vt); auto.
  now rewrite <- Ha.
Qed.

(** C5.  [constrain_loading] in SVD mode, in Frobenius mode and in a
    row-norm mode leaves [mu @ a] of every trial as it is, in exact
    arithmetic; in SVD mode the new [a] has orthonormal rows.  This is for
    [eps > 0], a loading matrix with at least one row, means with one
    column per row of [a], and library calls that return what they promise
    ([svd_contract]; row norms that are not negative, one per row). *)
Theorem constrain_loading_latent_part (N : nat) (ts : list TrialR)
  (p : ParamsR) (c : ConfigR) :
  0 < eps c ->
  a p <> [] ->
  Forall (fun t => rows_of (length (a p)) (mu t)) ts ->
  loading_ready N p c ->
  exists ts' p',
    constrain_loading ts p c = Ok (ts', p')
    /\ Forall2 (fun t t' => latent_part t' p' = latent_part t p) ts ts'
    /\ (is_str (constrain_loading_mode c) "svd" = true ->
        matmul (a p') (transpose (a p')) = identity (length (a p'))).
Proof.
  intros Heps Hane Hmu Hready.
  unfold loading_ready in Hready; unfold constrain_loading.
  cbv zeta in Hready.
  destruct (disabled (constrain_loading_mode c)) eqn:Hdis.
  { exists ts, p; split; [reflexivity|]; split.
    - clear; induction ts; constructor; auto.
    - intros Hsvd; exfalso.
      destruct (constrain_loading_mode c) as [|s|o]; simpl in *;
        try discriminate.
      apply String.eqb_eq in Hsvd; subst; discriminate. }
  destruct (is_str (constrain_loading_mode c) "svd") eqn:Hsvd.
  { destruct Hready as (u & s & vt & -> & Hc).
    eexists; eexists; split; [reflexivity|]; split.
    - apply Forall2_map_r, Forall_forall; intros t _.
      unfold latent_part; simpl.
      eapply svd_latent_part; eauto.
    - intros _; simpl; apply Hc. }
  destruct (is_str (constrain_loading_mode c) "fro") eqn:Hfro.
  { eexists; eexists; split; [reflexivity|]; split; [|discriminate].
    apply Forall2_map_r, Forall_forall; intros t _.
    unfold latent_part, matmul; simpl; rewrite map_map.
    apply map_ext; intros r; unfold vecmat.
    rewrite ncols_map_map.
    apply lin_fro.
    pose proof (norm_nonneg (a p)) as Hnorm.
    apply Rgt_not_eq; simpl in *; lra. }
  destruct Hready as (nr & -> & Hnn & Hlen).
  eexists; eexists; split; [reflexivity|]; split; [|discriminate].
  apply Forall2_map_r, Forall_forall; intros t Ht.
  pose proof (proj1 (Forall_forall _ _) Hmu t Ht) as Hrows; simpl in Hrows.
  unfold latent_part, matmul; simpl; rewrite map_map.
  apply map_ext_in; intros r Hr.
  pose proof (proj1 (Forall_forall _ _) Hrows r Hr) as Hrl; simpl in Hrl.
  unfold vecmat.
  replace (ncols (map2 (fun ar sl => map (fun e => e / sl) ar) (a p)
                       (map (fun e => e + eps c) nr)))
    with (ncols (a p)).
  - apply lin_rows; auto.
    + now rewrite length_map.
    + apply Forall_forall; intros e He.
      apply in_map_iff in He; destruct He as (e0 & <- & He0).
      pose proof (proj1 (Forall_forall _ _) Hnn e0 He0) as Hpos.
      apply Rgt_not_eq; simpl in *; lra.
  - destruct (a p) as [|ar a0]; destruct nr as [|e nr]; simpl in *;
      auto; try lia.
    now rewrite length_map.
Qed.

End ConstraintLoadingReal.

Module DemoSvd.
Import Core Demo DemoCore DemoReal.
Local Open Scope R_scope.

(** A decomposition of the loading matrix [[3; 4]]: [u = [[1]]], [s = [5]],
    [vt = [[3/5; 4/5]]]. *)
Definition svd_3_4 (M : matrix R) : call (matrix R * vec R * matrix R) :=
  Returns ([[1]], [5], [[3 / 5; 4 / 5]]).

Definition Extern_svd : Extern R :=
  {| exp_ := exp; trunc_exp := exp; np_empty := 0;
     np_solve := solve1_R; solve := solve1_R; solve_m := solve1m_R;
     slogdet := fun _ => 0;
     svd := svd_3_4;
     row_norms := fun _ M => Returns (map (fun r => vnorm r) M) |}.

Definition params_svd : Params R :=
  {| zdim := 1; ydim := 2; xdim := 1; rank := 1;
     likelihood := [poisson; poisson];
     a := [[3; 4]]; b := [[0; 0]]; noise := [1; 1];
     da := [[0; 0]]; db := [[0; 0]]; cholesky := [] |}.

Definition config_svd : Config R :=
  {| Eniter := 1; Mniter := 1; max_iter := 1; min_iter := 1;
     tol := 1; method := "VB"; use_hessian := true;
     dmu_bound := 5; da_bound := 5; db_bound := 5;
     eps := 1; learning_rate := 1;
     constrain_latent_mode := CFalsy;
     constrain_loading_mode := CStr "svd";
     Hstep := false; runtime_it := None |}.

End DemoSvd.

Section ConstraintLoadingRuns.
Import Core Demo DemoCore DemoReal DemoSvd.

Lemma constrain_loading_latent_part_witness :
  exists ts' p',
    @constrain_loading R _ Extern_svd [trialR] params_svd config_svd
    = Ok (ts', p')
    /\ Forall2 (fun t t' => latent_part t' p' = latent_part t params_svd)
         [trialR] ts'
    /\ a p' = [[3 / 5; 4 / 5]]%R.
Proof.
  destruct (@constrain_loading_latent_part Extern_svd 2 [trialR] params_svd
              config_svd) as (ts' & p' & Hrun & Hlat & _).
  - simpl; lra.
  - discriminate.
  - repeat constructor.
  - unfold loading_ready; simpl.
    exists [[1%R]], [5%R], [[(3 / 5)%R; (4 / 5)%R]].
    split; [reflexivity|].
    unfold svd_contract; simpl.
    split.
    { cbn; repeat match goal with
                  | |- @cons _ _ _ = @cons _ _ _ => apply f_equal2
                  end; first [reflexivity|lra]. }
    split.
    { cbn; repeat match goal with
                  | |- @cons _ _ _ = @cons _ _ _ => apply f_equal2
                  end; first [reflexivity|lra]. }
    split; [repeat constructor|].
    split; [lia|].
    split; [discriminate|repeat constructor].
  - exists ts', p'; split; [exact Hrun|]; split; [exact Hlat|].
    simpl in Hrun; inversion Hrun; reflexivity.
Defined.

End ConstraintLoadingRuns.

(** * Further properties *)

(** ** [vb.py] *)

Section VBFloat.
Context `{Extern float}.
Import VB.

(** [saferate] on binary64 never returns NaN, zero or a negative number,
    whatever [exp] returns: its result is greater than 0. *)
Theorem saferate_positive (t n : nat) (d : VB.data float) (m : matrix float)
  (V : array3 float) (b a : matrix float) :
  PrimFloat.ltb 0 (saferate t n d m V b a) = true.
Proof.
  unfold saferate; cbv zeta.
  match goal with
  | |- context [if ?c then _ else _] => destruct c eqn:Hc
  end.
  - exact Hc.
  - reflexivity.
Qed.

End VBFloat.

Section VBLoops.
Context {A : Type} `{Scalar A} `{Extern A}.
Local Open Scope scalar_scope.
Import VB.

#[local] Abbreviation data := (VB.data A).
#[local] Abbreviation state := (VB.state A).

Lemma col_set_entry_other (t n j : nat) (e : A) (M : matrix A) :
  j <> n -> col j (set_entry t n e M) = col j M.
Proof.
  intros Hj; unfold col, set_entry.
  revert t; induction M as [|r M IH]; intros [|t]; simpl; auto.
  - f_equal; now apply nth_set_nth_other.
  - f_equal; apply IH.
Qed.

Lemma length_set_entry (t n : nat) (e : A) (M : matrix A) :
  length (set_entry t n e M) = length M.
Proof. unfold set_entry; apply length_set_nth. Qed.

(** [updaterate(ts, [n])] recomputes column [n] of [rate] only: every other
    column is as before, and so is the number of rows. *)
Theorem updaterate_other_columns (d : data) (ts : list nat) (n j : nat)
  (st : state) :
  j <> n ->
  col j (updaterate d ts [n] st) = col j (rate st)
  /\ length (updaterate d ts [n] st) = length (rate st).
Proof.
  intros Hj; unfold updaterate.
  generalize (rate st) as R.
  induction ts as [|t ts IH]; intros R; simpl; auto.
  destruct (IH (set_entry t n
                  (saferate t n d (m st) (V st) (b st) (a st)) R))
    as [Hc Hl].
  split.
  - rewrite Hc; now apply col_set_entry_other.
  - rewrite Hl; apply length_set_entry.
Qed.

(** The loop body returned normally ([Next]) for each index of a list, in
    order, from [st] to [st']. *)
Inductive runs_through (body : nat -> state -> VB.flow A)
  : list nat -> state -> state -> Prop :=
| runs_nil (st : state) : runs_through body [] st st
| runs_cons (i : nat) (pre : list nat) (st st1 st2 : state) :
    body i st = Next st1 ->
    runs_through body pre st1 st2 ->
    runs_through body (i :: pre) st st2.

(** The first channel whose gradient is below [eps] in the infinity norm
    ends the whole [b] loop ([break]): after the channels before it were
    processed, the loop returns the state they left, and the channels after
    it are not updated in this outer iteration, whatever their gradients
    are. *)
Theorem b_loop_break (d : data) (last : A) (pre : list nat) (n : nat)
  (rest : list nat) (st st1 : state) :
  runs_through (b_block d last) pre st st1 ->
  (norm_inf (grad_b d st1 n) <? VB.eps) = true ->
  for_loop (b_block d last) (pre ++ n :: rest) st = Ok st1.
Proof.
  intros Hpre Hg.
  induction Hpre as [st|i pre st st1 st2 Hi Hpre IH]; simpl.
  - unfold b_block; now rewrite Hg.
  - rewrite Hi; now apply IH.
Qed.

(** When the solve of a channel raises, the [b] loop goes on with the next
    channel if the exception is [LinAlgError] ([continue], nothing changed),
    and is left with that exception otherwise: only [LinAlgError] is
    caught. *)
Theorem b_loop_solve_raises (d : data) (last : A) (n : nat) (rest : list nat)
  (st : state) (e : exn) :
  (norm_inf (grad_b d st n) <? VB.eps) = false ->
  np_solve (hess_b d st n) (grad_b d st n) = Raises e ->
  (e = LinAlgError ->
   for_loop (b_block d last) (n :: rest) st
   = for_loop (b_block d last) rest st)
  /\ (e <> LinAlgError ->
      for_loop (b_block d last) (n :: rest) st = Raise e st).
Proof.
  intros Hg Hs; split; intros He; simpl; unfold b_block; rewrite Hg, Hs.
  - now subst e.
  - destruct e; try reflexivity; congruence.
Qed.



End VBLoops.

Module DemoVB.
Import Demo.
Local Open Scope float_scope.

(** One time step and three channels; the cached rate of channel 1 equals
    its count. *)
Definition vb_data2 : VB.data float :=
  {| VB.y := [[1; 1; 0]]; VB.Y := [[1]]; VB.mu := [[0]];
     VB.omega := [[[1]]];
     VB.anorm := 1; VB.constrain_a := "lag"; VB.constrain_m := "lag" |}.

Definition vb_state2 : VB.state float :=
  {| VB.b := [[0; 0; 0]]; VB.a := [[1; 1; 1]]; VB.m := [[0.5]];
     VB.V := [[[1]]];
     VB.rate := [[0.5; 1; 0.5]];
     VB.rb := [1; 1; 1]; VB.ra := [1]; VB.rm := [1];
     VB.lam_a := [0]; VB.lam_m := [0];
     VB.last_b := [[0; 0; 0]]; VB.last_a := [[1; 1; 1]];
     VB.last_m := [[0.5]];
     VB.last_rate := [[0.5; 1; 0.5]];
     VB.lam_last_a := [0]; VB.lam_last_m := [0] |}.

(** One time step, one channel and three equal regressors: the Hessian of
    [b] has rank 1. *)
Definition vb_data3 : VB.data float :=
  {| VB.y := [[1]]; VB.Y := [[1; 1; 1]]; VB.mu := [[0]];
     VB.omega := [[[1]]];
     VB.anorm := 1; VB.constrain_a := "lag"; VB.constrain_m := "lag" |}.

Definition vb_state3 : VB.state float :=
  {| VB.b := [[0]; [0]; [0]]; VB.a := [[1]]; VB.m := [[0.5]];
     VB.V := [[[1]]]; VB.rate := [[0.5]];
     VB.rb := [1]; VB.ra := [1]; VB.rm := [1];
     VB.lam_a := [0]; VB.lam_m := [0];
     VB.last_b := [[0]; [0]; [0]]; VB.last_a := [[1]]; VB.last_m := [[0.5]];
     VB.last_rate := [[0.5]];
     VB.lam_last_a := [0]; VB.lam_last_m := [0] |}.

End DemoVB.

Section VBRuns.
Import Demo DemoVB VB.
Local Open Scope float_scope.

(** Recomputing the rate of channel 0 leaves the one of channel 1. *)
Lemma updaterate_other_columns_witness :
  col 1 (updaterate vb_data2 [0%nat] [0%nat] vb_state2)
  = col 1 (rate vb_state2)
  /\ length (updaterate vb_data2 [0%nat] [0%nat] vb_state2)
     = length (rate vb_state2).
Proof.
  apply (@updaterate_other_columns float _ _ vb_data2 [0%nat] 0%nat 1%nat
           vb_state2).
  discriminate.
Defined.

(** Channel 0 takes a step, channel 1 has a zero gradient, and channel 2,
    whose gradient is not zero, is not updated. *)
Lemma b_loop_break_witness :
  for_loop (b_block vb_data2 0) [0%nat; 1%nat; 2%nat] vb_state2
  = Ok (flow_state (b_block vb_data2 0 0 vb_state2)).
Proof.
  apply (@b_loop_break float _ _ vb_data2 0 [0%nat] 1%nat [2%nat] vb_state2
           (flow_state (b_block vb_data2 0 0 vb_state2))).
  - eapply runs_cons; [|apply runs_nil].
    vm_compute; reflexivity.
  - vm_compute; reflexivity.
Defined.

(** The singular system of [vb_data3] is skipped. *)
Lemma b_loop_solve_raises_witness :
  for_loop (b_block vb_data3 0) [0%nat] vb_state3 = Ok vb_state3.
Proof.
  destruct (@b_loop_solve_raises float _ _ vb_data3 0 0%nat [] vb_state3
              LinAlgError) as [Hskip _].
  - vm_compute; reflexivity.
  - vm_compute; reflexivity.
  - rewrite Hskip; reflexivity.
Defined.


End VBRuns.

(** ** [core.py] *)

Section CoreMore.
Context {A : Type} `{Scalar A} `{Extern A} `{Core.Hyper A}.
Import Core.

#[local] Abbreviation Params := (Core.Params A).
#[local] Abbreviation Config := (Core.Config A).
#[local] Abbreviation Trial := (Core.Trial A).
#[local] Abbreviation work := (Core.work A).
#[local] Abbreviation mwork := (Core.mwork A).

(** *** The E step *)

(** With [config["Eniter"]] below 1 the E step returns every trial as it
    is, for any list of trials: no entry is read, so a trial without [w],
    [v] or [dmu] raises nothing. *)
Theorem estep_no_iterations (ts : list Trial) (p : Params) (c : Config)
  (lg : list log_entry) :
  (Eniter c < 1)%Z -> estep ts p c lg = Ok (ts, lg).
Proof.
  intros Hn; induction ts as [|t ts IH]; simpl; auto.
  unfold infer_single_trial.
  destruct (Z.ltb_spec (Eniter c) 1) as [_|Hge]; [|lia].
  now rewrite IH.
Qed.

(** With at least one iteration to run, a trial that lacks one of the
    entries [w], [v], [dmu], or whose length is no key of
    [params["cholesky"]], raises [KeyError] before anything is computed: the
    trial, the log and the trials after it are left as they are.  Unlike
    [update_w] and [update_v], the E step creates no entry. *)
Theorem estep_missing_entry (t : Trial) (ts : list Trial) (p : Params)
  (c : Config) (lg : list log_entry) :
  (1 <= Eniter c)%Z ->
  w t = None \/ v t = None \/ dmu t = None
  \/ lookup (length (y t)) (cholesky p) = None ->
  infer_single_trial t p c lg = Raise KeyError (t, lg)
  /\ estep (t :: ts) p c lg = Raise KeyError (t :: ts, lg).
Proof.
  intros Hn Hmiss.
  assert (Hone : infer_single_trial t p c lg = Raise KeyError (t, lg)).
  { unfold infer_single_trial.
    destruct (Z.ltb_spec (Eniter c) 1) as [Hlt|_]; [lia|].
    destruct (w t) as [w0|]; [|reflexivity].
    destruct (v t) as [v0|]; [|reflexivity].
    destruct (dmu t) as [d0|]; [|reflexivity].
    destruct Hmiss as [Hm|[Hm|[Hm|Hm]]]; try discriminate.
    now rewrite Hm. }
  split; [exact Hone|].
  simpl; now rewrite Hone.
Qed.

Lemma for_dims_mean_keeps_v (p : Params) (c : Config) (prior : list (matrix A))
  (residual : matrix A) (ls : list nat) (k : work) :
  wk_v (fst (for_dims (mean_update p c prior residual) ls k)) = wk_v k.
Proof.
  revert k; induction ls as [|l ls IH]; intros k; simpl; auto.
  destruct (mean_update p c prior residual l k) as [k'|] eqn:Hk; simpl; auto.
  rewrite IH.
  unfold mean_update in Hk.
  destruct (nth_error prior l); [|discriminate].
  destruct (delta_mu_of _ _ _ _ _ _); inversion Hk; reflexivity.
Qed.

Lemma infer_loop_keeps_v (n : nat) (p : Params) (c : Config)
  (prior : list (matrix A)) (y xb : matrix A) (k : work) :
  String.eqb (method c) "VB" = false ->
  wk_v (fst (infer_loop n p c prior y xb k)) = wk_v k.
Proof.
  intros Hm; revert k; induction n as [|n IH]; intros k; simpl; auto.
  destruct (infer_iteration p c prior y xb k) as [k' failed] eqn:Hit.
  assert (Hv : wk_v k' = wk_v k).
  { unfold infer_iteration in Hit; cbv zeta in Hit.
    match type of Hit with
    | context [for_dims ?body ?ls k] =>
        pose proof (for_dims_mean_keeps_v p c prior
                      (residual_of (likelihood p) (noise p) y
                         (eta_of (wk_mu k) (a p) xb)
                         (rate_of (eta_of (wk_mu k) (a p) xb) (wk_v k) (a p)))
                      ls k) as Hkeep;
        destruct (for_dims body ls k) as [k1 f1]
    end.
    simpl in Hkeep.
    destruct f1; [inversion Hit; subst; exact Hkeep|].
    rewrite Hm in Hit; inversion Hit; subst; exact Hkeep. }
  destruct failed; simpl; [exact Hv|].
  rewrite IH; exact Hv.
Qed.

(** With a method other than ["VB"] the E step of a trial never writes the
    posterior variance: whether it returns or raises, [trial["v"]] is the
    entry it was given. *)
Theorem estep_map_keeps_variance (t : Trial) (p : Params) (c : Config)
  (lg : list log_entry) :
  String.eqb (method c) "VB" = false ->
  v (fst (store_of (infer_single_trial t p c lg))) = v t.
Proof.
  intros Hm; unfold infer_single_trial.
  destruct (Eniter c <? 1)%Z; [reflexivity|].
  destruct (w t) as [w0|]; [|reflexivity].
  destruct (v t) as [v0|] eqn:Hv; [|now rewrite ?Hv].
  destruct (dmu t) as [d0|]; [|simpl; now rewrite Hv].
  destruct (lookup _ _) as [prior|]; [|simpl; now rewrite Hv].
  match goal with
  | |- context [infer_loop ?n p c prior ?y ?xb ?k0] =>
      pose proof (@infer_loop_keeps_v n p c prior y xb k0 Hm) as Hkeep;
      destruct (infer_loop n p c prior y xb k0) as [k failed]
  end.
  simpl in Hkeep.
  destruct failed; simpl; now rewrite Hkeep.
Qed.

Lemma infer_single_trial_keeps_observations (t : Trial) (p : Params)
  (c : Config) (lg : list log_entry) :
  y (fst (store_of (infer_single_trial t p c lg))) = y t
  /\ x (fst (store_of (infer_single_trial t p c lg))) = x t.
Proof.
  unfold infer_single_trial.
  destruct (Eniter c <? 1)%Z; [split; reflexivity|].
  destruct (w t) as [w0|]; [|split; reflexivity].
  destruct (v t) as [v0|]; [|split; reflexivity].
  destruct (dmu t) as [d0|]; [|split; reflexivity].
  destruct (lookup _ _) as [prior|]; [|split; reflexivity].
  match goal with
  | |- context [infer_loop ?n p c prior ?y ?xb ?k0] =>
      destruct (infer_loop n p c prior y xb k0) as [k failed]
  end.
  destruct failed; split; reflexivity.
Qed.

(** The E step writes neither the observations nor the regressors, and
    adds or drops no trial: whether it returns or raises, the list it leaves
    has the [y] and the [x] of the list it was given, trial by trial. *)
Theorem estep_keeps_observations (ts : list Trial) (p : Params) (c : Config)
  (lg : list log_entry) :
  map (@y A) (fst (store_of (estep ts p c lg))) = map (@y A) ts
  /\ map (@x A) (fst (store_of (estep ts p c lg))) = map (@x A) ts.
Proof.
  revert lg; induction ts as [|t ts IH]; intros lg; simpl; auto.
  destruct (infer_single_trial_keeps_observations t p c lg) as [Hy Hx].
  destruct (infer_single_trial t p c lg) as [[t' lg']|e [t' lg']];
    simpl in Hy, Hx.
  - destruct (IH lg') as [IHy IHx].
    destruct (estep ts p c lg') as [[ts' lg'']|e [ts' lg'']];
      simpl in *; split; congruence.
  - simpl; split; congruence.
Qed.

(** *** The M step *)

Lemma for_channels_poisson (lik : list family) (c : Config) (y : matrix A)
  (x : array3 A) (mu v r : matrix A) (ns : list nat) (k : mwork) :
  Forall (fun n => nth_error lik n = Some poisson) ns ->
  exists k', for_channels (channel_update lik c y x mu v r) ns k = Ok k'.
Proof.
  intros Hns; revert k; induction Hns as [|n ns Hn Hns IH]; intros k; simpl.
  - now exists k.
  - unfold channel_update at 1; rewrite Hn.
    destruct (delta_a_of _ _ _ _ _ _) as [delta_a fa].
    destruct (delta_b_of _ _ _ _) as [delta_b fb].
    apply IH.
Qed.

Lemma mstep_loop_poisson (niter : nat) (p : Params) (c : Config)
  (y : matrix A) (x : array3 A) (mu v : matrix A) (nz : vec A) (k : mwork) :
  (forall n, n < ydim p -> nth_error (likelihood p) n = Some poisson) ->
  exists s, mstep_loop niter p c y x mu v nz k = Ok s.
Proof.
  intros Hlik; revert nz k; induction niter as [|niter IH]; intros nz k.
  - simpl; eauto.
  - simpl.
    match goal with
    | |- context [for_channels ?body ?ns k] =>
        destruct (@for_channels_poisson (likelihood p) c y x mu v
                    (rate_of (eta_of mu (mw_a k) (einsum_ijk_jk x (mw_b k)))
                       v (mw_a k)) ns k) as [k' Hk']
    end.
    + apply Forall_forall; intros n Hin; apply in_seq in Hin.
      apply Hlik; lia.
    + rewrite Hk'; apply IH.
Qed.

(** When every channel is a Poisson channel, the M step raises nothing
    past its first lines, whatever the linear solver does (a failed solve is
    logged and replaced by the gradient step): with at least one trial and
    the entry [v] in every trial, [mstep] returns. *)
Theorem mstep_poisson_returns (ts : list Trial) (p : Params) (c : Config)
  (lg : list log_entry) :
  (forall n, n < ydim p -> nth_error (likelihood p) n = Some poisson) ->
  ts <> [] ->
  (forall t, In t ts -> v t <> None) ->
  exists p' lg', mstep ts p c lg = Ok (p', lg').
Proof.
  intros Hlik Hts Hv; unfold mstep.
  destruct (Mniter c <? 1)%Z; [eauto|].
  destruct ts as [|t0 ts0]; [congruence|]; simpl concatenate.
  assert (Hent : exists vs, entries (@v A) (t0 :: ts0) = Some vs).
  { clear Hts; induction (t0 :: ts0) as [|t ts IH]; simpl; eauto.
    destruct (v t) as [vt|] eqn:Hvt.
    - destruct IH as [vs Hvs]; [intros t' Hin; apply Hv; now right|].
      rewrite Hvs; eauto.
    - exfalso; apply (Hv t); [now left|exact Hvt]. }
  destruct Hent as [vs Hvs]; rewrite Hvs.
  match goal with
  | |- context [mstep_loop ?n p c ?y ?x ?mu ?v ?nz ?k] =>
      destruct (@mstep_loop_poisson n p c y x mu v nz k Hlik) as [[p' lg'] Hs]
  end.
  rewrite Hs; eauto.
Qed.

Lemma for_channels_keeps_deltas (lik : list family) (c : Config)
  (y : matrix A) (x : array3 A) (mu v r : matrix A) (ns : list nat)
  (k : mwork) :
  Forall (fun f => f <> poisson) lik ->
  let k' := store_of (for_channels (channel_update lik c y x mu v r) ns k) in
  mw_da k' = mw_da k /\ mw_db k' = mw_db k.
Proof.
  intros Hlik; revert k; induction ns as [|n ns IH]; intros k; simpl; auto.
  assert (Hone :
    let k1 := store_of (channel_update lik c y x mu v r n k) in
    mw_da k1 = mw_da k /\ mw_db k1 = mw_db k).
  { unfold channel_update.
    destruct (nth_error lik n) as [f|] eqn:Hn; [|simpl; auto].
    destruct f; simpl; auto.
    - apply nth_error_In in Hn.
      rewrite Forall_forall in Hlik; now apply Hlik in Hn.
    - destruct (solve _ _); simpl; auto.
      destruct (solve _ _); simpl; auto. }
  destruct (channel_update lik c y x mu v r n k) as [k1|e k1]; simpl in *.
  - destruct (IH k1) as [Ha Hb]; destruct Hone; split; congruence.
  - exact Hone.
Qed.

Lemma mstep_loop_keeps_deltas (niter : nat) (p : Params) (c : Config)
  (y : matrix A) (x : array3 A) (mu v : matrix A) (nz : vec A) (k : mwork) :
  Forall (fun f => f <> poisson) (likelihood p) ->
  let p' := fst (store_of (mstep_loop niter p c y x mu v nz k)) in
  da p' = mw_da k /\ db p' = mw_db k.
Proof.
  intros Hlik; revert nz k; induction niter as [|niter IH]; intros nz k;
    simpl; auto.
  match goal with
  | |- context [for_channels ?body ?ns k] =>
      pose proof (@for_channels_keeps_deltas (likelihood p) c y x mu v
                    (rate_of (eta_of mu (mw_a k) (einsum_ijk_jk x (mw_b k)))
                       v (mw_a k)) ns k Hlik) as Hk;
      destruct (for_channels body ns k) as [k'|e k']
  end; simpl in Hk.
  - destruct (IH (var0 (msub y (eta_of mu (mw_a k)
                                  (einsum_ijk_jk x (mw_b k))))) k')
      as [Ha Hb].
    destruct Hk; split; congruence.
  - simpl; exact Hk.
Qed.

(** Without a Poisson channel the M step never writes the steps
    [params["da"]] and [params["db"]]: a Gaussian channel gets its least
    squares solution and records no step, so the convergence test of [vem]
    compares the steps the parameters came with.  This holds whether
    [mstep] returns or raises. *)
Theorem mstep_gaussian_keeps_deltas (ts : list Trial) (p : Params)
  (c : Config) (lg : list log_entry) :
  Forall (fun f => f <> poisson) (likelihood p) ->
  da (fst (store_of (mstep ts p c lg))) = da p
  /\ db (fst (store_of (mstep ts p c lg))) = db p.
Proof.
  intros Hlik; unfold mstep.
  destruct (Mniter c <? 1)%Z; [simpl; auto|].
  destruct (concatenate (map (@y A) ts)); [|simpl; auto].
  destruct (concatenate (map (@x A) ts)); [|simpl; auto].
  destruct (concatenate (map (@mu A) ts)); [|simpl; auto].
  destruct (entries (@v A) ts); [|simpl; auto].
  match goal with
  | |- context [mstep_loop ?n p c ?y ?x ?mu ?v ?nz ?k] =>
      exact (@mstep_loop_keeps_deltas n p c y x mu v nz k Hlik)
  end.
Qed.

Lemma nth_map2_set_nth (n i : nat) (M : matrix A) (cv : vec A) :
  i < length (map2 (fun r e => set_nth n e r) M cv) ->
  nth i (map2 (fun r e => set_nth n e r) M cv) []
  = set_nth n (nth i cv s0) (nth i M []).
Proof.
  revert i cv; induction M as [|r M IH]; intros i [|e cv]; simpl;
    try lia.
  destruct i as [|i]; [reflexivity|].
  intros Hi; apply IH; lia.
Qed.

Lemma nth_zero_tail (i : nat) (bn : vec A) :
  1 <= i -> nth i (zero_tail bn) s0 = s0.
Proof.
  intros Hi; destruct bn as [|b0 rest]; simpl.
  - destruct i; reflexivity.
  - destruct i as [|i]; [lia|].
    clear Hi; revert i; induction rest as [|e rest IH]; intros [|i]; simpl;
      auto.
Qed.

(** After the update of a Gaussian channel [n], the regression
    coefficients of the channel other than the first are zero: row [i >= 1]
    of [b] has 0 in column [n], whatever the least squares solve
    returned. *)
Theorem gaussian_channel_zero_history (lik : list family) (c : Config)
  (y : matrix A) (x : array3 A) (mu v r : matrix A) (n i : nat)
  (k k' : mwork) :
  nth_error lik n = Some gaussian ->
  channel_update lik c y x mu v r n k = Ok k' ->
  1 <= i < length (mw_b k') ->
  n < length (nth i (mw_b k) []) ->
  nth n (nth i (mw_b k') []) s0 = s0.
Proof.
  intros Hlik Hrun [Hi Hlen] Hn.
  unfold channel_update in Hrun; rewrite Hlik in Hrun.
  destruct (solve _ _) as [an|e]; [|discriminate].
  destruct (solve _ _) as [bn|e]; [|discriminate].
  inversion Hrun; subst k'; clear Hrun; simpl in *.
  unfold set_col in *.
  rewrite nth_map2_set_nth by exact Hlen.
  rewrite nth_zero_tail by exact Hi.
  now apply nth_set_nth_same.
Qed.

(** *** The drivers *)

(** With no trial, [vem] raises [ValueError] in its first pass, at the
    first [np.concatenate], before any step is taken; [params] and a
    [config] without a [runtime] entry are as they were. *)
Theorem vem_no_trials (cbs : list (callback A)) (p : Params) (c : Config)
  (lg : list log_entry) :
  (1 <= max_iter c)%Z ->
  runtime_it c = None ->
  vem cbs ([], p, c) lg = Raise ValueError (([], p, c), lg, 1).
Proof.
  intros Hn Hrt; unfold vem.
  destruct (Z.to_nat (max_iter c)) as [|n] eqn:Hz; [lia|].
  simpl; unfold tick; rewrite Hrt; reflexivity.
Qed.

(** [infer] runs the E step with [Eniter] set to [max_iter].  When the E
    step returns, [config] is put back as it was; when it raises, the
    exception leaves [infer] with [config["Eniter"]] still set to
    [max_iter].  [params] is as before either way. *)
Theorem infer_restores_Eniter (ts : list Trial) (p : Params) (c : Config)
  (lg : list log_entry) :
  match infer (ts, p, c) lg with
  | Ok ((ts', p', c'), lg') =>
      estep ts p (with_Eniter c (max_iter c)) lg = Ok (ts', lg')
      /\ p' = p /\ c' = c
  | Raise e ((ts', p', c'), lg') =>
      estep ts p (with_Eniter c (max_iter c)) lg = Raise e (ts', lg')
      /\ p' = p /\ c' = with_Eniter c (max_iter c)
  end.
Proof.
  unfold infer.
  destruct (estep ts p (with_Eniter c (max_iter c)) lg)
    as [[ts' lg']|e [ts' lg']]; repeat split.
  now destruct c.
Qed.

(** *** [update_w] *)

(** Every channel the weights are computed for is a Poisson or a Gaussian
    channel; for a channel of another family the code leaves the entries of
    [U] uninitialised. *)
Definition channels_known (p : Params) : Prop :=
  forall n, n < ncols (a p) ->
    nth n (likelihood p) (other_family "") = poisson
    \/ nth n (likelihood p) (other_family "") = gaussian.

(** [update_w] is idempotent when every channel is a Poisson or a Gaussian
    channel: the weights depend on [mu], [v] and the parameters only, none
    of which it changes, so a second call leaves what the first one
    left. *)
Theorem update_w_idempotent (ts : list Trial) (p : Params) (c : Config) :
  channels_known p ->
  update_w (update_w ts p c) p c = update_w ts p c.
Proof.
  intros _; unfold update_w; rewrite map_map.
  apply map_ext; intros t.
  unfold update_w_trial; simpl; reflexivity.
Qed.

(** *** [update_v] *)

(** With the method ["VB"], a trial whose length is no key of
    [params["cholesky"]] makes [update_v] raise [KeyError]; by then the
    entries [w] and [v] of that trial have been created where they were
    missing, and the trials after it are untouched. *)
Theorem update_v_missing_prior (t : Trial) (ts : list Trial) (p : Params)
  (c : Config) (lg : list log_entry) :
  method c = "VB"%string ->
  lookup (length (mu t)) (cholesky p) = None ->
  update_v (t :: ts) p c lg
  = Raise KeyError
      ({| y := y t; x := x t; mu := mu t;
          w := Some (setdefault (w t) (mu t));
          v := Some (setdefault (v t) (mu t));
          dmu := dmu t |} :: ts, lg).
Proof.
  intros Hm Hk; unfold update_v; rewrite Hm; simpl.
  unfold update_v_trial; rewrite Hk; reflexivity.
Qed.

End CoreMore.

Section CoreReal.
Context `{Extern R}.
Import Core.
Local Open Scope R_scope.

#[local] Abbreviation ParamsR := (Core.Params R).
#[local] Abbreviation ConfigR := (Core.Config R).
#[local] Abbreviation TrialR := (Core.Trial R).
#[local] Abbreviation workR := (Core.work R).

Lemma map_plus_zero (u : vecR) : map (fun e => e + 0) u = u.
Proof.
  induction u as [|e u IH]; simpl; auto.
  rewrite IH; f_equal; lra.
Qed.

Lemma map_const_zero {X : Type} (u : list X) :
  map (fun _ => 0) u = zeros (length u).
Proof.
  induction u as [|e u IH]; simpl; auto.
  rewrite IH; reflexivity.
Qed.

(** When the solve of the mean update of latent dimension [l] raises,
    whatever the exception, it is logged and the step is the number 0: in
    exact arithmetic [mu] is left as it is, column [l] of [dmu] is set to
    zero, and the update of the next dimension follows. *)
Theorem e_step_solve_failure (p : ParamsR) (c : ConfigR) (prior : list matR)
  (residual : matR) (l : nat) (wk : workR) (G : matR) (e : exn) :
  nth_error prior l = Some G ->
  (let wG := rowscale (col l (wk_w wk)) G in
   solve (madd (identity (rank p)) (matmul (transpose G) wG))
         (matvec (transpose wG)
            (u_of G (matvec residual (row l (a p))) (col l (wk_mu wk))))
   = Raises e) ->
  exists wk',
    mean_update p c prior residual l wk = Some wk'
    /\ wk_mu wk' = wk_mu wk
    /\ wk_dmu wk' = set_col l (zeros (length (wk_dmu wk))) (wk_dmu wk)
    /\ wk_w wk' = wk_w wk /\ wk_v wk' = wk_v wk
    /\ wk_log wk' = wk_log wk ++ [LogException "infer_single_trial"].
Proof.
  intros Hprior Hsolve; cbv zeta in Hsolve.
  unfold mean_update; rewrite Hprior.
  unfold delta_mu_of; cbv zeta; rewrite Hsolve.
  eexists; split; [reflexivity|]; simpl.
  repeat split.
  - rewrite map_plus_zero; apply set_col_same.
  - now rewrite map_const_zero, length_col.
Qed.


Lemma rowscale_zeros_l (k : nat) (G : matR) :
  rows_of k G -> rowscale (zeros (length G)) G = zeros2 (length G) k.
Proof.
  unfold rowscale, zeros2, zeros.
  induction 1 as [|r G Hr HG IH]; simpl; auto.
  change (map (smul s0) r) with (vscale 0 r).
  rewrite vscale_0, Hr; f_equal; exact IH.
Qed.

Lemma lin_zeros2 (n t : nat) (v : vecR) : lin n v (zeros2 t n) = zeros n.
Proof.
  unfold lin, zeros2.
  revert v; induction t as [|t IH]; intros [|e v]; simpl; auto.
  change (map (smul e) (zeros n)) with (vscale e (zeros n)).
  rewrite vscale_zeros.
  change (fold_right vadd (zeros n) (map2 vscale v (repeat (zeros n) t)))
    with (colsum n (map2 vscale v (repeat (zeros n) t))).
  rewrite IH.
  apply vadd_zeros_l_len, length_zeros.
Qed.

Lemma matmul_zeros2_r (t n : nat) (M : matR) :
  (0 < t)%nat -> matmul M (zeros2 t n) = zeros2 (length M) n.
Proof.
  intros Ht; unfold matmul, vecmat.
  assert (Hn : ncols (zeros2 t n : matR) = n).
  { destruct t; [lia|]; simpl; apply length_zeros. }
  rewrite Hn.
  induction M as [|r M IH]; simpl; auto.
  rewrite lin_zeros2; unfold zeros2 in *; simpl; f_equal; exact IH.
Qed.

Lemma msub_zeros2_r (n : nat) (M : matR) :
  rows_of n M -> msub M (zeros2 (length M) n) = M.
Proof.
  unfold msub, zeros2.
  induction 1 as [|r M Hr HM IH]; simpl; auto.
  rewrite vsub_zeros_r_len by exact Hr.
  f_equal; exact IH.
Qed.

Lemma map2_same {X Y : Type} (f : X -> X -> Y) (u : list X) :
  map2 f u u = map (fun e => f e e) u.
Proof. induction u as [|e u IH]; simpl; auto; now rewrite IH. Qed.

(** The variance update with all-zero weights: when [solve] returns [M] for
    the system it is then given (the identity and a zero right-hand side),
    the new column of [v] is the diagonal of [G G'], the marginal variance
    of the prior, whatever [M] is. *)
Lemma v_col_zero_weights (rk : nat) (G M : matR) :
  rows_of rk G -> G <> [] -> (0 < rk)%nat ->
  solve_m (identity rk) (zeros2 rk rk) = Returns M ->
  rows_of rk M -> M <> [] ->
  v_col_of rk G (zeros (length G)) = Returns (map (fun g => dot g g) G).
Proof.
  intros HG HG0 Hrk Hsolve HM HM0.
  assert (Ht : (0 < length G)%nat) by (destruct G; [congruence|simpl; lia]).
  unfold v_col_of; cbv zeta.
  rewrite (rowscale_zeros_l HG).
  rewrite (matmul_zeros2_r rk (transpose G) Ht).
  assert (Hlen : length (transpose G) = rk).
  { unfold transpose; rewrite (ncols_rows_of HG HG0).
    now apply length_transpose_n. }
  rewrite Hlen.
  replace (madd (identity rk) (zeros2 rk rk)) with (identity rk : matR).
  2:{ symmetry.
      rewrite <- (length_identity rk) at 2.
      apply madd_zeros2_r, rows_of_identity. }
  rewrite Hsolve.
  rewrite (matmul_zeros2_r rk G Hrk).
  rewrite (msub_zeros2_r HG).
  rewrite (@matmul_zeros2_l rk rk rk M HM HM0).
  rewrite (matmul_zeros2_r rk G Hrk).
  rewrite (madd_zeros2_r HG).
  rewrite map2_same, map_map; reflexivity.
Qed.

Lemma nth_map_const_zero (l : nat) (r : vecR) :
  nth l (map (fun _ => 0) r) 0 = 0.
Proof. revert l; induction r as [|e r IH]; intros [|l]; simpl; auto. Qed.

Lemma col_zeros_like (l : nat) (mu0 : matR) :
  col l (zeros_like mu0) = zeros (length mu0).
Proof.
  unfold col, zeros_like.
  induction mu0 as [|r mu0 IH]; [reflexivity|].
  simpl; rewrite nth_map_const_zero.
  apply (f_equal (cons 0)); exact IH.
Qed.

(** [update_v] on a trial that came without weights: [setdefault] creates
    all-zero weights, and with them the variance of latent dimension [l]
    becomes the diagonal of [G G'] for the prior factor [G] of [l], the
    marginal variance of the prior; nothing is logged. *)
Theorem update_v_prior_variance (rk : nat) (prior : list matR)
  (mu0 v0 : matR) (l : nat) (lg : list log_entry) (G M : matR) :
  nth_error prior l = Some G ->
  rows_of rk G -> length G = length mu0 -> G <> [] -> (0 < rk)%nat ->
  solve_m (identity rk) (zeros2 rk rk) = Returns M ->
  rows_of rk M -> M <> [] ->
  update_v_dim rk prior (setdefault None mu0) l (v0, lg)
  = Ok (set_col l (map (fun g => dot g g) G) v0, lg).
Proof.
  intros Hprior HG Hlen HG0 Hrk Hsolve HM HM0.
  unfold update_v_dim; rewrite Hprior; simpl setdefault.
  rewrite col_zeros_like, <- Hlen.
  rewrite (v_col_zero_weights HG HG0 Hrk Hsolve HM HM0).
  reflexivity.
Qed.


(** *** Norms under a common divisor *)

Lemma vsum_vmul_div (s : R) (r : vecR) :
  s <> 0 ->
  vsum (vmul (map (fun e => e / s) r) (map (fun e => e / s) r))
  = vsum (vmul r r) / (s * s).
Proof.
  intros Hs; induction r as [|e r IH].
  - simpl; unfold Rdiv; ring.
  - change (vsum (vmul (map (fun e => e / s) (e :: r))
                       (map (fun e => e / s) (e :: r))))
      with (e / s * (e / s)
            + vsum (vmul (map (fun e => e / s) r) (map (fun e => e / s) r))).
    rewrite IH.
    change (vsum (vmul (e :: r) (e :: r))) with (e * e + vsum (vmul r r)).
    field; exact Hs.
Qed.

Lemma vsum_vmul_nonneg (r : vecR) : 0 <= vsum (vmul r r).
Proof.
  induction r as [|e r IH]; [simpl; lra|].
  change (vsum (vmul (e :: r) (e :: r))) with (e * e + vsum (vmul r r)).
  pose proof (Rle_0_sqr e) as He; unfold Rsqr in He; lra.
Qed.

Lemma sqrt_div_sqr (x s : R) : 0 <= x -> 0 < s -> sqrt (x / (s * s)) = sqrt x / s.
Proof.
  intros Hx Hs.
  rewrite sqrt_div_alt by nra.
  rewrite sqrt_square by lra; reflexivity.
Qed.

Lemma vnorm_div (s : R) (r : vecR) :
  0 < s -> vnorm (map (fun e => e / s) r) = vnorm r / s.
Proof.
  intros Hs; unfold vnorm; simpl ssqrt.
  rewrite vsum_vmul_div by lra.
  apply sqrt_div_sqr; [apply vsum_vmul_nonneg|exact Hs].
Qed.

Lemma msum_msquare_div (s : R) (M : matR) :
  s <> 0 ->
  msum (msquare (map (map (fun e => e / s)) M))
  = msum (msquare M) / (s * s).
Proof.
  intros Hs; induction M as [|r M IH].
  - unfold msum, msquare, vsum; simpl; unfold Rdiv; ring.
  - change (msum (msquare (map (map (fun e => e / s)) (r :: M))))
      with (vsum (vmul (map (fun e => e / s) r) (map (fun e => e / s) r))
            + msum (msquare (map (map (fun e => e / s)) M))).
    rewrite IH, (vsum_vmul_div r Hs).
    change (msum (msquare (r :: M)))
      with (vsum (vmul r r) + msum (msquare M)).
    field; exact Hs.
Qed.

Lemma msum_msquare_nonneg (M : matR) : 0 <= msum (msquare M).
Proof.
  induction M as [|r M IH]; [unfold msum, msquare, vsum; simpl; lra|].
  change (msum (msquare (r :: M))) with (vsum (vmul r r) + msum (msquare M)).
  pose proof (vsum_vmul_nonneg r) as Hr; lra.
Qed.

Lemma norm_div (s : R) (M : matR) :
  0 < s -> norm (map (map (fun e => e / s)) M) = norm M / s.
Proof.
  intros Hs; unfold norm; simpl ssqrt.
  rewrite msum_msquare_div by lra.
  apply sqrt_div_sqr; [apply msum_msquare_nonneg|exact Hs].
Qed.

(** In the mode ["fro"], with [eps > 0], [constrain_loading] returns and
    leaves a loading matrix of Frobenius norm [n / (n + eps)], for the norm
    [n] of the matrix it was given: below 1 always, and 0 for an all-zero
    matrix, which raises nothing. *)
Theorem constrain_loading_fro_norm (ts : list TrialR) (p : ParamsR)
  (c : ConfigR) :
  is_str (constrain_loading_mode c) "fro" = true ->
  0 < eps c ->
  exists ts' p',
    constrain_loading ts p c = Ok (ts', p')
    /\ norm (a p') = norm (a p) / (norm (a p) + eps c)
    /\ norm (a p') < 1.
Proof.
  intros Hk Heps; unfold constrain_loading.
  destruct (constrain_loading_mode c) as [|s|o]; simpl in Hk;
    try discriminate.
  apply String.eqb_eq in Hk; subst s; simpl.
  eexists; eexists; split; [reflexivity|].
  pose proof (norm_nonneg (a p)) as Hn.
  assert (Hs : 0 < norm (a p) + eps c) by lra.
  pose proof (norm_div (a p) Hs) as Hnd.
  split; [exact Hnd|].
  change (norm (map (map (fun e => e / (norm (a p) + eps c))) (a p)) < 1).
  rewrite Hnd.
  apply Rmult_lt_reg_r with (r := norm (a p) + eps c); [exact Hs|].
  unfold Rdiv; rewrite Rmult_assoc, Rinv_l by lra; lra.
Qed.

(** *** Centring *)

Lemma nth_map2_R (f : R -> R -> R) (i : nat) (u v : vecR) :
  (i < length u)%nat -> (i < length v)%nat ->
  nth i (map2 f u v) 0 = f (nth i u 0) (nth i v 0).
Proof.
  revert i v; induction u as [|a0 u IH]; intros i [|b0 v] Hu Hv; simpl in *;
    try lia.
  destruct i as [|i]; [reflexivity|].
  apply IH; lia.
Qed.

Lemma nth_map_R (f : R -> R) (i : nat) (u : vecR) :
  (i < length u)%nat -> nth i (map f u) 0 = f (nth i u 0).
Proof.
  revert i; induction u as [|a0 u IH]; intros i Hu; simpl in *; try lia.
  destruct i as [|i]; [reflexivity|].
  apply IH; lia.
Qed.

Lemma nth_zeros (i n : nat) : nth i (zeros n : vecR) 0 = 0.
Proof.
  unfold zeros; revert i; induction n as [|n IH]; intros [|i]; simpl; auto.
Qed.

Lemma colsum_centered (L : nat) (mean : vecR) (m : matR) :
  rows_of L m -> length mean = L ->
  colsum L (map (fun r => vsub r mean) m)
  = vsub (colsum L m) (vscale (INR (length m)) mean).
Proof.
  intros Hm Hmean; induction Hm as [|r m Hr Hm IH].
  - simpl colsum; simpl length; simpl INR.
    rewrite vscale_0, Hmean.
    symmetry; apply vsub_zeros_r_len, length_zeros.
  - change (colsum L (map (fun r0 => vsub r0 mean) (r :: m)))
      with (vadd (vsub r mean) (colsum L (map (fun r0 => vsub r0 mean) m))).
    change (colsum L (r :: m)) with (vadd r (colsum L m)).
    rewrite IH.
    pose proof (length_colsum Hm) as HS.
    change (length (r :: m)) with (S (length m)); rewrite S_INR.
    apply nth_ext with (d := 0) (d' := 0).
    + rewrite !length_vadd, !length_vsub, !length_vadd, !length_vscale; lia.
    + intros i Hi.
      rewrite length_vadd, !length_vsub, length_vscale in Hi.
      unfold vadd, vsub, vscale.
      rewrite !nth_map2_R, !nth_map_R;
        rewrite ?length_map2, ?length_map; try lia.
      simpl; ring.
Qed.

Lemma mean0_centered (L : nat) (m : matR) :
  rows_of L m -> m <> [] ->
  mean0 (map (fun r => vsub r (mean0 m)) m) = zeros L.
Proof.
  intros Hm Hm0.
  pose proof (length_mean0 Hm Hm0) as Hmean.
  assert (Hn : INR (length m) <> 0).
  { apply not_0_INR; destruct m; [congruence|simpl; lia]. }
  assert (Hrows : rows_of L (map (fun r => vsub r (mean0 m)) m)).
  { unfold rows_of in *; rewrite Forall_map.
    eapply Forall_impl; [|exact Hm]; simpl; intros r Hr.
    rewrite length_vsub; lia. }
  unfold mean0 at 1.
  rewrite (@ncols_rows_of L _ Hrows) by (destruct m; [congruence|discriminate]).
  rewrite (@colsum_centered L (mean0 m) m Hm Hmean), length_map.
  pose proof (length_colsum Hm) as HS.
  apply nth_ext with (d := 0) (d' := 0).
  - rewrite length_map, length_vsub, length_vscale, length_zeros; lia.
  - intros i Hi.
    rewrite length_map, length_vsub, length_vscale in Hi.
    rewrite nth_zeros.
    change (sdiv ?x ?y) with (x / y).
    rewrite nth_map_R by (rewrite length_vsub, length_vscale; lia).
    unfold vsub, vscale.
    rewrite nth_map2_R, nth_map_R; rewrite ?length_map; try lia.
    unfold mean0; rewrite (ncols_rows_of Hm Hm0).
    rewrite nth_map_R by lia.
    simpl; field; auto.
Qed.

Lemma concat_centered (mean : vecR) (ts : list TrialR) :
  concat (map (@mu R)
            (map (fun t => with_mu t (map (fun r => vsub r mean) (mu t))) ts))
  = map (fun r => vsub r mean) (concat (map (@mu R) ts)).
Proof.
  induction ts as [|t ts IH]; simpl; auto.
  rewrite IH, map_app; reflexivity.
Qed.

(** In the mode ["location"], [constrain_latent] leaves latent means whose
    mean over all time steps of all trials is zero in every dimension. *)
Theorem constrain_latent_location_zero_mean (L : nat) (ts : list TrialR)
  (p : ParamsR) (c : ConfigR) :
  is_str (constrain_latent_mode c) "location" = true ->
  concat (map (@mu R) ts) <> [] ->
  Forall (fun t => rows_of L (mu t)) ts ->
  b p <> [] ->
  exists ts' p',
    constrain_latent ts p c = Ok (ts', p')
    /\ mean0 (concat (map (@mu R) ts')) = zeros L.
Proof.
  intros Hk Hm0 Hrows Hb; unfold constrain_latent.
  destruct (constrain_latent_mode c) as [|s|o]; simpl in Hk;
    try discriminate.
  apply String.eqb_eq in Hk; subst s; simpl.
  unfold concatenate.
  destruct (map (@mu R) ts) as [|m0 ms] eqn:Hmap; [simpl in Hm0; congruence|].
  rewrite <- Hmap in Hm0 |- *.
  unfold center.
  destruct (b p) as [|b0 rest]; [congruence|].
  eexists; eexists; split; [reflexivity|].
  rewrite concat_centered.
  apply mean0_centered; [|exact Hm0].
  apply rows_of_concat.
  rewrite Forall_map; exact Hrows.
Qed.

End CoreReal.

(** ** [vb.py]: the unconstrained branches, in exact arithmetic *)

Section VBReal.
Context `{Extern R}.
Import VB.
Local Open Scope R_scope.

Lemma sltb_R_true (x y : R) : (x <? y)%S = true -> x < y.
Proof. simpl; destruct (Rlt_dec x y); [auto|discriminate]. Qed.

Lemma sltb_R_false (x y : R) : (x <? y)%S = false -> ~ x < y.
Proof. simpl; destruct (Rlt_dec x y); [discriminate|auto]. Qed.

Lemma Forall_length_set_col (l j : nat) (c : vecR) (M : matR) :
  Forall (fun r => (l < length r)%nat) M ->
  Forall (fun r => (l < length r)%nat) (set_col j c M).
Proof.
  unfold set_col; intros HM; revert c.
  induction HM as [|r M Hr HM IH]; intros [|e c]; simpl; constructor.
  - now rewrite length_set_nth.
  - apply IH.
Qed.

Lemma vsum_shifted (u : vecR) (c : R) :
  vsum (map (fun x => x - c) u) = vsum u - INR (length u) * c.
Proof.
  induction u as [|e u IH].
  - simpl; ring.
  - change (vsum (map (fun x => x - c) (e :: u)))
      with (e - c + vsum (map (fun x => x - c) u)).
    rewrite IH.
    change (vsum (e :: u)) with (e + vsum u).
    change (length (e :: u)) with (S (length u)); rewrite S_INR; ring.
Qed.

Lemma vsum_centered (u : vecR) :
  vsum (map (fun x => x - vsum u / INR (length u)) u) = 0.
Proof.
  rewrite vsum_shifted.
  destruct u as [|e u]; [simpl; ring|].
  field; apply not_0_INR; simpl; lia.
Qed.

(** The unconstrained [m] block ends by subtracting its mean from
    [m[:, l]]: when the block runs to its end (the gradient is not below
    [eps] and the solve returns), the entries of [m[:, l]] sum to zero,
    whether the step was kept or undone. *)
Theorem m_block_free_zero_mean (d : VB.data R) (last : R) (l : nat)
  (st : VB.state R) (sol : vecR) :
  (norm_inf (grad_m d st l) <? VB.eps)%S = false ->
  np_solve (hess_m d st l) (grad_m d st l) = Returns sol ->
  Forall (fun r => (l < length r)%nat) (m st) ->
  exists st',
    m_block_free d last l st = Next st' /\ vsum (col l (m st')) = 0.
Proof.
  intros Hg Hs HF.
  unfold m_block_free; rewrite Hg, Hs; cbv zeta.
  match goal with
  | |- exists st', Next (with_m ?s7 ?M) = Next st' /\ _ =>
      set (S7 := s7); exists (with_m S7 M); split; [reflexivity|]
  end.
  unfold with_m at 1; cbn [m].
  assert (HF7 : Forall (fun r => (l < length r)%nat) (m S7)).
  { subst S7.
    repeat match goal with
           | |- context [if ?c then _ else _] => destruct c
           end; unfold m_free_step; simpl;
      repeat apply Forall_length_set_col; exact HF. }
  rewrite col_set_col.
  - apply vsum_centered.
  - now rewrite length_map, length_col.
  - exact HF7.
Qed.

(** The unconstrained [a] block ends by rescaling [a[l, :]] to the norm
    [anorm]: when the block runs to its end and [anorm > 0], the row has
    norm [anorm], or norm 0 (an all-zero row is left as it is). *)
Theorem a_block_free_norm (d : VB.data R) (last : R) (l : nat)
  (st : VB.state R) (sol : vecR) :
  (norm_inf (grad_a d st l) <? VB.eps)%S = false ->
  np_solve (hess_a d st l) (grad_a d st l) = Returns sol ->
  (l < length (a st))%nat ->
  0 < anorm d ->
  exists st',
    a_block_free d last l st = Next st'
    /\ (vnorm (row l (a st')) = anorm d \/ vnorm (row l (a st')) = 0).
Proof.
  intros Hg Hs Hl Han.
  unfold a_block_free; rewrite Hg, Hs; cbv zeta.
  match goal with
  | |- context [row l (a ?s7)] => set (S7 := s7)
  end.
  assert (Hl7 : (l < length (a S7))%nat).
  { subst S7.
    repeat match goal with
           | |- context [if ?c then _ else _] => destruct c
           end; unfold a_free_step; simpl; unfold set_row;
      rewrite ?length_set_nth; exact Hl. }
  assert (Hnn : 0 <= vnorm (row l (a S7))) by apply sqrt_pos.
  destruct (s0 <? vnorm (row l (a S7)))%S eqn:Htest.
  - apply sltb_R_true in Htest.
    change (0 < vnorm (row l (a S7))) in Htest.
    eexists; split; [reflexivity|]; left.
    unfold with_a at 1; cbn [a].
    rewrite row_set_row by exact Hl7.
    assert (Hk : 0 < vnorm (row l (a S7)) / anorm d).
    { apply Rdiv_lt_0_compat; [exact Htest|exact Han]. }
    pose proof (vnorm_div (row l (a S7)) Hk) as Hv.
    etransitivity; [exact Hv|].
    field; split; apply Rgt_not_eq; assumption.
  - apply sltb_R_false in Htest.
    change (~ 0 < vnorm (row l (a S7))) in Htest.
    eexists; split; [reflexivity|]; right; lra.
Qed.

End VBReal.

Module DemoVBReal.
Local Open Scope R_scope.

(** One time step, one channel, one latent dimension, in exact
    arithmetic; [vb_stateR2] has the loading 2 in place of 1. *)
Definition vb_dataR : VB.data R :=
  {| VB.y := [[1]]; VB.Y := [[1]]; VB.mu := [[0]]; VB.omega := [[[1]]];
     VB.anorm := 1; VB.constrain_a := "none"; VB.constrain_m := "none" |}.

Definition vb_stateR : VB.state R :=
  {| VB.b := [[0]]; VB.a := [[1]]; VB.m := [[1]]; VB.V := [[[1]]];
     VB.rate := [[1 / 2]];
     VB.rb := [1]; VB.ra := [1]; VB.rm := [1];
     VB.lam_a := [0]; VB.lam_m := [0];
     VB.last_b := [[0]]; VB.last_a := [[1]]; VB.last_m := [[1]];
     VB.last_rate := [[1 / 2]];
     VB.lam_last_a := [0]; VB.lam_last_m := [0] |}.

Definition vb_stateR2 : VB.state R :=
  {| VB.b := [[0]]; VB.a := [[2]]; VB.m := [[1]]; VB.V := [[[1]]];
     VB.rate := [[1 / 2]];
     VB.rb := [1]; VB.ra := [1]; VB.rm := [1];
     VB.lam_a := [0]; VB.lam_m := [0];
     VB.last_b := [[0]]; VB.last_a := [[2]]; VB.last_m := [[1]];
     VB.last_rate := [[1 / 2]];
     VB.lam_last_a := [0]; VB.lam_last_m := [0] |}.

End DemoVBReal.

Section VBRealRuns.
Import Demo DemoVBReal VB.
Local Open Scope R_scope.

Lemma eps_small : VB.eps < 1 / 4.
Proof.
  unfold VB.eps; simpl.
  assert (H4 : 2 ^ 4 <= 2 ^ 52) by (apply Rle_pow; [lra|lia]).
  assert (Hinv : / 2 ^ 52 <= / 2 ^ 4).
  { apply Rinv_le_contravar; [|exact H4]. apply pow_lt; lra. }
  replace (2 ^ 4) with 16 in Hinv by (simpl; ring).
  lra.
Qed.

Lemma norm_inf_large (g : R) (rest : vecR) :
  1 / 4 <= Rabs g -> (norm_inf (g :: rest) <? VB.eps)%S = false.
Proof.
  intros Hg.
  change (norm_inf (g :: rest)) with (Rmax (Rabs g) (norm_inf rest)).
  pose proof (Rmax_l (Rabs g) (norm_inf rest)) as Hmax.
  pose proof eps_small as He.
  simpl sltb.
  destruct (Rlt_dec _ _) as [Hlt|_]; [exfalso; lra|reflexivity].
Qed.

Lemma Rabs_minus_half : 1 / 4 <= Rabs (- (1 / 2)).
Proof. unfold Rabs; destruct (Rcase_abs _); lra. Qed.

(** The unconstrained [m] block on [vb_stateR]: the gradient is [-1/2], the
    Hessian [-3/2]. *)
Lemma m_block_free_zero_mean_witness :
  exists st',
    m_block_free vb_dataR 0 0 vb_stateR = Next st'
    /\ vsum (col 0 (m st')) = 0.
Proof.
  assert (Hgrad : grad_m vb_dataR vb_stateR 0 = [- (1 / 2)])
    by (cbn; f_equal; lra).
  assert (Hhess : hess_m vb_dataR vb_stateR 0 = [[- (3 / 2)]])
    by (cbn; do 2 f_equal; lra).
  apply (@m_block_free_zero_mean Extern_R vb_dataR 0 0%nat vb_stateR
           [- (1 / 2) / - (3 / 2)]).
  - rewrite Hgrad; apply norm_inf_large, Rabs_minus_half.
  - rewrite Hgrad, Hhess; cbn.
    destruct (Req_dec_T _ 0) as [Heq|_]; [exfalso; lra|reflexivity].
  - repeat constructor.
Defined.

(** The unconstrained [a] block on [vb_stateR2]: the gradient is [-1/2],
    the Hessian [-5]. *)
Lemma a_block_free_norm_witness :
  exists st',
    a_block_free vb_dataR 0 0 vb_stateR2 = Next st'
    /\ (vnorm (row 0 (a st')) = 1 \/ vnorm (row 0 (a st')) = 0).
Proof.
  assert (Hgrad : grad_a vb_dataR vb_stateR2 0 = [- (1 / 2)])
    by (cbn; f_equal; lra).
  assert (Hhess : hess_a vb_dataR vb_stateR2 0 = [[- 5]])
    by (cbn; do 2 f_equal; lra).
  apply (@a_block_free_norm Extern_R vb_dataR 0 0%nat vb_stateR2
           [- (1 / 2) / - 5]).
  - rewrite Hgrad; apply norm_inf_large, Rabs_minus_half.
  - rewrite Hgrad, Hhess; cbn.
    destruct (Req_dec_T _ 0) as [Heq|_]; [exfalso; lra|reflexivity].
  - simpl; lia.
  - simpl; lra.
Defined.

End VBRealRuns.

(** ** [core.py]: the further properties on concrete inputs *)

Module DemoMore.
Import Core Demo DemoCore DemoReal.

(** A trial as it is before [update_w] and [update_v]: no [w], [v] or
    [dmu]. *)
Definition trial_bare : Trial float :=
  {| y := [[1]; [2]]; x := [[[1]]; [[1]]]; mu := [[0.5]; [-0.5]];
     w := None; v := None; dmu := None |}%float.

(** Two time steps, one Gaussian channel, an intercept and one more
    regressor. *)
Definition lik_g2 : list family := [gaussian].

Definition mwork_g2 : mwork float :=
  {| mw_a := [[0]]; mw_b := [[0]; [0]]; mw_da := [[0]]; mw_db := [[0]; [0]];
     mw_log := [] |}%float.

Definition channel_g2 : result (mwork float) :=
  channel_update lik_g2 DemoMStep.config_s
    [[3]; [1]]%float [[[1]; [0]]; [[1]; [1]]]%float
    [[1]; [-1]]%float [[0]; [0]]%float [[1]; [1]]%float 0 mwork_g2.

(** A prior factor with three columns: the system of the mean update has
    three unknowns, more than [solve1_R] takes. *)
Definition paramsR3 : Params R :=
  {| zdim := 1; ydim := 1; xdim := 1; rank := 3;
     likelihood := [poisson];
     a := [[1%R]]; b := [[0%R]]; noise := [1%R];
     da := [[0%R]]; db := [[0%R]];
     cholesky := [] |}.

Definition config_location : Config R :=
  {| Eniter := 1; Mniter := 1; max_iter := 1; min_iter := 1;
     tol := 1%R; method := "VB"; use_hessian := true;
     dmu_bound := 5%R; da_bound := 5%R; db_bound := 5%R;
     eps := 1%R; learning_rate := 1%R;
     constrain_latent_mode := CStr "location";
     constrain_loading_mode := CFalsy;
     Hstep := false; runtime_it := None |}.

End DemoMore.

Section CoreMoreRuns.
Import Core Demo DemoCore DemoMStep DemoReal DemoMore.

(** With [Eniter = 0] the bare trial goes through the E step. *)
Lemma estep_no_iterations_witness :
  estep [trial_bare] params0 (with_Eniter config0 0) []
  = Ok ([trial_bare], []).
Proof.
  apply (@estep_no_iterations float _ _ [trial_bare] params0
           (with_Eniter config0 0) []).
  simpl; lia.
Defined.

(** With [Eniter = 1] it raises [KeyError]. *)
Lemma estep_missing_entry_witness :
  infer_single_trial trial_bare params0 config0 []
  = Raise KeyError (trial_bare, [])
  /\ estep [trial_bare; trial0] params0 config0 []
     = Raise KeyError ([trial_bare; trial0], []).
Proof.
  apply (@estep_missing_entry float _ _ trial_bare [trial0] params0 config0
           []).
  - simpl; lia.
  - left; reflexivity.
Defined.

(** [config_z] has the method ["MAP"]. *)
Lemma estep_map_keeps_variance_witness :
  v (fst (store_of (infer_single_trial trial_z params_z config_z [])))
  = v trial_z.
Proof.
  apply (@estep_map_keeps_variance float _ _ trial_z params_z config_z []).
  reflexivity.
Defined.

(** The singular loading system of [trial_s] does not stop the M step. *)
Lemma mstep_poisson_returns_witness :
  exists p' lg', mstep [trial_s] (params_s poisson) config_s [] = Ok (p', lg').
Proof.
  apply (@mstep_poisson_returns float _ _ [trial_s] (params_s poisson)
           config_s []).
  - intros [|n] Hn; [reflexivity|simpl in Hn; lia].
  - discriminate.
  - intros t [<-|[]]; discriminate.
Defined.

(** [params_g] has one Gaussian channel. *)
Lemma mstep_gaussian_keeps_deltas_witness :
  da (fst (store_of (mstep [trial_g] params_g config_s []))) = da params_g
  /\ db (fst (store_of (mstep [trial_g] params_g config_s []))) = db params_g.
Proof.
  apply (@mstep_gaussian_keeps_deltas float _ _ [trial_g] params_g config_s
           []).
  repeat constructor; discriminate.
Defined.

(** The second regression coefficient of the Gaussian channel of
    [channel_g2] is zero after the update. *)
Lemma gaussian_channel_zero_history_witness :
  nth 0 (nth 1 (mw_b (store_of channel_g2)) []) 0%float = 0%float.
Proof.
  change (nth 0 (nth 1 (mw_b (store_of channel_g2)) []) (@s0 float _)
          = @s0 float _).
  apply (@gaussian_channel_zero_history float _ _ lik_g2 config_s
           [[3]; [1]]%float [[[1]; [0]]; [[1]; [1]]]%float
           [[1]; [-1]]%float [[0]; [0]]%float [[1]; [1]]%float 0 1
           mwork_g2 (store_of channel_g2)).
  - reflexivity.
  - vm_compute; reflexivity.
  - vm_compute; split; lia.
  - simpl; lia.
Defined.

(** No trial, and a cap of 3. *)
Lemma vem_no_trials_witness :
  vem [] ([], params0, config0) []
  = Raise ValueError (([], params0, config0), [], 1).
Proof.
  apply (@vem_no_trials float _ _ _ [] params0 config0 []).
  - simpl; lia.
  - reflexivity.
Defined.

(** [params0] has factors for the length 2 only; the bare trial has
    length 2, so its [mu] is cut to one row here. *)
Lemma update_v_missing_prior_witness :
  raised (update_v [with_mu trial_bare [[0.5%float]]] params0 config0 [])
  = Some KeyError.
Proof.
  rewrite (@update_v_missing_prior float _ _
             (with_mu trial_bare [[0.5%float]]) [] params0 config0 []);
    reflexivity.
Defined.

Local Open Scope R_scope.

(** The solve of a system of three unknowns raises in [solve1_R]. *)
Lemma e_step_solve_failure_witness :
  exists wk',
    mean_update paramsR3 configR [[[1; 0; 0]]] [[2]] 0 workR = Some wk'
    /\ wk_mu wk' = wk_mu workR
    /\ wk_log wk' = [LogException "infer_single_trial"].
Proof.
  destruct (@e_step_solve_failure Extern_R paramsR3 configR [[[1; 0; 0]]]
              [[2]] 0%nat workR [[1; 0; 0]] LinAlgError)
    as (wk' & Hrun & Hmu & _ & _ & _ & Hlog).
  - reflexivity.
  - cbn; reflexivity.
  - exists wk'; repeat split; assumption.
Defined.

(** One time step, the factor [G = [[2]]]: the variance becomes 4. *)
Lemma update_v_prior_variance_witness :
  update_v_dim 1 [[[2]]] (setdefault None [[1]]) 0 ([[0]], [])
  = Ok (set_col 0 (map (fun g => dot g g) [[2]]) [[0]], []).
Proof.
  apply (@update_v_prior_variance Extern_R 1 [[[2]]] [[1]] [[0]] 0%nat []
           [[2]] [[0 / 1]]).
  - reflexivity.
  - repeat constructor.
  - reflexivity.
  - discriminate.
  - lia.
  - cbn.
    destruct (Req_dec_T 1 0) as [Heq|_]; [exfalso; lra|reflexivity].
  - repeat constructor.
  - discriminate.
Defined.

(** [configR] has the mode ["fro"] and [eps = 1]. *)
Lemma constrain_loading_fro_norm_witness :
  exists ts' p',
    constrain_loading [trialR] paramsR configR = Ok (ts', p')
    /\ norm (a p') = norm (a paramsR) / (norm (a paramsR) + eps configR)
    /\ norm (a p') < 1.
Proof.
  apply (@constrain_loading_fro_norm Extern_R [trialR] paramsR configR).
  - reflexivity.
  - simpl; lra.
Defined.

(** The means 1 and 3 of [trialR] are centred. *)
Lemma constrain_latent_location_zero_mean_witness :
  exists ts' p',
    constrain_latent [trialR] paramsR config_location = Ok (ts', p')
    /\ mean0 (concat (map (@mu R) ts')) = zeros 1.
Proof.
  apply (@constrain_latent_location_zero_mean 1 [trialR] paramsR
           config_location).
  - reflexivity.
  - discriminate.
  - repeat constructor.
  - discriminate.
Defined.

End CoreMoreRuns.

(** ** [vb.py]: the outer loop *)

Section OuterLoopVB.
Context {A : Type} `{Scalar A} `{Extern A}.
Import VB.

Lemma outer_body_it (d : VB.data A) (f : flags) (c : control A)
  (o o' : outer A) :
  outer_body d f c o = Ok o' -> it o' = S (it o).
Proof.
  unfold outer_body; cbv zeta; intros Hb.
  destruct (if fixb f then _ else _) as [s1|e s1]; [|discriminate].
  destruct (if fixa f then _ else _) as [s2|e s2]; [|discriminate].
  destruct (if fixm f then _ else _) as [s3|e s3]; [|discriminate].
  destruct (if fixV f then _ else _) as [s4 K4].
  inversion Hb; reflexivity.
Qed.

Lemma outer_body_raise_it (d : VB.data A) (f : flags) (c : control A)
  (o o' : outer A) (e : exn) :
  outer_body d f c o = Raise e o' -> it o' = it o.
Proof.
  unfold outer_body; cbv zeta; intros Hb.
  destruct (if fixb f then _ else _) as [s1|e1 s1];
    [|inversion Hb; reflexivity].
  destruct (if fixa f then _ else _) as [s2|e2 s2];
    [|inversion Hb; reflexivity].
  destruct (if fixm f then _ else _) as [s3|e3 s3];
    [|inversion Hb; reflexivity].
  destruct (if fixV f then _ else _) as [s4 K4].
  discriminate.
Qed.

Lemma outer_loop_bounds (fuel : nat) (d : VB.data A) (f : flags)
  (c : control A) (o : outer A) :
  maxiter c - it o <= fuel ->
  let r := outer_loop fuel d f c o in
  it o <= it (store_of r) <= Nat.max (it o) (maxiter c)
  /\ (raised r = None ->
      convergent (store_of r) = true \/ maxiter c <= it (store_of r)).
Proof.
  revert o; induction fuel as [|fuel IH]; intros o Hfuel; simpl.
  - destruct (convergent o) eqn:Hconv; simpl.
    + split; [lia|auto].
    + destruct (Nat.ltb_spec (it o) (maxiter c)) as [Hlt|Hge]; [lia|].
      simpl; split; [lia|auto].
  - destruct (convergent o) eqn:Hconv; simpl.
    + split; [lia|auto].
    + destruct (Nat.ltb_spec (it o) (maxiter c)) as [Hlt|Hge].
      * destruct (outer_body d f c o) as [o'|e o'] eqn:Hb.
        -- apply outer_body_it in Hb.
           destruct (IH o') as [Hit Hstop]; [lia|].
           split; [lia|exact Hstop].
        -- apply outer_body_raise_it in Hb; simpl.
           split; [lia|discriminate].
      * simpl; split; [lia|auto].
Qed.

(** The [while] loop of [variational] ends: from any variables, within
    [maxiter - it] passes it returns with [convergent] set or [it] at
    [maxiter] or above, or an exception has left it; [it] never goes down
    and never passes [maxiter] (or its value at the start, if that is
    larger), so the trace [lbound[:it]] it returns has at most [maxiter]
    entries when it started from [it = 1 <= maxiter]. *)
Theorem variational_loop_ends (d : VB.data A) (f : flags) (c : control A)
  (o : outer A) :
  let r := variational_loop d f c o in
  it o <= it (store_of r) <= Nat.max (it o) (maxiter c)
  /\ (raised r = None ->
      convergent (store_of r) = true \/ maxiter c <= it (store_of r)).
Proof. apply outer_loop_bounds; lia. Qed.

(** The last pass allowed can converge and [variational] still warns: when
    the pass that starts at [it = maxiter - 1] sets [convergent], the loop
    ends with [it = maxiter], so [convergent] is returned as [True] and the
    warning ['not convergent'] is issued all the same. *)
Theorem warning_despite_convergence (d : VB.data A) (f : flags)
  (c : control A) (o o' : outer A) :
  convergent o = false ->
  S (it o) = maxiter c ->
  outer_body d f c o = Ok o' ->
  convergent o' = true ->
  variational_loop d f c o = Ok o'
  /\ out_convergent (finish c o') = true
  /\ out_warned (finish c o') = true.
Proof.
  intros Hconv Hit Hbody Hconv'.
  pose proof (@outer_body_it d f c o o' Hbody) as Hit'.
  unfold variational_loop.
  replace (maxiter c - it o) with 1 by lia.
  simpl; rewrite Hconv; simpl.
  destruct (Nat.ltb_spec (it o) (maxiter c)) as [_|Hge]; [|lia].
  rewrite Hbody, Hconv'; simpl.
  repeat split; auto.
  apply Nat.eqb_eq; lia.
Qed.

End OuterLoopVB.

Section OuterLoopFloat.
Context `{Extern float}.
Import VB.

(** With [fixa], [fixb], [fixm] and [fixV] all set and a positive [tol],
    the loop makes one pass and stops: no parameter, no trust scalar and
    no entry of [K] changes, [lbound[it]] is the bound of the state it was
    given, and [convergent] is set. *)
Theorem fixed_parameters_one_pass (d : VB.data float) (f : flags)
  (c : control float) (o : outer float) :
  fixa f = true -> fixb f = true -> fixm f = true -> fixV f = true ->
  PrimFloat.ltb 0 (tol c) = true ->
  convergent o = false ->
  it o < maxiter c ->
  variational_loop d f c o
  = Ok {| o_st := o_st o; o_K := o_K o;
          old_a := a (o_st o); old_b := b (o_st o); old_m := m (o_st o);
          old_V := V (o_st o);
          lbound := set_nth (it o) (lb_of d (o_st o)) (lbound o);
          it := S (it o);
          convergent := true |}.
Proof.
  intros Ha Hb Hm HV Htol Hconv Hit.
  unfold variational_loop.
  destruct (maxiter c - it o) as [|fuel] eqn:Hfuel; [lia|].
  simpl; rewrite Hconv; simpl.
  destruct (Nat.ltb_spec (it o) (maxiter c)) as [_|Hge]; [|lia].
  unfold outer_body; rewrite Ha, Hb, Hm, HV; simpl.
  unfold py_max; simpl.
  rewrite Htol.
  destruct fuel; reflexivity.
Qed.

End OuterLoopFloat.

(** ** [vb.py]: the covariance update, in exact arithmetic *)

Section CovarianceReal.
Context `{Extern R}.
Import VB.
Local Open Scope R_scope.

(** A [T] x [T] matrix, and a symmetric one. *)
Definition square (T : nat) (M : matR) : Prop :=
  length M = T /\ rows_of T M.

Definition symmetric (M : matR) : Prop :=
  forall i j, nth j (nth i M []) 0 = nth i (nth j M []) 0.

Lemma nth_map2_seq {X Y : Type} (f : nat -> X -> Y) (s i : nat)
  (M : list X) (dX : X) (dY : Y) :
  (i < length M)%nat ->
  nth i (map2 f (seq s (length M)) M) dY = f (s + i)%nat (nth i M dX).
Proof.
  revert s i; induction M as [|r M IH]; intros s i Hi; simpl in *; [lia|].
  destruct i as [|i].
  - f_equal; lia.
  - rewrite IH by lia; f_equal; lia.
Qed.

Lemma length_map2_seq {X Y : Type} (f : nat -> X -> Y) (s : nat)
  (M : list X) :
  length (map2 f (seq s (length M)) M) = length M.
Proof. rewrite length_map2, length_seq; lia. Qed.

Lemma square_row (T i : nat) (M : matR) :
  square T M -> (i < T)%nat -> length (nth i M []) = T.
Proof.
  intros [Hlen Hrows] Hi.
  unfold rows_of in Hrows; rewrite Forall_forall in Hrows.
  apply Hrows, nth_In; lia.
Qed.

Lemma square_outside (T i j : nat) (M : matR) :
  square T M -> (T <= i \/ T <= j)%nat -> nth j (nth i M []) 0 = 0.
Proof.
  intros HM Hout.
  destruct (Nat.lt_ge_cases i T) as [Hi|Hi].
  - apply nth_overflow; rewrite (square_row HM Hi); lia.
  - destruct HM as [Hlen _].
    rewrite (nth_overflow M) by lia.
    destruct j; reflexivity.
Qed.

Lemma symmetric_inside (T : nat) (M : matR) :
  square T M ->
  (forall i j, (i < T)%nat -> (j < T)%nat ->
               nth j (nth i M []) 0 = nth i (nth j M []) 0) ->
  symmetric M.
Proof.
  intros HM Hin i j.
  destruct (Nat.lt_ge_cases i T) as [Hi|Hi];
    destruct (Nat.lt_ge_cases j T) as [Hj|Hj];
    [now apply Hin|..];
    rewrite !(square_outside HM) by lia; reflexivity.
Qed.

(** *** [V_spread] *)

Lemma nth_V_spread (T t i j : nat) (vtt old : R) (Vl : matR) :
  square T Vl -> (i < T)%nat -> (j < T)%nat ->
  nth j (nth i (V_spread t vtt old Vl) []) 0
  = if Nat.eqb i t then
      if Nat.eqb j t then nth j (nth i Vl []) 0
      else vtt * nth j (row t Vl) 0 / old
    else if Nat.eqb j t then vtt * nth i (row t Vl) 0 / old
    else nth j (nth i Vl []) 0
         + (vtt - old) * (nth i (row t Vl) 0 * nth j (row t Vl) 0)
           / (old * old).
Proof.
  intros HM Hi Hj.
  pose proof (square_row HM Hi) as Hrow.
  destruct HM as [Hlen _].
  unfold V_spread; cbv zeta.
  rewrite (nth_map2_seq _ 0 Vl [] []) by lia.
  rewrite (nth_map2_seq _ 0 (nth i Vl []) 0 0) by lia.
  reflexivity.
Qed.

Lemma rows_of_map2_seq (T : nat) (g : nat -> vecR -> vecR) (s : nat)
  (M : matR) :
  (forall i r, length (g i r) = length r) ->
  rows_of T M -> rows_of T (map2 g (seq s (length M)) M).
Proof.
  intros Hg HM; revert s; unfold rows_of in *.
  induction HM as [|r M Hr HM IH]; intros s; simpl; constructor.
  - now rewrite Hg.
  - apply IH.
Qed.

Lemma square_V_spread (T t : nat) (vtt old : R) (Vl : matR) :
  square T Vl -> square T (V_spread t vtt old Vl).
Proof.
  intros [Hlen Hrows]; unfold V_spread; cbv zeta; split.
  - now rewrite length_map2_seq.
  - apply rows_of_map2_seq; [|exact Hrows].
    intros i r; apply length_map2_seq.
Qed.

Lemma symmetric_V_spread (T t : nat) (vtt old : R) (Vl : matR) :
  square T Vl -> symmetric Vl -> symmetric (V_spread t vtt old Vl).
Proof.
  intros HM Hsym.
  apply (@symmetric_inside T); [now apply square_V_spread|].
  intros i j Hi Hj.
  rewrite !(@nth_V_spread T) by assumption.
  destruct (Nat.eqb i t) eqn:Hit; destruct (Nat.eqb j t) eqn:Hjt;
    try reflexivity.
  - apply Hsym.
  - rewrite (Hsym i j); unfold Rdiv; ring.
Qed.

(** *** Writing one diagonal entry *)

Lemma Forall_set_nth {X : Type} (P : X -> Prop) (j : nat) (x : X)
  (v : list X) :
  Forall P v -> ((j < length v)%nat -> P x) -> Forall P (set_nth j x v).
Proof.
  intros Hv; revert j; induction Hv as [|e v He Hv IH]; intros j Hx.
  - destruct j; constructor.
  - destruct j as [|j]; simpl; constructor; auto.
    + apply Hx; simpl; lia.
    + apply IH; intros Hj; apply Hx; simpl; lia.
Qed.

Lemma square_set_entry (T t u : nat) (x : R) (M : matR) :
  square T M -> square T (set_entry t u x M).
Proof.
  intros [Hlen Hrows]; unfold set_entry; split.
  - now rewrite length_set_nth.
  - apply Forall_set_nth; [exact Hrows|].
    intros Ht; rewrite length_set_nth.
    unfold rows_of in Hrows; rewrite Forall_forall in Hrows.
    apply Hrows, nth_In; exact Ht.
Qed.

Lemma nth_set_entry_diag (T t i j : nat) (x : R) (M : matR) :
  square T M -> (t < T)%nat ->
  nth j (nth i (set_entry t t x M) []) 0
  = if Nat.eqb i t && Nat.eqb j t then x else nth j (nth i M []) 0.
Proof.
  intros HM Ht.
  pose proof (square_row HM Ht) as Hrow.
  destruct HM as [Hlen _].
  unfold set_entry.
  destruct (Nat.eqb_spec i t) as [->|Hi]; simpl.
  - rewrite nth_set_nth_same by lia.
    destruct (Nat.eqb_spec j t) as [->|Hj].
    + apply nth_set_nth_same; lia.
    + now apply nth_set_nth_other.
  - rewrite nth_set_nth_other by exact Hi; reflexivity.
Qed.

Lemma symmetric_set_entry (T t : nat) (x : R) (M : matR) :
  square T M -> symmetric M -> symmetric (set_entry t t x M).
Proof.
  intros HM Hsym.
  destruct (Nat.lt_ge_cases t T) as [Ht|Ht].
  - intros i j.
    rewrite !(@nth_set_entry_diag T) by assumption.
    rewrite (Bool.andb_comm (Nat.eqb j t)).
    destruct (Nat.eqb i t && Nat.eqb j t); [reflexivity|apply Hsym].
  - unfold set_entry.
    rewrite set_nth_beyond; [exact Hsym|].
    destruct HM as [Hlen _]; lia.
Qed.

(** *** The update *)

(** Every [V[l]] is a symmetric [T] x [T] matrix. *)
Definition covariances (T : nat) (V : array3 R) : Prop :=
  Forall (fun Vl => square T Vl /\ symmetric Vl) V.

Lemma covariances_nth (T l : nat) (V : array3 R) :
  covariances T V -> (l < length V)%nat ->
  square T (nth l V []) /\ symmetric (nth l V []).
Proof.
  intros HV Hl; unfold covariances in HV; rewrite Forall_forall in HV.
  apply HV, nth_In; exact Hl.
Qed.

Lemma covariances_set_entry3 (T l t : nat) (x : R) (V : array3 R) :
  covariances T V -> covariances T (set_entry3 l t t x V).
Proof.
  intros HV; unfold set_entry3.
  apply Forall_set_nth; [exact HV|].
  intros Hl; destruct (covariances_nth HV Hl) as [Hsq Hsym].
  split; [now apply square_set_entry|now apply (@symmetric_set_entry T)].
Qed.

(** What the covariance update leaves alone. *)
Definition same_parameters (st st' : VB.state R) : Prop :=
  b st' = b st /\ a st' = a st /\ m st' = m st
  /\ rb st' = rb st /\ ra st' = ra st /\ rm st' = rm st
  /\ lam_a st' = lam_a st /\ lam_m st' = lam_m st.

Lemma same_parameters_refl (st : VB.state R) : same_parameters st st.
Proof. repeat split. Qed.

Lemma same_parameters_trans (s1 s2 s3 : VB.state R) :
  same_parameters s1 s2 -> same_parameters s2 s3 -> same_parameters s1 s3.
Proof.
  unfold same_parameters.
  intros (H1 & H2 & H3 & H4 & H5 & H6 & H7 & H8)
         (G1 & G2 & G3 & G4 & G5 & G6 & G7 & G8).
  repeat split; congruence.
Qed.

Lemma V_fixed_point_ok (T : nat) (d : VB.data R) (l t : nat) (k_ : R)
  (n : nat) (st : VB.state R) :
  covariances T (V st) ->
  covariances T (V (V_fixed_point d l t k_ n st))
  /\ same_parameters st (V_fixed_point d l t k_ n st).
Proof.
  revert st; induction n as [|n IH]; intros st HV; simpl.
  - split; [exact HV|apply same_parameters_refl].
  - match goal with
    | |- context [V_fixed_point d l t k_ n ?s] =>
        destruct (IH s) as [HV' Hsame]
    end.
    + simpl; now apply covariances_set_entry3.
    + split; [exact HV'|].
      eapply same_parameters_trans; [|exact Hsame].
      repeat split.
Qed.

Lemma V_step_ok (T : nat) (d : VB.data R) (n l t : nat) (st : VB.state R)
  (K : array3 R) :
  covariances T (V st) ->
  covariances T (V (fst (V_step d n l t (st, K))))
  /\ same_parameters st (fst (V_step d n l t (st, K))).
Proof.
  intros HV; unfold V_step; cbv zeta.
  match goal with
  | |- context [V_fixed_point d l t ?k n ?s] =>
      destruct (@V_fixed_point_ok T d l t k n s HV) as [HV1 Hsame];
      set (st1 := V_fixed_point d l t k n s) in *
  end.
  simpl; split.
  - apply Forall_set_nth; [exact HV1|].
    intros Hl; destruct (covariances_nth HV1 Hl) as [Hsq Hsym].
    split; [now apply square_V_spread|now apply (@symmetric_V_spread T)].
  - destruct Hsame as (H1 & H2 & H3 & H4 & H5 & H6 & H7 & H8).
    repeat split; assumption.
Qed.

(** The covariance update keeps every [V[l]] a symmetric [T] x [T] matrix,
    and changes none of [b], [a], [m], the trust scalars and the
    multipliers: it writes [V], [K], the cached rate and its copy only. *)
Theorem V_update_symmetric (T : nat) (d : VB.data R) (n : nat)
  (st : VB.state R) (K : array3 R) :
  covariances T (V st) ->
  covariances T (V (fst (V_update d n (st, K))))
  /\ same_parameters st (fst (V_update d n (st, K))).
Proof.
  unfold V_update.
  generalize (list_prod (seq 0 (ncols (mu d))) (seq 0 (nrows (y d)))) as lts.
  intros lts; revert st K; induction lts as [|[l t] lts IH]; intros st K HV.
  - simpl; split; [exact HV|apply same_parameters_refl].
  - change (fold_left
              (fun acc lt => V_step d n (fst lt) (snd lt) acc)
              ((l, t) :: lts) (st, K))
      with (fold_left
              (fun acc lt => V_step d n (fst lt) (snd lt) acc)
              lts (V_step d n l t (st, K))).
    destruct (@V_step_ok T d n l t st K HV) as [HV1 Hsame1].
    destruct (V_step d n l t (st, K)) as [st1 K1] eqn:Hstep.
    simpl in HV1, Hsame1.
    destruct (IH st1 K1 HV1) as [HV2 Hsame2].
    split; [exact HV2|].
    eapply same_parameters_trans; eassumption.
Qed.

End CovarianceReal.

Module DemoOuter.
Import Demo VB.

(** The variables of the loop before its first pass on [vb_data], from
    the state [vb_state]; [lbound[0]] is the bound of that state. *)
Definition outer0 (maxiter : nat) : outer float :=
  {| o_st := vb_state; o_K := [[[1%float]]];
     old_a := a vb_state; old_b := b vb_state; old_m := m vb_state;
     old_V := V vb_state;
     lbound := set_nth 0 (lb_of vb_data vb_state) (repeat neg_infinity maxiter);
     it := 1; convergent := false |}.

Definition all_fixed : flags :=
  {| fixa := true; fixb := true; fixm := true; fixV := true; p := 0 |}.

Definition none_fixed : flags :=
  {| fixa := false; fixb := false; fixm := false; fixV := false; p := 0 |}.

Definition control0 (maxiter : nat) (tol : float) : control float :=
  {| maxiter := maxiter; inneriter := 5; tol := tol |}.

(** Two time steps, one channel, one latent dimension, in exact
    arithmetic, with a symmetric covariance. *)
Definition vb_dataT2 : VB.data R :=
  {| VB.y := [[1]; [0]]; VB.Y := [[1]; [1]]; VB.mu := [[0]; [0]];
     VB.omega := [[[1; 0]; [0; 1]]];
     VB.anorm := 1; VB.constrain_a := "lag"; VB.constrain_m := "lag" |}%R.

Definition vb_stateT2 : VB.state R :=
  {| VB.b := [[0]]; VB.a := [[1]]; VB.m := [[1]; [1]];
     VB.V := [[[2; 1]; [1; 2]]];
     VB.rate := [[1 / 2]; [1 / 2]];
     VB.rb := [1]; VB.ra := [1]; VB.rm := [1];
     VB.lam_a := [0]; VB.lam_m := [0];
     VB.last_b := [[0]]; VB.last_a := [[1]]; VB.last_m := [[1]; [1]];
     VB.last_rate := [[1 / 2]; [1 / 2]];
     VB.lam_last_a := [0]; VB.lam_last_m := [0] |}%R.

End DemoOuter.

Section OuterLoopRunsVB.
Import Demo DemoOuter VB.

(** With nothing fixed and [tol = 100], the first pass on [vb_state]
    converges; with [maxiter = 2] it is the last pass allowed. *)
Lemma warning_despite_convergence_witness :
  variational_loop vb_data none_fixed (control0 2 100) (outer0 2)
  = Ok (store_of (outer_body vb_data none_fixed (control0 2 100) (outer0 2)))
  /\ out_convergent
       (finish (control0 2 100)
          (store_of (outer_body vb_data none_fixed (control0 2 100)
                       (outer0 2))))
     = true
  /\ out_warned
       (finish (control0 2 100)
          (store_of (outer_body vb_data none_fixed (control0 2 100)
                       (outer0 2))))
     = true.
Proof.
  apply (@warning_despite_convergence float _ _ vb_data none_fixed
           (control0 2 100) (outer0 2)).
  - reflexivity.
  - reflexivity.
  - vm_compute; reflexivity.
  - vm_compute; reflexivity.
Defined.

(** Everything fixed, [tol = 2^-10] and [maxiter = 5]. *)
Lemma fixed_parameters_one_pass_witness :
  variational_loop vb_data all_fixed (control0 5 0x1p-10) (outer0 5)
  = Ok {| o_st := vb_state; o_K := [[[1%float]]];
          old_a := a vb_state; old_b := b vb_state; old_m := m vb_state;
          old_V := V vb_state;
          lbound := set_nth 1 (lb_of vb_data vb_state) (lbound (outer0 5));
          it := 2; convergent := true |}.
Proof.
  apply (@fixed_parameters_one_pass _ vb_data all_fixed (control0 5 0x1p-10)
           (outer0 5)); try reflexivity.
  simpl; lia.
Defined.

Local Open Scope R_scope.

(** The 2 x 2 covariance of [vb_stateT2] is symmetric. *)
Lemma V_update_symmetric_witness :
  covariances 2 (V (fst (V_update vb_dataT2 5 (vb_stateT2, [[[1; 0]; [0; 1]]]))))
  /\ same_parameters vb_stateT2
       (fst (V_update vb_dataT2 5 (vb_stateT2, [[[1; 0]; [0; 1]]]))).
Proof.
  apply (@V_update_symmetric Extern_R 2 vb_dataT2 5 vb_stateT2
           [[[1; 0]; [0; 1]]]).
  repeat constructor.
  apply (@symmetric_inside 2); [repeat constructor|].
  intros [|[|i]] [|[|j]] Hi Hj; try lia; reflexivity.
Defined.

End OuterLoopRunsVB.

(** ** [core.py]: more on the E step *)

Section EStepMore.
Context {A : Type} `{Scalar A} `{Extern A}.
Import Core.

#[local] Abbreviation Params := (Core.Params A).
#[local] Abbreviation Config := (Core.Config A).
#[local] Abbreviation Trial := (Core.Trial A).
#[local] Abbreviation work := (Core.work A).




Lemma infer_iteration_fresh (p : Params) (c : Config)
  (prior : list (matrix A)) (y xb : matrix A) (k k' : work) :
  String.eqb (method c) "VB" = false ->
  infer_iteration p c prior y xb k = (k', false) ->
  wk_w k'
  = w_of (U_of (likelihood p) (noise p)
            (rate_of (eta_of (wk_mu k') (a p) xb) (wk_v k') (a p)))
         (a p).
Proof.
  intros Hm Hit; unfold infer_iteration in Hit; cbv zeta in Hit.
  destruct (for_dims _ _ k) as [k1 f1].
  destruct f1; [discriminate|].
  rewrite Hm in Hit; inversion Hit; reflexivity.
Qed.

Lemma infer_loop_fresh (n : nat) (p : Params) (c : Config)
  (prior : list (matrix A)) (y xb : matrix A) (k k' : work) :
  String.eqb (method c) "VB" = false ->
  infer_loop (S n) p c prior y xb k = (k', false) ->
  wk_w k'
  = w_of (U_of (likelihood p) (noise p)
            (rate_of (eta_of (wk_mu k') (a p) xb) (wk_v k') (a p)))
         (a p).
Proof.
  intros Hm; revert k; induction n as [|n IH]; intros k Hrun.
  - simpl in Hrun.
    destruct (infer_iteration p c prior y xb k) as [k1 f1] eqn:Hit.
    destruct f1; [discriminate|].
    inversion Hrun; subst k1.
    now apply (@infer_iteration_fresh p c prior y xb k).
  - change (infer_loop (S (S n)) p c prior y xb k)
      with (let '(k1, failed) := infer_iteration p c prior y xb k in
            if failed then (k1, true)
            else infer_loop (S n) p c prior y xb k1) in Hrun.
    destruct (infer_iteration p c prior y xb k) as [k1 f1].
    destruct f1; [discriminate|].
    now apply (IH k1).
Qed.

(** With a method other than ["VB"], at least one iteration and Poisson or
    Gaussian channels only, the weights the E step leaves in a trial are
    the ones [update_w] computes from the trial: running [update_w] after
    the E step changes nothing. *)
Theorem estep_then_update_w (ts ts' : list Trial) (p : Params) (c : Config)
  (lg lg' : list log_entry) :
  channels_known p ->
  String.eqb (method c) "VB" = false ->
  (1 <= Eniter c)%Z ->
  estep ts p c lg = Ok (ts', lg') ->
  update_w ts' p c = ts'.
Proof.
  intros _ Hm Hn; revert ts' lg lg'.
  induction ts as [|t ts IH]; intros ts' lg lg' Hrun; simpl in Hrun.
  - inversion Hrun; reflexivity.
  - destruct (infer_single_trial t p c lg) as [[t1 lg1]|e [t1 lg1]] eqn:Hone;
      [|discriminate].
    destruct (estep ts p c lg1) as [[ts1 lg2]|e [ts1 lg2]] eqn:Hrest;
      [|discriminate].
    inversion Hrun; subst ts' lg'; clear Hrun.
    unfold update_w; simpl.
    change (map (update_w_trial p) ts1) with (update_w ts1 p c).
    rewrite (IH ts1 lg1 lg2 Hrest); f_equal.
    unfold infer_single_trial in Hone.
    destruct (Z.ltb_spec (Eniter c) 1) as [Hlt|_]; [lia|].
    destruct (w t) as [w0|]; [|discriminate].
    destruct (v t) as [v0|]; [|discriminate].
    destruct (dmu t) as [d0|]; [|discriminate].
    destruct (lookup _ _) as [prior|]; [|discriminate].
    destruct (Z.to_nat (Eniter c)) as [|n] eqn:Hz; [lia|].
    destruct (infer_loop (S n) p c prior (y t) _ _) as [k failed] eqn:Hloop.
    destruct failed; [discriminate|].
    inversion Hone; subst t1 lg1; clear Hone.
    apply infer_loop_fresh in Hloop; [|exact Hm].
    unfold update_w_trial; simpl.
    rewrite <- Hloop; reflexivity.
Qed.

End EStepMore.

Section EStepMoreRuns.
Import Core Demo DemoCore.



(** The E step on [trial_z] with the method ["MAP"]. *)
Lemma estep_then_update_w_witness :
  update_w (fst (store_of (estep [trial_z] params_z config_z [])))
    params_z config_z
  = fst (store_of (estep [trial_z] params_z config_z [])).
Proof.
  apply (@estep_then_update_w float _ _ [trial_z]
           (fst (store_of (estep [trial_z] params_z config_z [])))
           params_z config_z []
           (snd (store_of (estep [trial_z] params_z config_z [])))).
  - intros [|n] Hn; [left; reflexivity|simpl in Hn; lia].
  - reflexivity.
  - simpl; lia.
  - vm_compute; reflexivity.
Defined.

(** [params_z] has one Poisson channel. *)
Lemma update_w_idempotent_witness :
  update_w (update_w [trial_z] params_z config_z) params_z config_z
  = update_w [trial_z] params_z config_z.
Proof.
  apply (@update_w_idempotent float _ _ [trial_z] params_z config_z).
  intros [|n] Hn; [left; reflexivity|simpl in Hn; lia].
Defined.

End EStepMoreRuns.

(** ** [core.py]: missing input of the M step *)

Section DriverMore.
Context {A : Type} `{Scalar A} `{Extern A} `{Core.Hyper A}.
Import Core.

#[local] Abbreviation Params := (Core.Params A).
#[local] Abbreviation Config := (Core.Config A).
#[local] Abbreviation Trial := (Core.Trial A).

Lemma entries_missing {X : Type} (get : Trial -> option X) (ts : list Trial) :
  (exists t, In t ts /\ get t = None) -> entries get ts = None.
Proof.
  induction ts as [|t ts IH]; intros (t0 & Hin & Hnone); [destruct Hin|].
  simpl; destruct (get t) as [e|] eqn:Ht; [|reflexivity].
  rewrite IH; [reflexivity|].
  exists t0; split; [|exact Hnone].
  destruct Hin as [->|Hin]; [congruence|exact Hin].
Qed.

(** With at least one inner iteration to run, [mstep] raises before it
    changes anything when its input is missing: [ValueError] on an empty
    list of trials (at the first [np.concatenate]), [KeyError] when a trial
    has no entry [v]; [params] and the log are as they were. *)
Theorem mstep_missing_input (ts : list Trial) (p : Params) (c : Config)
  (lg : list log_entry) :
  (1 <= Mniter c)%Z ->
  ts = [] \/ (exists t, In t ts /\ v t = None) ->
  raised (mstep ts p c lg)
  = Some (match ts with [] => ValueError | _ :: _ => KeyError end)
  /\ store_of (mstep ts p c lg) = (p, lg).
Proof.
  intros Hn Hmiss; unfold mstep.
  destruct (Z.ltb_spec (Mniter c) 1) as [Hlt|_]; [lia|].
  destruct ts as [|t0 ts0]; [simpl; auto|].
  destruct Hmiss as [Hnil|Hv]; [discriminate|].
  simpl concatenate.
  rewrite (@entries_missing _ (@v A) (t0 :: ts0) Hv); simpl; auto.
Qed.

End DriverMore.

Section DriverMoreRuns.
Import Core Demo DemoCore DemoMore.

(** [trial_bare] has no entry [v]. *)
Lemma mstep_missing_input_witness :
  raised (mstep [trial_bare] params0 config0 []) = Some KeyError
  /\ store_of (mstep [trial_bare] params0 config0 []) = (params0, []).
Proof.
  apply (@mstep_missing_input float _ _ [trial_bare] params0 config0 []).
  - simpl; lia.
  - right; exists trial_bare; split; [now left|reflexivity].
Defined.

End DriverMoreRuns.
